(** * Declaration type-checking (lib/Sema/TypeCheckDecl.cpp)

    A shallow embedding of [DeclChecker], the visitor that computes the type
    of every declaration, assigns archetypes to generic parameters and
    validates declaration attributes, together with the properties of it that
    the specification states.

    The checker mutates the AST in place and talks to the rest of the type
    checker through a handful of calls.  Here the AST nodes are records, a
    visit returns the node it was given in its new state, the [VarDecl]s
    (which a pattern and a member list both point to) live in a store, and
    every call the checker makes on [TC] is appended to a log. *)

From Stdlib Require Import ZArith Lia.
From stdpp Require Import base option list strings gmap.

Set Warnings "-register-all".

Local Open Scope string_scope.
Local Open Scope list_scope.
Local Open Scope Z_scope.

(* ===================================================================== *)
(** ** Types *)
(* ===================================================================== *)

Definition Identifier := string.

(** [Type] in the source is a handle that may be empty; [TNull] is the empty
    handle, and the kind tests below answer no on it.  [TIdentifier] is a
    type written by name whose referent is resolved by the validator; the
    kind tests do not look through it.  A polymorphic function type points
    to its generic parameter list; here it keeps the names of the
    parameters.  An archetype carries the identity it was allocated
    under. *)
Inductive Ty : Type :=
| TNull
| TError
| TOneOf (name : Identifier)
| TStruct (name : Identifier)
| TClass (name : Identifier)
| TProtocol (name : Identifier)
| TProtocolComposition (protocols : list Identifier)
| TTuple (fields : list TupleTypeElt)
| TFunction (input result : Ty)
| TPolymorphicFunction (input result : Ty) (genericParams : list Identifier)
| TLValue (object : Ty)
| TUnboundGeneric (name : Identifier)
| TArchetype (id : nat) (name : Identifier) (conformsTo : list Ty)
             (index : option nat)
| TIdentifier (name : Identifier)
with TupleTypeElt : Type :=
| mkTupleTypeElt (eltType : Ty) (eltName : Identifier) (eltHasInit : bool).

Definition getEltType (e : TupleTypeElt) : Ty :=
  match e with mkTupleTypeElt t _ _ => t end.
Definition hasInit (e : TupleTypeElt) : bool :=
  match e with mkTupleTypeElt _ _ b => b end.

Definition isNull (t : Ty) : bool :=
  match t with TNull => true | _ => false end.

Definition isErrorType (t : Ty) : bool :=
  match t with TError => true | _ => false end.

Definition isLValueType (t : Ty) : bool :=
  match t with TLValue _ => true | _ => false end.

(** [isExistentialType(Protocols)]: a protocol type or a protocol
    composition, with the protocols it names. *)
Definition existentialProtocols (t : Ty) : option (list Identifier) :=
  match t with
  | TProtocol p => Some [p]
  | TProtocolComposition ps => Some ps
  | _ => None
  end.

Definition isExistentialType (t : Ty) : bool :=
  match existentialProtocols t with Some _ => true | None => false end.

(** [dyn_cast<AnyFunctionType>]: input and result of a function type,
    polymorphic or not. *)
Definition asAnyFunctionType (t : Ty) : option (Ty * Ty) :=
  match t with
  | TFunction i r => Some (i, r)
  | TPolymorphicFunction i r _ => Some (i, r)
  | _ => None
  end.

Definition asTupleType (t : Ty) : option (list TupleTypeElt) :=
  match t with TTuple fs => Some fs | _ => None end.

Definition emptyTuple : Ty := TTuple [].

Definition isEmptyTuple (t : Ty) : bool :=
  match t with TTuple [] => true | _ => false end.

(** Modelled from the spec: [TypeBase::isMaterializable] is declared outside
    this file; the specification calls a type materialisable when it is not a
    reference and not a tuple containing a reference. *)
Fixpoint isMaterializable (t : Ty) : bool :=
  match t with
  | TLValue _ => false
  | TTuple fs =>
      (fix all (l : list TupleTypeElt) : bool :=
         match l with
         | [] => true
         | mkTupleTypeElt et _ _ :: l' => isMaterializable et && all l'
         end) fs
  | _ => true
  end.

(** [TypeLoc]: a type as written together with the slot the validator
    resolves it into; the source range is not modelled. *)
Record TypeLoc : Type := mkTypeLoc { tl_type : Ty }.

Definition setInvalidType (_ : TypeLoc) : TypeLoc := mkTypeLoc TError.

(* ===================================================================== *)
(** ** Attributes *)
(* ===================================================================== *)

Inductive Associativity := AssocNone | AssocLeft | AssocRight.

(** [InfixData()] is the invalid value; [isInfix] asks for a valid one. *)
Inductive InfixData :=
| InfixInvalid
| InfixValid (assoc : Associativity) (precedence : nat).

Record DeclAttributes : Type := mkAttrs {
  Infix : InfixData;
  Postfix : bool;
  Assignment : bool;
  Conversion : bool;
  Byref : bool;
  AutoClosure : bool
}.

Definition isInfix (a : DeclAttributes) : bool :=
  match Infix a with InfixValid _ _ => true | InfixInvalid => false end.

Definition noAttrs : DeclAttributes :=
  mkAttrs InfixInvalid false false false false false.

Definition setInfix (i : InfixData) (a : DeclAttributes) : DeclAttributes :=
  mkAttrs i (Postfix a) (Assignment a) (Conversion a) (Byref a) (AutoClosure a).
Definition setPostfix (b : bool) (a : DeclAttributes) : DeclAttributes :=
  mkAttrs (Infix a) b (Assignment a) (Conversion a) (Byref a) (AutoClosure a).
Definition setAssignment (b : bool) (a : DeclAttributes) : DeclAttributes :=
  mkAttrs (Infix a) (Postfix a) b (Conversion a) (Byref a) (AutoClosure a).
Definition setConversion (b : bool) (a : DeclAttributes) : DeclAttributes :=
  mkAttrs (Infix a) (Postfix a) (Assignment a) b (Byref a) (AutoClosure a).
Definition setByref (b : bool) (a : DeclAttributes) : DeclAttributes :=
  mkAttrs (Infix a) (Postfix a) (Assignment a) (Conversion a) b (AutoClosure a).
Definition setAutoClosure (b : bool) (a : DeclAttributes) : DeclAttributes :=
  mkAttrs (Infix a) (Postfix a) (Assignment a) (Conversion a) (Byref a) b.

(* ===================================================================== *)
(** ** Declarations *)
(* ===================================================================== *)

Inductive NominalKind := NK_OneOf | NK_Struct | NK_Class | NK_Protocol.

(** The context a declaration sits in.  A nominal context carries the
    [getDeclaredTypeInContext()] of the enclosing declaration, which is what
    the checker reads through the context pointer. *)
Inductive DeclContext : Type :=
| DC_TranslationUnit
| DC_BuiltinModule
| DC_NominalType (kind : NominalKind) (declaredTypeInContext : Ty)
| DC_Extension
| DC_CapturingExpr
| DC_TopLevelCode
| DC_Constructor
| DC_Destructor.

Definition isModuleContext (dc : DeclContext) : bool :=
  match dc with
  | DC_TranslationUnit | DC_BuiltinModule => true
  | _ => false
  end.

Definition isTypeContext (dc : DeclContext) : bool :=
  match dc with
  | DC_NominalType _ _ | DC_Extension => true
  | _ => false
  end.

Definition isTranslationUnit (dc : DeclContext) : bool :=
  match dc with DC_TranslationUnit => true | _ => false end.

Definition isProtocolContext (dc : DeclContext) : bool :=
  match dc with DC_NominalType NK_Protocol _ => true | _ => false end.

Definition isClassContext (dc : DeclContext) : bool :=
  match dc with DC_NominalType NK_Class _ => true | _ => false end.

(** [dyn_cast<OneOfDecl>(getDeclContext())], reduced to the one thing the
    checker reads from the result. *)
Definition asOneOfContext (dc : DeclContext) : option Ty :=
  match dc with DC_NominalType NK_OneOf t => Some t | _ => None end.

(** What every [ValueDecl] has.  [isOperator] and [isInstanceMember] are
    computed by the AST from the name and the context; they are recorded on
    the node. *)
Record ValueDecl : Type := mkValueDecl {
  getName : Identifier;
  getType : Ty;
  getAttrs : DeclAttributes;
  getDeclContext : DeclContext;
  isOperator : bool;
  isInstanceMember : bool
}.

Definition setType (t : Ty) (vd : ValueDecl) : ValueDecl :=
  mkValueDecl (getName vd) t (getAttrs vd) (getDeclContext vd)
              (isOperator vd) (isInstanceMember vd).

Definition setAttrs (a : DeclAttributes) (vd : ValueDecl) : ValueDecl :=
  mkValueDecl (getName vd) (getType vd) a (getDeclContext vd)
              (isOperator vd) (isInstanceMember vd).

Definition mutateAttrs (f : DeclAttributes -> DeclAttributes) (vd : ValueDecl)
  : ValueDecl := setAttrs (f (getAttrs vd)) vd.

Record VarDecl : Type := mkVarDecl {
  var_base : ValueDecl;
  isProperty : bool
}.

Definition VarId := nat.

(** Patterns.  A named pattern points to its [VarDecl]. *)
Inductive Pattern : Type :=
| ParenPattern (sub : Pattern) (ty : Ty)
| TuplePattern (fields : list Pattern) (ty : Ty)
| NamedPattern (decl : VarId) (ty : Ty)
| AnyPattern (ty : Ty)
| TypedPattern (sub : Pattern) (annotation : TypeLoc) (ty : Ty).

Definition patternType (p : Pattern) : Ty :=
  match p with
  | ParenPattern _ t | TuplePattern _ t | NamedPattern _ t | AnyPattern t
  | TypedPattern _ _ t => t
  end.

Definition patternHasType (p : Pattern) : bool := negb (isNull (patternType p)).

Definition patternSetType (t : Ty) (p : Pattern) : Pattern :=
  match p with
  | ParenPattern s _ => ParenPattern s t
  | TuplePattern fs _ => TuplePattern fs t
  | NamedPattern d _ => NamedPattern d t
  | AnyPattern _ => AnyPattern t
  | TypedPattern s a _ => TypedPattern s a t
  end.

Definition isTypedPattern (p : Pattern) : bool :=
  match p with TypedPattern _ _ _ => true | _ => false end.

(** Expressions are opaque to the declaration checker: it hands them to the
    expression checker and reads their type. *)
Record Expr : Type := mkExpr { expr_id : nat; expr_type : Ty }.

Record FuncExpr : Type := mkFuncExpr {
  getParamPatterns : list Pattern;
  fe_type : Ty
}.

Inductive Requirement : Type :=
| Conformance (subject protocol : Ty)
| SameType (first second : Ty).

Record TypeAliasDecl : Type := mkTypeAliasDecl {
  tad_base : ValueDecl;
  tad_underlying : TypeLoc;
  tad_inherited : list TypeLoc;
  tad_declaredType : Ty
}.

Definition setUnderlying (tl : TypeLoc) (t : TypeAliasDecl) : TypeAliasDecl :=
  mkTypeAliasDecl (tad_base t) tl (tad_inherited t) (tad_declaredType t).
Definition setTadInherited (inh : list TypeLoc) (t : TypeAliasDecl)
  : TypeAliasDecl :=
  mkTypeAliasDecl (tad_base t) (tad_underlying t) inh (tad_declaredType t).

(** A generic parameter list: the type parameters ([getAsTypeParam] of each
    entry) and the requirements clause. *)
Record GenericParamList : Type := mkGenericParamList {
  gp_params : list TypeAliasDecl;
  gp_requirements : list Requirement
}.

Definition paramNames (gp : GenericParamList) : list Identifier :=
  map (fun p => getName (tad_base p)) (gp_params gp).

Record PatternBindingDecl : Type := mkPatternBindingDecl {
  pbd_context : DeclContext;
  pbd_pattern : Pattern;
  pbd_init : option Expr
}.

Record SubscriptDecl : Type := mkSubscriptDecl {
  sub_base : ValueDecl;
  sub_elementTy : TypeLoc;
  sub_indices : Pattern
}.

Record OneOfElementDecl : Type := mkOneOfElementDecl {
  ooe_base : ValueDecl;
  ooe_argumentTy : TypeLoc
}.

Record FuncDecl : Type := mkFuncDecl {
  fd_base : ValueDecl;
  fd_body : FuncExpr;
  fd_genericParams : option GenericParamList;
  fd_thisType : Ty                     (* computeThisType() *)
}.

Record ConstructorDecl : Type := mkConstructorDecl {
  ctor_base : ValueDecl;
  ctor_genericParams : option GenericParamList;
  ctor_arguments : Pattern;
  ctor_implicitThis : ValueDecl;       (* getImplicitThisDecl() *)
  ctor_thisType : Ty                   (* computeThisType() *)
}.

Record DestructorDecl : Type := mkDestructorDecl {
  dtor_base : ValueDecl;
  dtor_implicitThis : ValueDecl;
  dtor_thisType : Ty
}.

(** The part of a oneof, struct, class or protocol declaration that is not
    its member list. *)
Record NominalTypeDecl : Type := mkNominalTypeDecl {
  ntd_base : ValueDecl;
  ntd_inherited : list TypeLoc;
  ntd_genericParams : option GenericParamList;
  ntd_declaredType : Ty;
  ntd_declaredTypeInContext : Ty
}.

Record ExtensionDecl : Type := mkExtensionDecl {
  ext_context : DeclContext;
  ext_extendedTy : TypeLoc;
  ext_inherited : list TypeLoc
}.

Inductive Decl : Type :=
| DImport (dc : DeclContext)
| DPatternBinding (pbd : PatternBindingDecl)
| DVar (v : VarId)
| DFunc (fd : FuncDecl)
| DConstructor (cd : ConstructorDecl)
| DDestructor (dd : DestructorDecl)
| DSubscript (sd : SubscriptDecl)
| DTypeAlias (tad : TypeAliasDecl)
| DOneOf (ood : NominalTypeDecl) (members : list Decl)
| DOneOfElement (ed : OneOfElementDecl)
| DStruct (sd : NominalTypeDecl) (members : list Decl)
| DClass (cd : NominalTypeDecl) (members : list Decl)
| DProtocol (pd : NominalTypeDecl) (members : list Decl)
| DExtension (ed : ExtensionDecl) (members : list Decl)
| DTopLevelCode (dc : DeclContext).

(** [dyn_cast<ValueDecl>]. *)
Definition asValueDecl (vars : gmap nat VarDecl) (d : Decl) : option ValueDecl :=
  match d with
  | DVar v => var_base <$> vars !! v
  | DFunc fd => Some (fd_base fd)
  | DConstructor cd => Some (ctor_base cd)
  | DDestructor dd => Some (dtor_base dd)
  | DSubscript sd => Some (sub_base sd)
  | DTypeAlias tad => Some (tad_base tad)
  | DOneOfElement ed => Some (ooe_base ed)
  | DOneOf n _ | DStruct n _ | DClass n _ | DProtocol n _ => Some (ntd_base n)
  | DImport _ | DPatternBinding _ | DExtension _ _ | DTopLevelCode _ => None
  end.

(** A module as far as this file uses it: the answer of
    [lookupValue(AccessPath(), Name, QualifiedLookup, Found)]. *)
Record Module : Type := mkModule {
  lookupValue : Identifier -> list ValueDecl
}.

Inductive TUKind := TU_Library | TU_Main | TU_Repl.

(** The translation unit as attribute validation reads it: its kind, the
    declarations a scan of [TU->Decls] meets, and the modules it imports (an
    entry is [None] where the module pointer is null). *)
Record TranslationUnit : Type := mkTranslationUnit {
  tu_kind : TUKind;
  tu_decls : list Decl;
  tu_importedModules : list (option Module)
}.

Definition isLibrary (k : TUKind) : bool :=
  match k with TU_Library => true | _ => false end.

(* ===================================================================== *)
(** ** Diagnostics and the log of calls on [TC] *)
(* ===================================================================== *)

Inductive Diag : Type :=
| nonprotocol_inherit (t : Ty)
| requires_conformance_nonprotocol (subject protocol : Ty)
| var_type_not_materializable (t : Ty)
| while_converting_var_init (t : Ty)
| subscript_not_member
| oneof_element_not_materializable
| non_nominal_extension (isProtocol : bool) (t : Ty)
| constructor_not_member
| destructor_not_member
| operator_not_func
| invalid_arg_count_for_operator
| custom_operator_addressof
| infix_not_an_operator
| invalid_infix_left_input
| postfix_not_an_operator
| invalid_postfix_input
| invalid_decl_attribute (attr : string)
| assignment_without_byref
| assignment_nonvoid (t : Ty)
| conversion_not_instance_method (name : Identifier)
| conversion_params (name : Identifier)
| binops_infix_left.

(** One entry per call the checker makes, in the order of the calls.  A call
    that answers with a failure flag is logged with the answer. *)
Inductive Event : Type :=
| Diagnose (d : Diag)
| ValidateType (t : Ty) (isFirstPass failed : bool)
| TypeCheckPattern (p : Pattern) (isFirstPass failed : bool)
| TypeCheckExpression (e : Expr) (destTy : Ty) (failed : bool)
| SemaFuncExpr (body : FuncExpr) (isFirstPass : bool)
| CoerceToType (p : Pattern) (t : Ty) (isFirstPass failed : bool)
| ConvertToMaterializable (e : Expr)
| ConformsToProtocol (t : Ty) (protocol : Identifier)
| LookupValue (name : Identifier)
| AddGenericParameter (name : Identifier) (index : nat)
| AddRequirement (r : Requirement)
| AssignArchetypes
| ArchetypeGetNew (id : nat).

Definition diagnosticsOf (l : list Event) : list Diag :=
  omap (fun e => match e with Diagnose d => Some d | _ => None end) l.

(* ===================================================================== *)
(** ** The type checker the visitor runs against *)
(* ===================================================================== *)

Section DeclChecker.

(** State of the collaborators (type resolver, expression checker,
    conformance oracle): opaque here. *)
Context {X : Type}.

(** The calls of section 6 of the specification.  Each takes the
    collaborators' state and returns it; those that are handed a pattern may
    also write the [VarDecl]s the pattern binds. *)
Record Collaborators : Type := mkCollaborators {
  validateType : TypeLoc -> bool -> X -> bool * TypeLoc * X;
  typeCheckPattern :
    Pattern -> bool -> gmap nat VarDecl -> X ->
    bool * Pattern * gmap nat VarDecl * X;
  typeCheckExpression : Expr -> Ty -> X -> bool * Expr * X;
  semaFuncExpr :
    FuncExpr -> bool -> gmap nat VarDecl -> X ->
    FuncExpr * gmap nat VarDecl * X;
  coerceToType :
    Pattern -> Ty -> bool -> gmap nat VarDecl -> X ->
    bool * Pattern * gmap nat VarDecl * X;
  convertToMaterializable : Expr -> X -> option Expr * X;
  conformsToProtocol : Ty -> Identifier -> X -> X
}.

Record TypeChecker : Type := mkTypeChecker {
  TU : TranslationUnit;
  Vars : gmap nat VarDecl;
  Ext : X;
  Log : list Event;
  NextArchetype : nat
}.

(** Computations of the checker: they thread the type checker and stop on a
    failed [cast<>], [castTo<>], assertion or [llvm_unreachable]. *)
Definition M (A : Type) : Type := TypeChecker -> option (A * TypeChecker).

Definition ret {A} (a : A) : M A := fun tc => Some (a, tc).

Definition bind {A B} (m : M A) (k : A -> M B) : M B :=
  fun tc => match m tc with
            | Some (a, tc') => k a tc'
            | None => None
            end.

Definition abort {A} : M A := fun _ => None.

Definition emit (e : Event) : M unit :=
  fun tc => Some (tt, mkTypeChecker (TU tc) (Vars tc) (Ext tc)
                                   (Log tc ++ [e]) (NextArchetype tc)).

Definition diagnose (d : Diag) : M unit := emit (Diagnose d).

Definition getTC : M TypeChecker := fun tc => Some (tc, tc).

Definition setVars (vs : gmap nat VarDecl) : M unit :=
  fun tc => Some (tt, mkTypeChecker (TU tc) vs (Ext tc) (Log tc)
                                   (NextArchetype tc)).

End DeclChecker.

Arguments Collaborators : clear implicits.
Arguments TypeChecker : clear implicits.
Arguments M : clear implicits.

Declare Scope checker_scope.
Delimit Scope checker_scope with checker.
Notation "x <- c1 ;; c2" := (bind c1 (fun x => c2))
  (at level 100, c1 at next level, right associativity) : checker_scope.
Notation "c1 ;; c2" := (bind c1 (fun _ => c2))
  (at level 100, right associativity) : checker_scope.
Local Open Scope checker_scope.

(** [for (x : xs) body(x)] where the body returns the new state of [x]. *)
Definition forEach {X A} (body : A -> M X A) : list A -> M X (list A) :=
  fix go (l : list A) : M X (list A) :=
    match l with
    | [] => ret []
    | a :: l' => a' <- body a ;; l'' <- go l' ;; ret (a' :: l'')
    end.

(** [for (x : xs) body(x)] for a body that changes nothing in [x]. *)
Definition forEach_ {X A} (body : A -> M X unit) : list A -> M X unit :=
  fix go (l : list A) : M X unit :=
    match l with
    | [] => ret tt
    | a :: l' => body a ;; go l'
    end.

(* ===================================================================== *)
(** ** [DeclChecker::validateAttributes] *)
(* ===================================================================== *)

Section ValidateAttributes.

Context {X : Type}.

(** The number of lexical arguments: [-1] unless the type is a function type
    whose input is a tuple. *)
Definition numArguments (t : Ty) : Z :=
  match asAnyFunctionType t with
  | Some (input, _) =>
      match asTupleType input with
      | Some fields => Z.of_nat (length fields)
      | None => -1
      end
  | None => -1
  end.

Definition sameNameInfix (VD Existing : ValueDecl) : bool :=
  String.eqb (getName Existing) (getName VD) && isInfix (getAttrs Existing).

(** The scan of [TU->Decls]: the first value declaration of the same name
    that is infix gives its [Infix]; the loop stops there. *)
Fixpoint inheritFromDecls (vars : gmap nat VarDecl) (decls : list Decl)
         (VD : ValueDecl) : ValueDecl :=
  match decls with
  | [] => VD
  | D :: rest =>
      match asValueDecl vars D with
      | Some Existing =>
          if sameNameInfix VD Existing
          then mutateAttrs (setInfix (Infix (getAttrs Existing))) VD
          else inheritFromDecls vars rest VD
      | None => inheritFromDecls vars rest VD
      end
  end.

(** The loop over the declarations one module's lookup found.  Both [break]s
    of the source sit in this loop: the one after the assignment, and the one
    under [if (VD->getAttrs().isInfix())], which the closing brace of the
    [if] above it leaves inside the loop body. *)
Fixpoint inheritFromFound (found : list ValueDecl) (VD : ValueDecl)
  : ValueDecl :=
  match found with
  | [] => VD
  | Existing :: rest =>
      if sameNameInfix VD Existing
      then mutateAttrs (setInfix (Infix (getAttrs Existing))) VD
      else if isInfix (getAttrs VD) then VD
      else inheritFromFound rest VD
  end.

(** The loop over [TU->getImportedModules()]; nothing leaves it early. *)
Fixpoint inheritFromModules (mods : list (option Module)) (VD : ValueDecl)
  : M X ValueDecl :=
  match mods with
  | [] => ret VD
  | None :: rest => inheritFromModules rest VD
  | Some Mod :: rest =>
      emit (LookupValue (getName VD)) ;;
      inheritFromModules rest
        (inheritFromFound (lookupValue Mod (getName VD)) VD)
  end.

Definition inheritInfix (NumArguments : Z) (VD : ValueDecl) : M X ValueDecl :=
  if isOperator VD && negb (isInfix (getAttrs VD)) && negb (NumArguments =? 1)
  then
    VD <- (if isTranslationUnit (getDeclContext VD)
           then
             tc <- getTC ;;
             let VD := inheritFromDecls (Vars tc) (tu_decls (TU tc)) VD in
             if negb (isInfix (getAttrs VD))
             then inheritFromModules (tu_importedModules (TU tc)) VD
             else ret VD
           else ret VD) ;;
    if negb (isInfix (getAttrs VD))
    then diagnose binops_infix_left ;; ret VD
    else ret VD
  else ret VD.

Definition checkAssignment (isFuncDecl : bool) (NumArguments : Z)
           (VD : ValueDecl) : M X ValueDecl :=
  if Assignment (getAttrs VD) then
    if negb isFuncDecl || negb (isOperator VD) then
      diagnose (invalid_decl_attribute "assignment") ;;
      ret (mutateAttrs (setAssignment false) VD)
    else if NumArguments <? 1 then
      diagnose assignment_without_byref ;;
      ret (mutateAttrs (setAssignment false) VD)
    else
      match asAnyFunctionType (getType VD) with
      | None => abort
      | Some (input, result) =>
          ParamType <- match asTupleType input with
                       | Some (elt :: _) => ret (getEltType elt)
                       | Some [] => abort
                       | None => ret input
                       end ;;
          if negb (isLValueType ParamType) then
            diagnose assignment_without_byref ;;
            ret (mutateAttrs (setAssignment false) VD)
          else if negb (isEmptyTuple result) then
            diagnose (assignment_nonvoid result) ;; ret VD
          else ret VD
      end
  else ret VD.

Definition checkConversion (isFuncDecl : bool) (VD : ValueDecl)
  : M X ValueDecl :=
  if Conversion (getAttrs VD) then
    if negb isFuncDecl || negb (isInstanceMember VD) then
      diagnose (conversion_not_instance_method (getName VD)) ;;
      ret (mutateAttrs (setConversion false) VD)
    else if negb (isErrorType (getType VD)) then
      match asAnyFunctionType (getType VD) with
      | None => abort
      | Some (_, result) =>
          match asAnyFunctionType result with
          | None => abort
          | Some (InputTy, _) =>
              let AcceptsEmptyParamList :=
                match asTupleType InputTy with
                | Some fields => forallb hasInit fields
                | None => false
                end in
              if negb AcceptsEmptyParamList then
                diagnose (conversion_params (getName VD)) ;;
                ret (mutateAttrs (setConversion false) VD)
              else ret VD
          end
      end
    else ret VD
  else ret VD.

Definition checkByref (VD : ValueDecl) : M X ValueDecl :=
  if Byref (getAttrs VD) then
    diagnose (invalid_decl_attribute "byref") ;;
    ret (mutateAttrs (setByref false) VD)
  else ret VD.

Definition checkAutoClosure (VD : ValueDecl) : M X ValueDecl :=
  if AutoClosure (getAttrs VD) then
    diagnose (invalid_decl_attribute "auto_closure") ;;
    ret (mutateAttrs (setAutoClosure false) VD)
  else ret VD.

(** Everything after the operator, infix and postfix shape checks. *)
Definition validateRemainingAttributes (isFuncDecl : bool) (NumArguments : Z)
           (VD : ValueDecl) : M X ValueDecl :=
  VD <- checkAssignment isFuncDecl NumArguments VD ;;
  VD <- checkConversion isFuncDecl VD ;;
  VD <- inheritInfix NumArguments VD ;;
  VD <- checkByref VD ;;
  checkAutoClosure VD.

(** [validateAttributes(VD)]; [isFuncDecl] is [isa<FuncDecl>(VD)].  Each
    [return] of the source ends the chain of conditionals here. *)
Definition validateAttributes (isFuncDecl : bool) (VD : ValueDecl)
  : M X ValueDecl :=
  let Attrs := getAttrs VD in
  let NumArguments := numArguments (getType VD) in
  if isOperator VD && negb isFuncDecl then
    diagnose operator_not_func ;; ret VD
  else if isOperator VD && ((NumArguments =? 0) || (NumArguments >? 2)) then
    diagnose invalid_arg_count_for_operator ;;
    ret (mutateAttrs (setInfix InfixInvalid) VD)
  else if isOperator VD && (NumArguments =? 1)
          && String.eqb (getName VD) "&" then
    diagnose custom_operator_addressof ;; ret VD
  else if isInfix Attrs && negb (isOperator VD) then
    diagnose infix_not_an_operator ;;
    ret (mutateAttrs (setInfix InfixInvalid) VD)
  else if isInfix Attrs && negb (NumArguments =? 2) then
    diagnose invalid_infix_left_input ;;
    ret (mutateAttrs (setInfix InfixInvalid) VD)
  else if Postfix Attrs && negb (isOperator VD) then
    diagnose postfix_not_an_operator ;;
    ret (mutateAttrs (setPostfix false) VD)
  else if Postfix Attrs && negb (NumArguments =? 1) then
    diagnose invalid_postfix_input ;;
    ret (mutateAttrs (setPostfix false) VD)
  else validateRemainingAttributes isFuncDecl NumArguments VD.

End ValidateAttributes.

(* ===================================================================== *)
(** ** Calls on the collaborators *)
(* ===================================================================== *)

Section Calls.

Context {X : Type} (C : Collaborators X).

Definition withExt (tc : TypeChecker X) (x : X) (e : Event) : TypeChecker X :=
  mkTypeChecker (TU tc) (Vars tc) x (Log tc ++ [e]) (NextArchetype tc).

Definition withVarsExt (tc : TypeChecker X) (vs : gmap nat VarDecl) (x : X)
           (e : Event) : TypeChecker X :=
  mkTypeChecker (TU tc) vs x (Log tc ++ [e]) (NextArchetype tc).

Definition callValidateType (tl : TypeLoc) (isFirstPass : bool)
  : M X (bool * TypeLoc) :=
  fun tc =>
    let '(failed, tl', x) := validateType C tl isFirstPass (Ext tc) in
    Some ((failed, tl'),
          withExt tc x (ValidateType (tl_type tl) isFirstPass failed)).

Definition callTypeCheckPattern (P : Pattern) (isFirstPass : bool)
  : M X (bool * Pattern) :=
  fun tc =>
    let '(failed, P', vs, x) :=
      typeCheckPattern C P isFirstPass (Vars tc) (Ext tc) in
    Some ((failed, P'),
          withVarsExt tc vs x (TypeCheckPattern P isFirstPass failed)).

Definition callTypeCheckExpression (E : Expr) (DestTy : Ty)
  : M X (bool * Expr) :=
  fun tc =>
    let '(failed, E', x) := typeCheckExpression C E DestTy (Ext tc) in
    Some ((failed, E'), withExt tc x (TypeCheckExpression E DestTy failed)).

Definition callSemaFuncExpr (body : FuncExpr) (isFirstPass : bool)
  : M X FuncExpr :=
  fun tc =>
    let '(body', vs, x) := semaFuncExpr C body isFirstPass (Vars tc) (Ext tc) in
    Some (body', withVarsExt tc vs x (SemaFuncExpr body isFirstPass)).

Definition callCoerceToType (P : Pattern) (t : Ty) (isFirstPass : bool)
  : M X (bool * Pattern) :=
  fun tc =>
    let '(failed, P', vs, x) :=
      coerceToType C P t isFirstPass (Vars tc) (Ext tc) in
    Some ((failed, P'),
          withVarsExt tc vs x (CoerceToType P t isFirstPass failed)).

Definition callConvertToMaterializable (E : Expr) : M X (option Expr) :=
  fun tc =>
    let '(r, x) := convertToMaterializable C E (Ext tc) in
    Some (r, withExt tc x (ConvertToMaterializable E)).

Definition callConformsToProtocol (T : Ty) (Proto : Identifier) : M X unit :=
  fun tc =>
    Some (tt, withExt tc (conformsToProtocol C T Proto (Ext tc))
                      (ConformsToProtocol T Proto)).

(** [ArchetypeType::getNew]: a new archetype, distinct from every archetype
    allocated before it. *)
Definition archetypeGetNew (name : Identifier) (conformsTo : list Ty)
           (index : option nat) : M X Ty :=
  fun tc =>
    let id := NextArchetype tc in
    Some (TArchetype id name conformsTo index,
          mkTypeChecker (TU tc) (Vars tc) (Ext tc)
                        (Log tc ++ [ArchetypeGetNew id]) (S id)).

End Calls.

(* ===================================================================== *)
(** ** The archetype builder *)
(* ===================================================================== *)

(** Modelled from the spec: [ArchetypeBuilder] (ArchetypeBuilder.h) is not
    part of this file.  Following section 4.3 of the specification, the
    builder keeps, for each registered parameter, the protocols it must
    conform to: those of its declared inherited types and those of every
    Conformance requirement whose subject names it.  [assignArchetypes]
    makes one new archetype per parameter; the map it returns is keyed here
    by the index the parameter was registered under. *)
Module ArchetypeBuilder.

Record PotentialArchetype : Type := mkPotentialArchetype {
  pa_name : Identifier;
  pa_index : nat;
  pa_protocols : list Identifier
}.

Abbreviation t := (list PotentialArchetype).

Definition empty : t := [].

Definition protocolsOf (ty : Ty) : list Identifier :=
  default [] (existentialProtocols ty).

Definition inheritedProtocols (inherited : list TypeLoc) : list Identifier :=
  foldr (fun tl acc => list_union (protocolsOf (tl_type tl)) acc) [] inherited.

(** The subject of a requirement names a parameter. *)
Definition targets (subject : Ty) (name : Identifier) : bool :=
  match subject with
  | TIdentifier n => String.eqb n name
  | _ => false
  end.

Definition addGenericParameter (TypeParam : TypeAliasDecl) (Index : nat)
           (B : t) : t :=
  B ++ [mkPotentialArchetype (getName (tad_base TypeParam)) Index
          (inheritedProtocols (tad_inherited TypeParam))].

Definition addRequirement (Req : Requirement) (B : t) : t :=
  match Req with
  | Conformance subject protocol =>
      map (fun pa =>
             if targets subject (pa_name pa)
             then mkPotentialArchetype (pa_name pa) (pa_index pa)
                    (list_union (pa_protocols pa) (protocolsOf protocol))
             else pa) B
  | SameType _ _ => B
  end.

Fixpoint assignArchetypes {X} (B : t) : M X (list (nat * Ty)) :=
  match B with
  | [] => ret []
  | pa :: rest =>
      A <- archetypeGetNew (pa_name pa) (map TProtocol (pa_protocols pa))
                           (Some (pa_index pa)) ;;
      As <- assignArchetypes rest ;;
      ret ((pa_index pa, A) :: As)
  end.

End ArchetypeBuilder.

(* ===================================================================== *)
(** ** [DeclChecker]: helper functions *)
(* ===================================================================== *)

Section Helpers.

Context {X : Type} (C : Collaborators X) (IsFirstPass IsSecondPass : bool).

Definition checkInheritedOne (tl : TypeLoc) : M X TypeLoc :=
  r <- callValidateType C tl IsFirstPass ;;
  let '(failed, tl) := r in
  if failed then ret (setInvalidType tl)
  else if negb (isExistentialType (tl_type tl))
          && negb (isErrorType (tl_type tl))
  then diagnose (nonprotocol_inherit (tl_type tl)) ;; ret tl
  else ret tl.

(** [checkInherited(D, Inherited)]. *)
Definition checkInherited (Inherited : list TypeLoc) : M X (list TypeLoc) :=
  forEach checkInheritedOne Inherited.

(** [checkExplicitConformance(D, T, Inherited)]. *)
Definition checkExplicitConformance (T : Ty) (Inherited : list TypeLoc)
  : M X unit :=
  forEach_
    (fun InheritedTy =>
       match existentialProtocols (tl_type InheritedTy) with
       | Some InheritedProtos =>
           forEach_ (callConformsToProtocol C T) InheritedProtos
       | None => ret tt
       end)
    Inherited.

(** First loop of [checkGenericParams]: check each parameter's inherited
    types and register it with the builder under the next index. *)
Fixpoint addGenericParameters (Index : nat) (params : list TypeAliasDecl)
         (Builder : ArchetypeBuilder.t)
  : M X (list TypeAliasDecl * ArchetypeBuilder.t) :=
  match params with
  | [] => ret ([], Builder)
  | TypeParam :: rest =>
      inh <- checkInherited (tad_inherited TypeParam) ;;
      let TypeParam := setTadInherited inh TypeParam in
      emit (AddGenericParameter (getName (tad_base TypeParam)) Index) ;;
      r <- addGenericParameters (S Index) rest
             (ArchetypeBuilder.addGenericParameter TypeParam Index Builder) ;;
      ret (TypeParam :: fst r, snd r)
  end.

(** Body of the second loop (lines 95-120).  The temporary [TypeLoc] is
    dropped; the requirement keeps its own operand unless it is overridden. *)
Definition addRequirement1 (Req : Requirement) (Builder : ArchetypeBuilder.t)
  : M X (Requirement * ArchetypeBuilder.t) :=
  match Req with
  | Conformance subject protocol =>
      r <- callValidateType C (mkTypeLoc protocol) IsFirstPass ;;
      if fst r then ret (Conformance subject TError, Builder)
      else if negb (isExistentialType protocol) then
        diagnose (requires_conformance_nonprotocol subject protocol) ;;
        ret (Conformance subject TError, Builder)
      else
        emit (AddRequirement Req) ;;
        ret (Req, ArchetypeBuilder.addRequirement Req Builder)
  | SameType _ _ =>
      emit (AddRequirement Req) ;;
      ret (Req, ArchetypeBuilder.addRequirement Req Builder)
  end.

(** Body of the last loop (lines 130-160). *)
Definition addRequirement2 (Req : Requirement) (Builder : ArchetypeBuilder.t)
  : M X (Requirement * ArchetypeBuilder.t) :=
  match Req with
  | Conformance subject protocol =>
      r <- callValidateType C (mkTypeLoc subject) IsFirstPass ;;
      if fst r then ret (Conformance TError protocol, Builder)
      else
        emit (AddRequirement Req) ;;
        ret (Req, ArchetypeBuilder.addRequirement Req Builder)
  | SameType first second =>
      r <- callValidateType C (mkTypeLoc first) IsFirstPass ;;
      if fst r then ret (SameType TError second, Builder)
      else
        r <- callValidateType C (mkTypeLoc second) IsFirstPass ;;
        if fst r then ret (SameType first TError, Builder)
        else
          emit (AddRequirement Req) ;;
          ret (Req, ArchetypeBuilder.addRequirement Req Builder)
  end.

Fixpoint scanRequirements
         (body : Requirement -> ArchetypeBuilder.t ->
                 M X (Requirement * ArchetypeBuilder.t))
         (reqs : list Requirement) (Builder : ArchetypeBuilder.t)
  : M X (list Requirement * ArchetypeBuilder.t) :=
  match reqs with
  | [] => ret ([], Builder)
  | Req :: rest =>
      r <- body Req Builder ;;
      r' <- scanRequirements body rest (snd r) ;;
      ret (fst r :: fst r', snd r')
  end.

(** [for (auto Arch : Archetypes) Arch.first->getUnderlyingTypeLoc() =
    TypeLoc(Arch.second)]. *)
Definition wireArchetypes (Archetypes : list (nat * Ty))
           (params : list TypeAliasDecl) : list TypeAliasDecl :=
  foldl (fun ps Arch =>
           alter (setUnderlying (mkTypeLoc (snd Arch))) (fst Arch) ps)
        params Archetypes.

(** [checkGenericParams(GenericParams)]. *)
Definition checkGenericParams (GenericParams : option GenericParamList)
  : M X (option GenericParamList) :=
  match GenericParams with
  | None => ret None
  | Some gp =>
      r <- addGenericParameters 0%nat (gp_params gp) ArchetypeBuilder.empty ;;
      let '(params, Builder) := r in
      r <- scanRequirements addRequirement1 (gp_requirements gp) Builder ;;
      let '(reqs, Builder) := r in
      emit AssignArchetypes ;;
      Archetypes <- ArchetypeBuilder.assignArchetypes Builder ;;
      let params := wireArchetypes Archetypes params in
      r <- scanRequirements addRequirement2 reqs Builder ;;
      ret (Some (mkGenericParamList params (fst r)))
  end.

End Helpers.

(* ===================================================================== *)
(** ** [DeclChecker]: visit methods *)
(* ===================================================================== *)

Section Visitor.

Context {X : Type} (C : Collaborators X) (IsFirstPass IsSecondPass : bool).

Definition lookupVar (v : VarId) : M X VarDecl :=
  fun tc => match Vars tc !! v with
            | Some V => Some (V, tc)
            | None => None
            end.

Definition storeVar (v : VarId) (V : VarDecl) : M X unit :=
  tc <- getTC ;; setVars (<[v := V]> (Vars tc)).

Definition setInit (Init : Expr) (PBD : PatternBindingDecl)
  : PatternBindingDecl :=
  mkPatternBindingDecl (pbd_context PBD) (pbd_pattern PBD) (Some Init).

Definition setPattern (P : Pattern) (PBD : PatternBindingDecl)
  : PatternBindingDecl :=
  mkPatternBindingDecl (pbd_context PBD) P (pbd_init PBD).

Fixpoint visitBoundVars (P : Pattern) : M X unit :=
  match P with
  | TuplePattern fields _ => forEach_ visitBoundVars fields
  | ParenPattern sub _ => visitBoundVars sub
  | TypedPattern sub _ _ => visitBoundVars sub
  | NamedPattern decl _ =>
      V <- lookupVar decl ;;
      let VD := var_base V in
      VD <- (if negb (isMaterializable (getType VD)) then
               diagnose (var_type_not_materializable (getType VD)) ;;
               let VD := setType TError VD in
               storeVar decl (mkVarDecl VD (isProperty V)) ;;
               ret VD
             else ret VD) ;;
      VD <- validateAttributes false VD ;;
      storeVar decl (mkVarDecl VD (isProperty V))
  | AnyPattern _ => ret tt
  end.

(** [TC.TU.Kind != TranslationUnit::Library &&
    PBD->getDeclContext()->isModuleContext()]. *)
Definition DelayCheckingPattern (tu : TranslationUnit)
           (PBD : PatternBindingDecl) : bool :=
  negb (isLibrary (tu_kind tu)) && isModuleContext (pbd_context PBD).

(** Lines 207-220: the second pass over a binding that was not delayed. *)
Definition recheckInit (PBD : PatternBindingDecl) : M X PatternBindingDecl :=
  match pbd_init PBD with
  | Some Init =>
      if patternHasType (pbd_pattern PBD) then
        let DestTy := patternType (pbd_pattern PBD) in
        r <- callTypeCheckExpression C Init DestTy ;;
        if fst r then
          (if negb (isNull DestTy)
           then diagnose (while_converting_var_init DestTy)
           else ret tt) ;;
          ret PBD
        else ret (setInit (snd r) PBD)
      else ret PBD
  | None => ret PBD
  end.

(** Lines 221-244: the binding has an initializer and this is not the first
    pass.  The flag in the result says whether the source reaches
    [visitBoundVars] (false: one of the [return]s was taken). *)
Definition checkInitialized (PBD : PatternBindingDecl) (Init : Expr)
  : M X (bool * PatternBindingDecl) :=
  r <- (if isTypedPattern (pbd_pattern PBD) then
          r <- callTypeCheckPattern C (pbd_pattern PBD) false ;;
          if fst r then ret (false, setPattern (snd r) PBD, TNull)
          else ret (true, setPattern (snd r) PBD, patternType (snd r))
        else ret (true, PBD, TNull)) ;;
  let '(go, PBD, DestTy) := r in
  if negb go then ret (false, PBD)
  else
    r <- callTypeCheckExpression C Init DestTy ;;
    let '(failed, Init) := r in
    if failed then
      (if negb (isNull DestTy)
       then diagnose (while_converting_var_init DestTy)
       else ret tt) ;;
      ret (false, PBD)
    else
      Init <- (if isNull DestTy then
                 newInit <- callConvertToMaterializable C Init ;;
                 ret (default Init newInit)
               else ret Init) ;;
      let PBD := setInit Init PBD in
      if isNull DestTy then
        r <- callCoerceToType C (pbd_pattern PBD) (expr_type Init) false ;;
        ret (negb (fst r), setPattern (snd r) PBD)
      else ret (true, PBD).

(** Lines 245-248: check the pattern alone, unless this is the first pass
    over a delayed binding. *)
Definition checkPatternOnly (Delay : bool) (PBD : PatternBindingDecl)
  : M X (bool * PatternBindingDecl) :=
  if negb IsFirstPass || negb Delay then
    r <- callTypeCheckPattern C (pbd_pattern PBD) IsFirstPass ;;
    ret (negb (fst r), setPattern (snd r) PBD)
  else ret (true, PBD).

Definition visitPatternBindingDecl (PBD : PatternBindingDecl)
  : M X PatternBindingDecl :=
  tc <- getTC ;;
  let Delay := DelayCheckingPattern (TU tc) PBD in
  if IsSecondPass && negb Delay then recheckInit PBD
  else
    r <- match pbd_init PBD with
         | Some Init =>
             if negb IsFirstPass then checkInitialized PBD Init
             else checkPatternOnly Delay PBD
         | None => checkPatternOnly Delay PBD
         end ;;
    let '(go, PBD) := r in
    if go then visitBoundVars (pbd_pattern PBD) ;; ret PBD
    else ret PBD.

Definition visitSubscriptDecl (SD : SubscriptDecl) : M X SubscriptDecl :=
  if IsSecondPass then ret SD
  else
    (if negb (isTypeContext (getDeclContext (sub_base SD)))
     then diagnose subscript_not_member else ret tt) ;;
    r <- callValidateType C (sub_elementTy SD) IsFirstPass ;;
    let ElementTy := snd r in
    r <- callTypeCheckPattern C (sub_indices SD) IsFirstPass ;;
    let '(failed, Indices) := r in
    if negb failed then
      ret (mkSubscriptDecl
             (setType (TFunction (patternType Indices) (tl_type ElementTy))
                      (sub_base SD))
             ElementTy Indices)
    else ret (mkSubscriptDecl (sub_base SD) ElementTy Indices).

Definition visitTypeAliasDecl (TAD : TypeAliasDecl) : M X TypeAliasDecl :=
  TAD <- (if negb IsSecondPass then
            r <- callValidateType C (tad_underlying TAD) IsFirstPass ;;
            let TAD := setUnderlying (snd r) TAD in
            if negb (isProtocolContext (getDeclContext (tad_base TAD))) then
              inh <- checkInherited C IsFirstPass (tad_inherited TAD) ;;
              ret (setTadInherited inh TAD)
            else ret TAD
          else ret TAD) ;;
  (if negb IsFirstPass
   then checkExplicitConformance C (tad_declaredType TAD) (tad_inherited TAD)
   else ret tt) ;;
  ret TAD.

Definition setNtdInherited (inh : list TypeLoc) (N : NominalTypeDecl)
  : NominalTypeDecl :=
  mkNominalTypeDecl (ntd_base N) inh (ntd_genericParams N)
                    (ntd_declaredType N) (ntd_declaredTypeInContext N).

Definition setNtdGenericParams (gp : option GenericParamList)
           (N : NominalTypeDecl) : NominalTypeDecl :=
  mkNominalTypeDecl (ntd_base N) (ntd_inherited N) gp
                    (ntd_declaredType N) (ntd_declaredTypeInContext N).

(** What oneof, struct and class declarations do before their members are
    visited. *)
Definition checkNominalHeader (N : NominalTypeDecl) : M X NominalTypeDecl :=
  if negb IsSecondPass then
    inh <- checkInherited C IsFirstPass (ntd_inherited N) ;;
    gp <- checkGenericParams C IsFirstPass (ntd_genericParams N) ;;
    ret (setNtdGenericParams gp (setNtdInherited inh N))
  else ret N.

(** And after. *)
Definition checkNominalConformance (N : NominalTypeDecl) : M X unit :=
  if negb IsFirstPass
  then checkExplicitConformance C (ntd_declaredType N) (ntd_inherited N)
  else ret tt.

(** The tuple elements of the implied constructor of a struct (lines
    307-312). *)
Fixpoint collectTupleElts (vars : gmap nat VarDecl) (members : list Decl)
  : option (list TupleTypeElt) :=
  match members with
  | [] => Some []
  | DVar v :: rest =>
      VarD ← vars !! v;
      TupleElts ← collectTupleElts vars rest;
      Some (if negb (isProperty VarD)
            then mkTupleTypeElt (getType (var_base VarD))
                                (getName (var_base VarD)) false :: TupleElts
            else TupleElts)
  | _ :: rest => collectTupleElts vars rest
  end.

(** Lines 304-319. *)
Definition impliedConstructor (SD : NominalTypeDecl) (members : list Decl)
  : M X (list Decl) :=
  tc <- getTC ;;
  match collectTupleElts (Vars tc) members with
  | None => abort
  | Some TupleElts =>
      let TT := TTuple TupleElts in
      let CreateTy := TFunction TT (ntd_declaredTypeInContext SD) in
      match last members with
      | Some (DOneOfElement ElementCtor) =>
          ret (<[pred (length members) :=
                   DOneOfElement
                     (mkOneOfElementDecl
                        (setType CreateTy (ooe_base ElementCtor))
                        (mkTypeLoc TT))]> members)
      | _ => abort
      end
  end.

(** The first loop of [visitProtocolDecl], for one member. *)
Definition assignAssociatedArchetype (Member : Decl) : M X Decl :=
  match Member with
  | DTypeAlias AssocType =>
      inh <- checkInherited C IsFirstPass (tad_inherited AssocType) ;;
      let AssocType := setTadInherited inh AssocType in
      let Index :=
        if String.eqb (getName (tad_base AssocType)) "This"
        then Some 0%nat else None in
      let InheritedTypes := map tl_type (tad_inherited AssocType) in
      UnderlyingTy <- archetypeGetNew (getName (tad_base AssocType))
                                      InheritedTypes Index ;;
      ret (DTypeAlias (setUnderlying (mkTypeLoc UnderlyingTy) AssocType))
  | _ => ret Member
  end.

(** Lines 387-396.  When the pattern already has a type the source only
    asserts that it is [thisType]. *)
Definition setThisPattern (thisType : Ty) (body : FuncExpr) : M X FuncExpr :=
  match getParamPatterns body with
  | TypedPattern sub ann ty :: rest =>
      if negb (isNull ty) then ret body
      else ret (mkFuncExpr (TypedPattern sub ann thisType :: rest)
                           (fe_type body))
  | _ => abort
  end.

Definition visitFuncDecl (FD : FuncDecl) : M X FuncDecl :=
  if IsSecondPass then ret FD
  else
    let body := fd_body FD in
    body <- (if negb (isNull (fd_thisType FD))
             then setThisPattern (fd_thisType FD) body
             else ret body) ;;
    gp <- checkGenericParams C IsFirstPass (fd_genericParams FD) ;;
    body <- callSemaFuncExpr C body IsFirstPass ;;
    let base := setType (fe_type body) (fd_base FD) in
    base <- validateAttributes true base ;;
    ret (mkFuncDecl base body gp (fd_thisType FD)).

Definition visitOneOfElementDecl (ED : OneOfElementDecl)
  : M X OneOfElementDecl :=
  if IsSecondPass then ret ED
  else
    match asOneOfContext (getDeclContext (ooe_base ED)) with
    | None => ret ED
    | Some ElemTy =>
        if isNull (tl_type (ooe_argumentTy ED)) then
          ret (mkOneOfElementDecl (setType ElemTy (ooe_base ED))
                                  (ooe_argumentTy ED))
        else
          r <- callValidateType C (ooe_argumentTy ED) IsFirstPass ;;
          let '(failed, ArgumentTy) := r in
          if failed then ret (mkOneOfElementDecl (ooe_base ED) ArgumentTy)
          else
            let ED :=
              mkOneOfElementDecl
                (setType (TFunction (tl_type ArgumentTy) ElemTy) (ooe_base ED))
                ArgumentTy in
            (if negb (isMaterializable (tl_type ArgumentTy))
             then diagnose oneof_element_not_materializable
             else ret tt) ;;
            ret ED
    end.

Definition isNominalOrError (t : Ty) : bool :=
  match t with
  | TOneOf _ | TStruct _ | TClass _ | TError | TUnboundGeneric _ => true
  | _ => false
  end.

Definition isProtocolType (t : Ty) : bool :=
  match t with TProtocol _ => true | _ => false end.

Definition checkExtensionHeader (ED : ExtensionDecl) : M X ExtensionDecl :=
  if negb IsSecondPass then
    r <- callValidateType C (ext_extendedTy ED) IsFirstPass ;;
    let ExtendedTy := tl_type (snd r) in
    (if negb (isNominalOrError ExtendedTy)
     then diagnose (non_nominal_extension (isProtocolType ExtendedTy)
                                          ExtendedTy)
     else ret tt) ;;
    inh <- checkInherited C IsFirstPass (ext_inherited ED) ;;
    ret (mkExtensionDecl (ext_context ED) (snd r) inh)
  else ret ED.

Definition visitConstructorDecl (CD : ConstructorDecl) : M X ConstructorDecl :=
  if IsSecondPass then ret CD
  else
    (if negb (isTypeContext (getDeclContext (ctor_base CD)))
     then diagnose constructor_not_member else ret tt) ;;
    gp <- checkGenericParams C IsFirstPass (ctor_genericParams CD) ;;
    let ThisTy := ctor_thisType CD in
    let this := setType ThisTy (ctor_implicitThis CD) in
    r <- callTypeCheckPattern C (ctor_arguments CD) IsFirstPass ;;
    let '(failed, Arguments) := r in
    let base :=
      if failed then setType TError (ctor_base CD)
      else
        let FnTy :=
          match gp with
          | Some params =>
              TPolymorphicFunction (patternType Arguments) ThisTy
                                   (paramNames params)
          | None => TFunction (patternType Arguments) ThisTy
          end in
        setType FnTy (ctor_base CD) in
    base <- validateAttributes false base ;;
    ret (mkConstructorDecl base gp Arguments this ThisTy).

Definition visitDestructorDecl (DD : DestructorDecl) : M X DestructorDecl :=
  if IsSecondPass then ret DD
  else
    (if negb (isClassContext (getDeclContext (dtor_base DD)))
     then diagnose destructor_not_member else ret tt) ;;
    let ThisTy := dtor_thisType DD in
    let FnTy := TFunction (dtor_thisType DD) emptyTuple in
    let base := setType FnTy (dtor_base DD) in
    let this := setType ThisTy (dtor_implicitThis DD) in
    base <- validateAttributes false base ;;
    ret (mkDestructorDecl base this ThisTy).

(** The visitor, one layer deep: [visit] is what [visit(Member)] does. *)
Definition visitDecl (visit : Decl -> M X Decl) (D : Decl) : M X Decl :=
  match D with
  | DImport _ => ret D
  | DPatternBinding PBD =>
      PBD <- visitPatternBindingDecl PBD ;; ret (DPatternBinding PBD)
  | DVar _ => ret D
  | DFunc FD => FD <- visitFuncDecl FD ;; ret (DFunc FD)
  | DConstructor CD => CD <- visitConstructorDecl CD ;; ret (DConstructor CD)
  | DDestructor DD => DD <- visitDestructorDecl DD ;; ret (DDestructor DD)
  | DSubscript SD => SD <- visitSubscriptDecl SD ;; ret (DSubscript SD)
  | DTypeAlias TAD => TAD <- visitTypeAliasDecl TAD ;; ret (DTypeAlias TAD)
  | DOneOf OOD members =>
      OOD <- checkNominalHeader OOD ;;
      members <- forEach visit members ;;
      checkNominalConformance OOD ;;
      ret (DOneOf OOD members)
  | DOneOfElement ED =>
      ED <- visitOneOfElementDecl ED ;; ret (DOneOfElement ED)
  | DStruct SD members =>
      SD <- checkNominalHeader SD ;;
      members <- forEach visit members ;;
      members <- (if negb IsSecondPass then impliedConstructor SD members
                  else ret members) ;;
      checkNominalConformance SD ;;
      ret (DStruct SD members)
  | DClass CD members =>
      CD <- checkNominalHeader CD ;;
      members <- forEach visit members ;;
      checkNominalConformance CD ;;
      ret (DClass CD members)
  | DProtocol PD members =>
      if IsSecondPass then ret D
      else
        inh <- checkInherited C IsFirstPass (ntd_inherited PD) ;;
        members <- forEach assignAssociatedArchetype members ;;
        members <- forEach visit members ;;
        ret (DProtocol (setNtdInherited inh PD) members)
  | DExtension ED members =>
      ED <- checkExtensionHeader ED ;;
      members <- forEach visit members ;;
      (if negb IsFirstPass
       then checkExplicitConformance C (tl_type (ext_extendedTy ED))
                                     (ext_inherited ED)
       else ret tt) ;;
      ret (DExtension ED members)
  | DTopLevelCode _ => abort
  end.

(** How deep declarations nest inside [D]. *)
Fixpoint depth (D : Decl) : nat :=
  match D with
  | DOneOf _ ms | DStruct _ ms | DClass _ ms | DProtocol _ ms
  | DExtension _ ms =>
      S ((fix deepest (l : list Decl) : nat :=
            match l with
            | [] => O
            | m :: l' => Nat.max (depth m) (deepest l')
            end) ms)
  | _ => O
  end.

Fixpoint visitN (n : nat) (D : Decl) : M X Decl :=
  match n with
  | O => abort
  | S n' => visitDecl (visitN n') D
  end.

(** [visit(D)]: the recursion of the visitor goes through member lists only,
    so it is never deeper than the declaration nests. *)
Definition visit (D : Decl) : M X Decl := visitN (S (depth D)) D.

End Visitor.

(** [D->getDeclContext()]. *)
Definition declContext (vars : gmap nat VarDecl) (D : Decl)
  : option DeclContext :=
  match D with
  | DImport dc | DTopLevelCode dc => Some dc
  | DPatternBinding PBD => Some (pbd_context PBD)
  | DExtension ED _ => Some (ext_context ED)
  | _ => getDeclContext <$> asValueDecl vars D
  end.

(** [TypeChecker::typeCheckDecl(D, isFirstPass)]. *)
Definition typeCheckDecl {X} (C : Collaborators X) (D : Decl)
           (isFirstPass : bool) : M X Decl :=
  tc <- getTC ;;
  match declContext (Vars tc) D with
  | None => abort
  | Some dc =>
      let isSecondPass := negb isFirstPass && isModuleContext dc in
      visit C isFirstPass isSecondPass D
  end.

(* ===================================================================== *)
(** ** A small type checker to run the visitor against *)
(* ===================================================================== *)

(** Collaborators simple enough to evaluate: the resolver rejects the one
    name [Missing] and accepts every other type as it stands; the pattern
    checker types annotated names, wildcards and tuples of them; the
    expression checker rejects expressions of error type.  The state of the
    collaborators counts the calls made on them. *)
Module Sample.

Definition isMissing (t : Ty) : bool :=
  match t with
  | TIdentifier n => String.eqb n "Missing"
  | _ => false
  end.

Definition validateType (tl : TypeLoc) (_ : bool) (n : nat)
  : bool * TypeLoc * nat :=
  if isMissing (tl_type tl) then (true, mkTypeLoc TError, S n)
  else (false, tl, S n).

Definition setVarType (t : Ty) (V : VarDecl) : VarDecl :=
  mkVarDecl (setType t (var_base V)) (isProperty V).

Fixpoint checkPattern (P : Pattern) (vars : gmap nat VarDecl)
  : option (Pattern * gmap nat VarDecl) :=
  match P with
  | TypedPattern (NamedPattern v _) ann _ =>
      if isMissing (tl_type ann) then None
      else Some (TypedPattern (NamedPattern v (tl_type ann)) ann (tl_type ann),
                 alter (setVarType (tl_type ann)) v vars)
  | TypedPattern (AnyPattern _) ann _ =>
      if isMissing (tl_type ann) then None
      else Some (TypedPattern (AnyPattern (tl_type ann)) ann (tl_type ann),
                 vars)
  | TuplePattern fields _ =>
      r ← (fix all (l : list Pattern) (vars : gmap nat VarDecl)
             : option (list Pattern * gmap nat VarDecl) :=
             match l with
             | [] => Some ([], vars)
             | f :: l' =>
                 r ← checkPattern f vars;
                 r' ← all l' r.2;
                 Some (r.1 :: r'.1, r'.2)
             end) fields vars;
      Some (TuplePattern r.1
              (TTuple (map (fun f => mkTupleTypeElt (patternType f) "" false)
                           r.1)),
            r.2)
  | ParenPattern sub _ =>
      r ← checkPattern sub vars;
      Some (ParenPattern r.1 (patternType r.1), r.2)
  | _ => None
  end.

Definition typeCheckPattern (P : Pattern) (_ : bool)
           (vars : gmap nat VarDecl) (n : nat)
  : bool * Pattern * gmap nat VarDecl * nat :=
  match checkPattern P vars with
  | Some (P', vars') => (false, P', vars', S n)
  | None => (true, P, vars, S n)
  end.

Definition typeCheckExpression (E : Expr) (DestTy : Ty) (n : nat)
  : bool * Expr * nat :=
  if isErrorType (expr_type E) then (true, E, S n)
  else if isNull DestTy then (false, E, S n)
  else (false, mkExpr (expr_id E) DestTy, S n).

Definition semaFuncExpr (body : FuncExpr) (_ : bool)
           (vars : gmap nat VarDecl) (n : nat)
  : FuncExpr * gmap nat VarDecl * nat :=
  (body, vars, S n).

Fixpoint coercePattern (P : Pattern) (t : Ty) (vars : gmap nat VarDecl)
  : Pattern * gmap nat VarDecl :=
  match P with
  | NamedPattern v _ => (NamedPattern v t, alter (setVarType t) v vars)
  | ParenPattern sub _ =>
      let r := coercePattern sub t vars in (ParenPattern r.1 t, r.2)
  | _ => (patternSetType t P, vars)
  end.

Definition coerceToType (P : Pattern) (t : Ty) (_ : bool)
           (vars : gmap nat VarDecl) (n : nat)
  : bool * Pattern * gmap nat VarDecl * nat :=
  let r := coercePattern P t vars in (false, r.1, r.2, S n).

Definition convertToMaterializable (E : Expr) (n : nat) : option Expr * nat :=
  match expr_type E with
  | TLValue t => (Some (mkExpr (expr_id E) t), S n)
  | _ => (None, S n)
  end.

Definition conformsToProtocol (_ : Ty) (_ : Identifier) (n : nat) : nat := S n.

Definition collaborators : Collaborators nat :=
  @mkCollaborators nat validateType typeCheckPattern typeCheckExpression
                  semaFuncExpr coerceToType convertToMaterializable
                  conformsToProtocol.

Definition translationUnit (k : TUKind) (decls : list Decl)
           (imports : list (option Module)) : TranslationUnit :=
  mkTranslationUnit k decls imports.

(** A type checker that has done nothing yet. *)
Definition start (tu : TranslationUnit) (vars : gmap nat VarDecl)
  : TypeChecker nat :=
  mkTypeChecker tu vars 0%nat [] 0%nat.

Definition emptyLibrary : TranslationUnit := translationUnit TU_Library [] [].

Definition valueDecl (name : Identifier) (t : Ty) (a : DeclAttributes)
           (dc : DeclContext) (op : bool) : ValueDecl :=
  mkValueDecl name t a dc op false.

End Sample.

(* ===================================================================== *)
(** * Vocabulary of the properties *)
(* ===================================================================== *)

Section Judgements.

Context {X : Type}.
Implicit Types (tc : TypeChecker X) (P : Event -> Prop).

(** [m] relates the type checker it starts from to the one it leaves. *)
Definition preserves (R : relation (TypeChecker X)) {A} (m : M X A) : Prop :=
  forall tc a tc', m tc = Some (a, tc') -> R tc tc'.

(** The log grows by events that satisfy [P]. *)
Definition logged P : relation (TypeChecker X) :=
  fun tc tc' => exists evs, Log tc' = Log tc ++ evs /\ Forall P evs.

(** Nothing but the log changes, and the log grows by events that satisfy
    [P]. *)
Definition appendLog tc (evs : list Event) : TypeChecker X :=
  mkTypeChecker (TU tc) (Vars tc) (Ext tc) (Log tc ++ evs) (NextArchetype tc).

Definition onlyLogged P : relation (TypeChecker X) :=
  fun tc tc' => exists evs, tc' = appendLog tc evs /\ Forall P evs.

(** The variable declarations are left as they are. *)
Definition sameVars : relation (TypeChecker X) :=
  fun tc tc' => Vars tc' = Vars tc.

(** Archetype identities are only ever handed out, never taken back. *)
Definition archetypesGrow : relation (TypeChecker X) :=
  fun tc tc' => (NextArchetype tc <= NextArchetype tc')%nat.

(** [m] never stops on a failed cast. *)
Definition total {A} (m : M X A) : Prop :=
  forall tc, exists a tc', m tc = Some (a, tc').

(** Every result of [m] satisfies [Q]. *)
Definition yields {A} (Q : A -> Prop) (m : M X A) : Prop :=
  forall tc a tc', m tc = Some (a, tc') -> Q a.

End Judgements.

Arguments preserves X R {A} m.
Arguments total X {A} m.
Arguments yields X {A} Q m.

(** ** Attribute validation *)

(** The diagnostics of [validateAttributes]. *)
Definition isAttributeDiag (d : Diag) : Prop :=
  match d with
  | operator_not_func | invalid_arg_count_for_operator
  | custom_operator_addressof | infix_not_an_operator
  | invalid_infix_left_input | postfix_not_an_operator
  | invalid_postfix_input | invalid_decl_attribute _
  | assignment_without_byref | assignment_nonvoid _
  | conversion_not_instance_method _ | conversion_params _
  | binops_infix_left => True
  | _ => False
  end.

Definition attributeEvent (e : Event) : Prop :=
  match e with
  | Diagnose d => isAttributeDiag d
  | LookupValue _ => True
  | _ => False
  end.

(** The diagnostics that are reached only with a known argument count (none,
    one, or more than two) or through the parts of a function type. *)
Definition isArityDiag (d : Diag) : Prop :=
  match d with
  | invalid_arg_count_for_operator | custom_operator_addressof
  | assignment_nonvoid _ | conversion_params _ => True
  | _ => False
  end.

Definition nonArityEvent (e : Event) : Prop :=
  match e with
  | Diagnose d => isAttributeDiag d /\ ~ isArityDiag d
  | LookupValue _ => True
  | _ => False
  end.

(** What one rule of [validateAttributes] does to a declaration whose type
    is [ErrorType]: it completes, logs nothing that depends on an argument
    count, keeps the type, and does nothing to a declaration that is not an
    operator and carries no attribute. *)
Definition errorTypeRule {X} (rule : ValueDecl -> M X ValueDecl) : Prop :=
  forall VD tc,
    getType VD = TError ->
    exists VD' evs,
      rule VD tc = Some (VD', appendLog tc evs) /\
      getType VD' = TError /\
      isOperator VD' = isOperator VD /\
      Forall nonArityEvent evs /\
      (isOperator VD = false -> getAttrs VD = noAttrs ->
       evs = [] /\ VD' = VD).

(** No attribute that is a flag is set in [a'] unless it is in [a]. *)
Definition attributesCleared (a a' : DeclAttributes) : Prop :=
  (Postfix a' = true -> Postfix a = true) /\
  (Assignment a' = true -> Assignment a = true) /\
  (Conversion a' = true -> Conversion a = true) /\
  (Byref a' = true -> Byref a = true) /\
  (AutoClosure a' = true -> AutoClosure a = true).

(** [Infix] is kept, or the declaration is one that may inherit it: an
    operator without it, of other than one argument, declared in the
    translation unit. *)
Definition infixKeptOrInherited (NumArguments : Z) (VD VD' : ValueDecl)
  : Prop :=
  Infix (getAttrs VD') = Infix (getAttrs VD) \/
  (isInfix (getAttrs VD) = false /\ isOperator VD = true /\
   NumArguments <> 1 /\ isTranslationUnit (getDeclContext VD) = true).

(** What the rules after the shape checks do to a declaration. *)
Definition attributeStep (NumArguments : Z) (VD VD' : ValueDecl) : Prop :=
  VD' = setAttrs (getAttrs VD') VD /\
  attributesCleared (getAttrs VD) (getAttrs VD') /\
  infixKeptOrInherited NumArguments VD VD'.

(** The diagnostics of the shape checks, each followed by a [return]. *)
Definition isShapeDiag (d : Diag) : Prop :=
  match d with
  | operator_not_func | invalid_arg_count_for_operator
  | custom_operator_addressof | infix_not_an_operator
  | invalid_infix_left_input | postfix_not_an_operator
  | invalid_postfix_input => True
  | _ => False
  end.

(** The type of a method as the conversion rule takes it apart: a function
    from [this] to a function. *)
Definition asBoundMethodType (t : Ty) : option (Ty * Ty) :=
  match asAnyFunctionType t with
  | Some (_, result) => asAnyFunctionType result
  | None => None
  end.

(** The type the assignment rule tests for being an lvalue (lines 604-608):
    the first element of the input tuple, or the input itself when it is not
    a tuple. *)
Definition firstParameterType (t : Ty) : option Ty :=
  match asAnyFunctionType t with
  | Some (input, _) =>
      match asTupleType input with
      | Some (elt :: _) => Some (getEltType elt)
      | Some [] => None
      | None => Some input
      end
  | None => None
  end.

(** Lines 632-644: a tuple whose elements all have a default value. *)
Definition acceptsEmptyParamList (InputTy : Ty) : bool :=
  match asTupleType InputTy with
  | Some fields => forallb hasInit fields
  | None => false
  end.

(** One lookup per imported module that is there. *)
Definition moduleLookups (name : Identifier) (mods : list (option Module))
  : list Event :=
  map (fun _ : Module => LookupValue name) (omap id mods).

(** ** Generic parameters *)

(** [tc'] is [tc] after the events [evs]: calls that neither allocate an
    archetype nor write a variable. *)
Definition after {X} (tc : TypeChecker X) (evs : list Event)
           (tc' : TypeChecker X) : Prop :=
  TU tc' = TU tc /\ Vars tc' = Vars tc /\
  NextArchetype tc' = NextArchetype tc /\ Log tc' = Log tc ++ evs.

(** What checking an inheritance clause and registering parameters may
    log. *)
Definition intakeEvent (e : Event) : Prop :=
  match e with
  | ValidateType _ _ _ | Diagnose (nonprotocol_inherit _)
  | AddGenericParameter _ _ => True
  | _ => False
  end.

Definition isArchetypeGetNew (e : Event) : Prop :=
  match e with ArchetypeGetNew _ => True | _ => False end.

(** [Inherited'] is what [checkInherited] made of the inheritance clause
    [Inherited] when it was run on it during the intake of a parameter
    list that started at [tc]. *)
Definition clauseCheckedDuring {X} (C : Collaborators X) (isFirstPass : bool)
           (tc : TypeChecker X) (Inherited Inherited' : list TypeLoc) : Prop :=
  exists before tc1 tc2,
    after tc before tc1 /\ Forall intakeEvent before /\
    checkInherited C isFirstPass Inherited tc1 = Some (Inherited', tc2).

(** The first requirements scan on one requirement, in the words of the
    specification: the events it logs and the requirement it leaves.  Only
    the protocol operand of a Conformance requirement is validated; an
    operand that fails, or that is not a protocol, is replaced by
    [ErrorType] and the requirement is not handed to the builder. *)
Inductive FirstScan (isFirstPass : bool)
  : Requirement -> list Event -> Requirement -> Prop :=
| FirstScan_invalid subject protocol :
    FirstScan isFirstPass (Conformance subject protocol)
      [ValidateType protocol isFirstPass true]
      (Conformance subject TError)
| FirstScan_nonprotocol subject protocol :
    isExistentialType protocol = false ->
    FirstScan isFirstPass (Conformance subject protocol)
      [ValidateType protocol isFirstPass false;
       Diagnose (requires_conformance_nonprotocol subject protocol)]
      (Conformance subject TError)
| FirstScan_protocol subject protocol :
    isExistentialType protocol = true ->
    FirstScan isFirstPass (Conformance subject protocol)
      [ValidateType protocol isFirstPass false;
       AddRequirement (Conformance subject protocol)]
      (Conformance subject protocol)
| FirstScan_deferred first second :
    FirstScan isFirstPass (SameType first second)
      [AddRequirement (SameType first second)]
      (SameType first second).

(** The second scan on one requirement: the subject of a Conformance
    requirement, and the sides of a SameType requirement, the second side
    only once the first has passed. *)
Inductive SecondScan (isFirstPass : bool)
  : Requirement -> list Event -> Requirement -> Prop :=
| SecondScan_subject_invalid subject protocol :
    SecondScan isFirstPass (Conformance subject protocol)
      [ValidateType subject isFirstPass true]
      (Conformance TError protocol)
| SecondScan_subject subject protocol :
    SecondScan isFirstPass (Conformance subject protocol)
      [ValidateType subject isFirstPass false;
       AddRequirement (Conformance subject protocol)]
      (Conformance subject protocol)
| SecondScan_first_invalid first second :
    SecondScan isFirstPass (SameType first second)
      [ValidateType first isFirstPass true]
      (SameType TError second)
| SecondScan_second_invalid first second :
    SecondScan isFirstPass (SameType first second)
      [ValidateType first isFirstPass false;
       ValidateType second isFirstPass true]
      (SameType first TError)
| SecondScan_same first second :
    SecondScan isFirstPass (SameType first second)
      [ValidateType first isFirstPass false;
       ValidateType second isFirstPass false;
       AddRequirement (SameType first second)]
      (SameType first second).

(** A scan over the requirements clause, one requirement after the other. *)
Inductive Scan (step : Requirement -> list Event -> Requirement -> Prop)
  : list Requirement -> list Event -> list Requirement -> Prop :=
| Scan_nil : Scan step [] [] []
| Scan_cons Req evs Req' reqs evs' reqs' :
    step Req evs Req' -> Scan step reqs evs' reqs' ->
    Scan step (Req :: reqs) (evs ++ evs') (Req' :: reqs').

(** The protocols a requirement asks of the parameter called [name]: the
    subject is read from the requirement as declared, the protocol operand
    from the requirement as checking left it. *)
Definition requirementProtocols (name : Identifier)
           (declared checked : Requirement) : list Identifier :=
  match declared, checked with
  | Conformance subject _, Conformance _ protocol =>
      if ArchetypeBuilder.targets subject name
      then ArchetypeBuilder.protocolsOf protocol
      else []
  | _, _ => []
  end.

Definition requiredProtocols (name : Identifier)
           (declared checked : list Requirement) : list Identifier :=
  concat (zip_with (requirementProtocols name) declared checked).

(** The conformance list of a parameter's archetype, in the words of the
    specification: the protocols of its inherited types, and the protocols
    of the Conformance requirements whose subject is the parameter.  A type
    declares the protocols it is made of when it is existential. *)
Definition declaresProtocol (t : Ty) (q : Identifier) : Prop :=
  exists protocols, existentialProtocols t = Some protocols /\ q ∈ protocols.

Definition inheritsProtocol (p : TypeAliasDecl) (q : Identifier) : Prop :=
  exists tl, tl ∈ tad_inherited p /\ declaresProtocol (tl_type tl) q.

Definition requiresProtocol (name : Identifier)
           (declared checked : list Requirement) (q : Identifier) : Prop :=
  exists j protocol0 subject' protocol,
    declared !! j = Some (Conformance (TIdentifier name) protocol0) /\
    checked !! j = Some (Conformance subject' protocol) /\
    declaresProtocol protocol q.

(** The builder once the parameters [params] are registered, the protocols
    the requirements [reqs] ask of [name], and the archetype map the builder
    [B] yields when identities are handed out from [next] on. *)
Definition registered (params : list TypeAliasDecl) : ArchetypeBuilder.t :=
  imap (fun k p =>
          ArchetypeBuilder.mkPotentialArchetype
            (getName (tad_base p)) k
            (ArchetypeBuilder.inheritedProtocols (tad_inherited p)))
       params.

Definition required (name : Identifier) (reqs : list Requirement)
  : list Identifier :=
  concat (map (fun r => requirementProtocols name r r) reqs).

Definition archetypesOf (next : nat) (B : ArchetypeBuilder.t)
  : list (nat * Ty) :=
  imap (fun k pa =>
          (ArchetypeBuilder.pa_index pa,
           TArchetype (next + k) (ArchetypeBuilder.pa_name pa)
                      (map TProtocol (ArchetypeBuilder.pa_protocols pa))
                      (Some (ArchetypeBuilder.pa_index pa))))
       B.

(** ** The visitor *)

(** The deepest member of a member list. *)
Definition deepest (l : list Decl) : nat :=
  foldr (fun m acc => Nat.max (depth m) acc) O l.

Definition isTypeAlias (D : Decl) : bool :=
  match D with DTypeAlias _ => true | _ => false end.

(** What [checkGenericParams] may log. *)
Definition genericParamEvent (e : Event) : Prop :=
  match e with
  | ValidateType _ _ _ | Diagnose (nonprotocol_inherit _)
  | Diagnose (requires_conformance_nonprotocol _ _)
  | AddGenericParameter _ _ | AddRequirement _ | AssignArchetypes
  | ArchetypeGetNew _ => True
  | _ => False
  end.

(** What [visitBoundVars] may log. *)
Definition boundVarEvent (e : Event) : Prop :=
  match e with
  | Diagnose (var_type_not_materializable _) => True
  | _ => attributeEvent e
  end.

Definition isConstructorNotMember (e : Event) : bool :=
  match e with Diagnose constructor_not_member => true | _ => false end.

Definition isTypeCheckPattern (e : Event) : bool :=
  match e with TypeCheckPattern _ _ _ => true | _ => false end.

(** The fields of the implied constructor of a struct, in the words of the
    specification: the member variables that are not properties, in
    declaration order, each with its type and labeled with its name. *)
Definition nonPropertyField (vars : gmap nat VarDecl) (Member : Decl)
  : option TupleTypeElt :=
  match Member with
  | DVar v =>
      VarD ← vars !! v;
      if isProperty VarD then None
      else Some (mkTupleTypeElt (getType (var_base VarD))
                                (getName (var_base VarD)) false)
  | _ => None
  end.

Definition nonPropertyFields (vars : gmap nat VarDecl) (members : list Decl)
  : list TupleTypeElt :=
  omap (nonPropertyField vars) members.

(** The positional index of the archetype of an associated type. *)
Definition associatedIndex (name : Identifier) : option nat :=
  if String.eqb name "This" then Some 0%nat else None.

(** [Member'] is [Member] after a visit of its protocol during which the
    archetype identities from [lo] up to [hi] were handed out: a type alias
    holds one of them, under its own name. *)
Definition holdsNewArchetype (lo hi : nat) (Member Member' : Decl) : Prop :=
  match Member with
  | DTypeAlias AssocType =>
      exists AssocType' id conformsTo,
        Member' = DTypeAlias AssocType' /\
        tad_base AssocType' = tad_base AssocType /\
        tl_type (tad_underlying AssocType')
        = TArchetype id (getName (tad_base AssocType)) conformsTo
                     (associatedIndex (getName (tad_base AssocType))) /\
        (lo <= id < hi)%nat
  | _ => isTypeAlias Member' = false
  end.

(** [Member'] is [Member] after the first loop of [visitProtocolDecl]: a
    type alias holds an archetype of its own name whose conformances are
    the types of its inheritance clause as that clause now stands. *)
Definition holdsClauseArchetype (Member Member' : Decl) : Prop :=
  match Member with
  | DTypeAlias AssocType =>
      exists AssocType' id,
        Member' = DTypeAlias AssocType' /\
        tad_base AssocType' = tad_base AssocType /\
        length (tad_inherited AssocType') = length (tad_inherited AssocType) /\
        tl_type (tad_underlying AssocType')
        = TArchetype id (getName (tad_base AssocType))
                     (map tl_type (tad_inherited AssocType'))
                     (associatedIndex (getName (tad_base AssocType)))
  | _ => True
  end.

(** ** Pattern bindings *)

(** What the collaborators answer while one binding is checked. *)
Record BindingOutcomes : Type := mkBindingOutcomes {
  patternFailed : bool;          (* typeCheckPattern *)
  checkedPattern : Pattern;      (* the pattern it leaves *)
  initFailed : bool;             (* typeCheckExpression *)
  checkedInit : Expr;            (* the initializer it leaves *)
  convertedInit : option Expr;   (* convertToMaterializable *)
  coerceFailed : bool            (* coerceToType *)
}.

(** The calls for a binding with an initializer, in the words of the
    specification: a typed pattern is type-checked first and gives the
    destination type; then the initializer is type-checked against it;
    when no destination type is known the initializer is converted to
    materializable form and the pattern is coerced to its type. *)
Definition initializerCalls (P : Pattern) (Init : Expr) (o : BindingOutcomes)
  : list Event :=
  let typed := isTypedPattern P in
  (if typed then [TypeCheckPattern P false (patternFailed o)] else []) ++
  (if typed && patternFailed o then []
   else
     let P' := if typed then checkedPattern o else P in
     let DestTy := if typed then patternType P' else TNull in
     TypeCheckExpression Init DestTy (initFailed o) ::
     (if initFailed o then
        if isNull DestTy then []
        else [Diagnose (while_converting_var_init DestTy)]
      else if isNull DestTy then
        [ConvertToMaterializable (checkedInit o);
         CoerceToType P'
           (expr_type (default (checkedInit o) (convertedInit o)))
           false (coerceFailed o)]
      else [])).

(** The calls when only the pattern is checked: none in the first pass
    over a delayed binding. *)
Definition patternCalls (IsFirstPass Delay : bool) (P : Pattern)
           (o : BindingOutcomes) : list Event :=
  if negb IsFirstPass || negb Delay
  then [TypeCheckPattern P IsFirstPass (patternFailed o)]
  else [].

(** The calls for any binding that is not just re-checked in the second
    pass: the initializer is looked at outside the first pass only. *)
Definition bindingCalls (IsFirstPass Delay : bool) (PBD : PatternBindingDecl)
           (o : BindingOutcomes) : list Event :=
  match pbd_init PBD with
  | Some Init =>
      if IsFirstPass then patternCalls true Delay (pbd_pattern PBD) o
      else initializerCalls (pbd_pattern PBD) Init o
  | None => patternCalls IsFirstPass Delay (pbd_pattern PBD) o
  end.

(** ** Inheritance clauses *)

Definition isValidateType (e : Event) : bool :=
  match e with ValidateType _ _ _ => true | _ => false end.

(** The diagnostic an entry of an inheritance clause stands for once it is
    checked: none for a protocol, a composition of protocols or
    [ErrorType]. *)
Definition inheritDiag (tl : TypeLoc) : option Diag :=
  if negb (isExistentialType (tl_type tl)) && negb (isErrorType (tl_type tl))
  then Some (nonprotocol_inherit (tl_type tl))
  else None.

(** One conformance check per protocol an inheritance clause names, in the
    order of the clause. *)
Definition conformanceCalls (T : Ty) (Inherited : list TypeLoc) : list Event :=
  concat (map (fun tl =>
                 map (ConformsToProtocol T)
                     (default [] (existentialProtocols (tl_type tl))))
              Inherited).

(** ** Patterns *)

(** The variables a pattern binds, left to right. *)
Fixpoint boundVars (P : Pattern) : list VarId :=
  match P with
  | ParenPattern sub _ | TypedPattern sub _ _ => boundVars sub
  | TuplePattern fields _ => concat (map boundVars fields)
  | NamedPattern decl _ => [decl]
  | AnyPattern _ => []
  end.

(** The type [visitBoundVars] leaves on a variable of type [t]. *)
Definition materialized (t : Ty) : Ty :=
  if isMaterializable t then t else TError.

(** [V'] is the variable [V] with, at most, another type and other
    attributes. *)
Definition sameVariable (V V' : VarDecl) : Prop :=
  isProperty V' = isProperty V /\
  getName (var_base V') = getName (var_base V) /\
  getDeclContext (var_base V') = getDeclContext (var_base V) /\
  isOperator (var_base V') = isOperator (var_base V) /\
  isInstanceMember (var_base V') = isInstanceMember (var_base V).

(** The store [m'] is [m] after the variables [vs] were visited: each of
    them has its type materialized, every other variable is as it was, and
    no variable has come or gone. *)
Definition visited (vs : list VarId) (m m' : gmap nat VarDecl) : Prop :=
  forall v,
    match m !! v with
    | Some V =>
        exists V',
          m' !! v = Some V' /\ sameVariable V V' /\
          (v ∈ vs ->
           getType (var_base V') = materialized (getType (var_base V))) /\
          (v ∉ vs -> V' = V)
    | None => m' !! v = None
    end.

(** ** Shape of a declaration *)

Inductive DeclKind :=
| K_Import | K_PatternBinding | K_Var | K_Func | K_Constructor | K_Destructor
| K_Subscript | K_TypeAlias | K_OneOf | K_OneOfElement | K_Struct | K_Class
| K_Protocol | K_Extension | K_TopLevelCode.

Definition getKind (D : Decl) : DeclKind :=
  match D with
  | DImport _ => K_Import
  | DPatternBinding _ => K_PatternBinding
  | DVar _ => K_Var
  | DFunc _ => K_Func
  | DConstructor _ => K_Constructor
  | DDestructor _ => K_Destructor
  | DSubscript _ => K_Subscript
  | DTypeAlias _ => K_TypeAlias
  | DOneOf _ _ => K_OneOf
  | DOneOfElement _ => K_OneOfElement
  | DStruct _ _ => K_Struct
  | DClass _ _ => K_Class
  | DProtocol _ _ => K_Protocol
  | DExtension _ _ => K_Extension
  | DTopLevelCode _ => K_TopLevelCode
  end.

Definition getMembers (D : Decl) : list Decl :=
  match D with
  | DOneOf _ ms | DStruct _ ms | DClass _ ms | DProtocol _ ms
  | DExtension _ ms => ms
  | _ => []
  end.

(** ** Requirements handed to the builder *)

Definition addedRequirements (evs : list Event) : list Requirement :=
  omap (fun e => match e with AddRequirement r => Some r | _ => None end) evs.

(** A validation that failed, or a diagnostic. *)
Definition isFailure (e : Event) : Prop :=
  match e with
  | ValidateType _ _ failed => failed = true
  | Diagnose _ => True
  | _ => False
  end.

(** ** Passes *)

(** The identities of the archetypes a run of events allocated. *)
Definition archetypeIds (evs : list Event) : list nat :=
  omap (fun e => match e with ArchetypeGetNew id => Some id | _ => None end)
       evs.

(** The diagnostics of a pattern binding and of the variables it binds. *)
Definition isBindingDiag (d : Diag) : Prop :=
  match d with
  | var_type_not_materializable _ | while_converting_var_init _ => True
  | _ => isAttributeDiag d
  end.

(** What a checker built with the flags [IsFirstPass] and [IsSecondPass]
    logs: a call that takes a pass flag is given [IsFirstPass]; initializers
    and conformances are looked at outside the first pass only; types are
    resolved, function bodies analysed and archetypes made outside the second
    pass only, and the second pass diagnoses nothing but bindings. *)
Definition passEvent (IsFirstPass IsSecondPass : bool) (e : Event) : Prop :=
  match e with
  | Diagnose d => IsSecondPass = true -> isBindingDiag d
  | LookupValue _ => True
  | ValidateType _ fp _ | SemaFuncExpr _ fp =>
      fp = IsFirstPass /\ IsSecondPass = false
  | AddGenericParameter _ _ | AddRequirement _ | AssignArchetypes
  | ArchetypeGetNew _ => IsSecondPass = false
  | TypeCheckPattern _ fp _ => fp = IsFirstPass
  | CoerceToType _ _ fp _ => fp = IsFirstPass /\ IsFirstPass = false
  | TypeCheckExpression _ _ _ | ConvertToMaterializable _
  | ConformsToProtocol _ _ => IsFirstPass = false
  end.

(** A call that is told which pass it runs in is told [isFirstPass]. *)
Definition carriesFlag (isFirstPass : bool) (e : Event) : Prop :=
  match e with
  | ValidateType _ fp _ | TypeCheckPattern _ fp _ | SemaFuncExpr _ fp
  | CoerceToType _ _ fp _ => fp = isFirstPass
  | _ => True
  end.

(** The calls that look at an initializer or at a conformance. *)
Definition isSecondLook (e : Event) : Prop :=
  match e with
  | TypeCheckExpression _ _ _ | ConvertToMaterializable _
  | CoerceToType _ _ _ _ | ConformsToProtocol _ _ => True
  | _ => False
  end.

(** The calls that resolve a type, analyse a function body or make
    archetypes. *)
Definition isResolution (e : Event) : Prop :=
  match e with
  | ValidateType _ _ _ | SemaFuncExpr _ _ | AddGenericParameter _ _
  | AddRequirement _ | AssignArchetypes | ArchetypeGetNew _ => True
  | _ => False
  end.

(** [tc'] is reached from [tc] by a run that leaves the translation unit
    alone, logs events that satisfy [P], and hands out the archetype
    identities from [NextArchetype tc] up to [NextArchetype tc'], one per
    [ArchetypeGetNew] logged, in order. *)
Definition runs {X} (P : Event -> Prop) : relation (TypeChecker X) :=
  fun tc tc' : TypeChecker X =>
    TU tc' = TU tc /\
    exists evs,
      Log tc' = Log tc ++ evs /\ Forall P evs /\
      archetypeIds evs
      = seq (NextArchetype tc) (NextArchetype tc' - NextArchetype tc) /\
      (NextArchetype tc <= NextArchetype tc')%nat.

(** Concrete declarations and type checkers the properties are tried on. *)
Module Inputs.

Import Sample.

Definition Int : Ty := TStruct "Int".
Definition Float : Ty := TStruct "Float".

Definition binary (t : Ty) : Ty :=
  TFunction (TTuple [mkTupleTypeElt t "a" false; mkTupleTypeElt t "b" false]) t.

(** [func +(a: Int, b: Int) -> Int] carrying [infix_left=prec]. *)
Definition intPlus (prec : nat) : ValueDecl :=
  valueDecl "+" (binary Int) (setInfix (InfixValid AssocLeft prec) noAttrs)
            DC_TranslationUnit true.

(** [func +(a: Float, b: Float) -> Float], no attribute. *)
Definition floatPlus : ValueDecl :=
  valueDecl "+" (binary Float) noAttrs DC_TranslationUnit true.

Definition floatPlusDecl : Decl :=
  DFunc (mkFuncDecl floatPlus (mkFuncExpr [] (binary Float)) None TNull).

(** Two imported modules, each with an infix [+]: precedence 100 in the
    first, 200 in the second. *)
Definition moduleWithPlus (prec : nat) : Module :=
  mkModule (fun n => if String.eqb n "+" then [intPlus prec] else []).

Definition twoModules : TypeChecker nat :=
  start (translationUnit TU_Main [floatPlusDecl]
           [Some (moduleWithPlus 100); Some (moduleWithPlus 200)]) ∅.

(** A variable whose type has been poisoned and that carries [byref]. *)
Definition poisonedByref : ValueDecl :=
  valueDecl "x" TError (setByref true noAttrs) DC_TranslationUnit false.

(** [func +] with an [infix] attribute, whose type has been poisoned. *)
Definition poisonedInfix : ValueDecl :=
  valueDecl "+" TError (setInfix (InfixValid AssocLeft 100) noAttrs)
            DC_TranslationUnit true.

(** [var + : Int] with [byref] and [auto_closure]: an operator that is not
    a function. *)
Definition operatorVar : ValueDecl :=
  valueDecl "+" Int (setAutoClosure true (setByref true noAttrs))
            DC_TranslationUnit true.

(** [<T requires T : P>] (scenario S1). *)
Definition typeParam (name : Identifier) (inherited : list TypeLoc)
  : TypeAliasDecl :=
  mkTypeAliasDecl
    (valueDecl name TNull noAttrs DC_CapturingExpr false)
    (mkTypeLoc TNull) inherited (TIdentifier name).

Definition boxParams : GenericParamList :=
  mkGenericParamList [typeParam "T" []]
                     [Conformance (TIdentifier "T") (TProtocol "P")].

(** [<T requires Missing == Missing>]: neither side of the requirement
    resolves. *)
Definition unresolvedSameType : GenericParamList :=
  mkGenericParamList [typeParam "T" []]
                     [SameType (TIdentifier "Missing") (TIdentifier "Missing")].

(** [oneof Maybe { just : Missing }] at module scope: the payload type of
    the element does not resolve. *)
Definition nominal (name : Identifier) (t : Ty) : NominalTypeDecl :=
  mkNominalTypeDecl (valueDecl name t noAttrs DC_TranslationUnit false)
                    [] None t t.

Definition justElement : OneOfElementDecl :=
  mkOneOfElementDecl
    (valueDecl "just" TNull noAttrs
               (DC_NominalType NK_OneOf (TOneOf "Maybe")) false)
    (mkTypeLoc (TIdentifier "Missing")).

Definition maybeDecl : Decl :=
  DOneOf (nominal "Maybe" (TOneOf "Maybe")) [DOneOfElement justElement].

(** [subscript (i : Missing) -> Int] inside [struct Vec]: the index pattern
    does not type-check. *)
Definition inVec : DeclContext := DC_NominalType NK_Struct (TStruct "Vec").

Definition vecSubscript : SubscriptDecl :=
  mkSubscriptDecl
    (valueDecl "__subscript" TNull noAttrs inVec false)
    (mkTypeLoc Int)
    (TypedPattern (NamedPattern 0%nat TNull)
                  (mkTypeLoc (TIdentifier "Missing"))
                  TNull).

Definition impliedCtor (dc : DeclContext) (name : Identifier)
  : OneOfElementDecl :=
  mkOneOfElementDecl (valueDecl name TNull noAttrs dc false) (mkTypeLoc TNull).

Definition vecDecl : Decl :=
  DStruct (nominal "Vec" (TStruct "Vec"))
          [DSubscript vecSubscript; DOneOfElement (impliedCtor inVec "Vec")].

Definition variable (name : Identifier) (dc : DeclContext) (property : bool)
  : VarDecl :=
  mkVarDecl (valueDecl name TNull noAttrs dc false) property.

Definition vecVars : gmap nat VarDecl :=
  {[ 0%nat := variable "i" DC_CapturingExpr false ]}.

(** [struct Point { var x : Int; var y : Int { get } }]: a field, a
    property and the implied constructor. *)
Definition inPoint : DeclContext := DC_NominalType NK_Struct (TStruct "Point").

Definition typedVar (v : VarId) (t : Ty) : Pattern :=
  TypedPattern (NamedPattern v TNull) (mkTypeLoc t) TNull.

Definition pointDecl : Decl :=
  DStruct (nominal "Point" (TStruct "Point"))
          [DPatternBinding (mkPatternBindingDecl inPoint (typedVar 0%nat Int) None);
           DVar 0%nat;
           DPatternBinding (mkPatternBindingDecl inPoint (typedVar 1%nat Int) None);
           DVar 1%nat;
           DOneOfElement (impliedCtor inPoint "Point")].

Definition pointVars : gmap nat VarDecl :=
  {[ 0%nat := variable "x" inPoint false; 1%nat := variable "y" inPoint true ]}.

(** [protocol Container : A { typealias Element }], where [A] is a
    struct. *)
Definition inContainer : DeclContext :=
  DC_NominalType NK_Protocol (TProtocol "Container").

Definition elementAlias : TypeAliasDecl :=
  mkTypeAliasDecl (valueDecl "Element" TNull noAttrs inContainer false)
                  (mkTypeLoc TNull) [] (TIdentifier "Element").

Definition containerDecl : Decl :=
  DProtocol
    (mkNominalTypeDecl
       (valueDecl "Container" (TProtocol "Container") noAttrs
                  DC_TranslationUnit false)
       [mkTypeLoc (TStruct "A")] None
       (TProtocol "Container") (TProtocol "Container"))
    [DTypeAlias elementAlias].

(** A top-level [constructor() {}]. *)
Definition strayConstructor : ConstructorDecl :=
  mkConstructorDecl
    (valueDecl "constructor" TNull noAttrs DC_TranslationUnit false)
    None (TuplePattern [] TNull)
    (valueDecl "this" TNull noAttrs DC_Constructor false) TNull.

(** [var x : Int = e], at module scope and inside a function body. *)
Definition initializer : Expr := mkExpr 7%nat Int.

Definition topLevelBinding : PatternBindingDecl :=
  mkPatternBindingDecl DC_TranslationUnit (typedVar 0%nat Int) (Some initializer).

Definition localBinding : PatternBindingDecl :=
  mkPatternBindingDecl DC_CapturingExpr (typedVar 0%nat Int) (Some initializer).

Definition bindingVars : gmap nat VarDecl :=
  {[ 0%nat := variable "x" DC_TranslationUnit false ]}.

Definition library : TypeChecker nat := start emptyLibrary ∅.

(** [func f(a: Int, b: Int) -> Int] carrying [infix_left=100]: not an
    operator. *)
Definition infixFunction : ValueDecl :=
  valueDecl "f" (binary Int) (setInfix (InfixValid AssocLeft 100) noAttrs)
            DC_TranslationUnit false.

(** [func -(a: Int) -> Int] carrying [infix_left=100]: a unary operator. *)
Definition infixNegate : ValueDecl :=
  valueDecl "-" (TFunction (TTuple [mkTupleTypeElt Int "a" false]) Int)
            (setInfix (InfixValid AssocLeft 100) noAttrs)
            DC_TranslationUnit true.

(** [func toInt() -> Int] in [struct Point], carrying [conversion]. *)
Definition conversionMethod : ValueDecl :=
  mkValueDecl "toInt"
              (TFunction (TStruct "Point") (TFunction (TTuple []) Int))
              (setConversion true noAttrs) inPoint false true.

(** A translation unit that declares [+] three times: without attributes,
    then infix with precedence 100, then infix with precedence 200. *)
Definition intPlusDecl (prec : nat) : Decl :=
  DFunc (mkFuncDecl (intPlus prec) (mkFuncExpr [] (binary Int)) None TNull).

Definition unitWithPlus : TypeChecker nat :=
  start (translationUnit TU_Main
           [floatPlusDecl; intPlusDecl 100; intPlusDecl 200] []) ∅.

(** [+] declared as a member of [Point]. *)
Definition memberPlus : ValueDecl :=
  valueDecl "+" (binary Float) noAttrs inPoint true.

Definition floatPlusFunc : FuncDecl :=
  mkFuncDecl floatPlus (mkFuncExpr [] (binary Float)) None TNull.

(** A variable whose type is a reference. *)
Definition referenceVars : gmap nat VarDecl :=
  {[ 0%nat := mkVarDecl (valueDecl "r" (TLValue Int) noAttrs
                                   DC_TranslationUnit false) false ]}.

Definition pointChecker : TypeChecker nat := start emptyLibrary pointVars.

Definition bindingChecker (k : TUKind) : TypeChecker nat :=
  start (translationUnit k [] []) bindingVars.

(** [var x : Int = e] at module scope, as the first pass leaves it: the
    pattern has its type. *)
Definition checkedBinding : PatternBindingDecl :=
  mkPatternBindingDecl DC_TranslationUnit
    (TypedPattern (NamedPattern 0%nat Int) (mkTypeLoc Int) Int)
    (Some initializer).

(** [protocol Sequence { typealias Element : P, Missing, Int }]: the clause
    of the associated type names a protocol, a type that does not resolve
    and a struct. *)
Definition inSequence : DeclContext :=
  DC_NominalType NK_Protocol (TProtocol "Sequence").

Definition sequenceDecl : Decl :=
  DProtocol
    (nominal "Sequence" (TProtocol "Sequence"))
    [DTypeAlias
       (mkTypeAliasDecl (valueDecl "Element" TNull noAttrs inSequence false)
                        (mkTypeLoc TNull)
                        [mkTypeLoc (TProtocol "P");
                         mkTypeLoc (TIdentifier "Missing");
                         mkTypeLoc Int]
                        (TIdentifier "Element"))].

(** [extension Int : P {}]. *)
Definition intExtension : Decl :=
  DExtension (mkExtensionDecl DC_TranslationUnit (mkTypeLoc Int)
                              [mkTypeLoc (TProtocol "P")]) [].

End Inputs.

(* ===================================================================== *)
(** * Properties *)
(* ===================================================================== *)

(** ** Reasoning about checker computations *)

Section Logic.

Context {X : Type}.
Implicit Types (tc : TypeChecker X) (P : Event -> Prop).
Implicit Types (R : relation (TypeChecker X)).

Lemma preserves_ret R `{!Reflexive R} {A} (a : A) : preserves X R (ret a).
Proof. intros tc a' tc' [= _ <-]. reflexivity. Qed.

Lemma preserves_abort R {A} : preserves X R (@abort X A).
Proof. intros tc a tc' [=]. Qed.

Lemma preserves_bind R `{!Transitive R} {A B} (m : M X A) (k : A -> M X B) :
  preserves X R m -> (forall a, preserves X R (k a)) -> preserves X R (bind m k).
Proof.
  intros Hm Hk tc b tc'. unfold bind.
  destruct (m tc) as [[a tc1]|] eqn:E; [|discriminate].
  intros Hb. etransitivity; [eapply Hm, E | eapply Hk, Hb].
Qed.

Lemma preserves_getTC R `{!Reflexive R} : preserves X R (@getTC X).
Proof. intros tc a tc' [= _ <-]. reflexivity. Qed.

Lemma preserves_weaken (R R' : relation (TypeChecker X)) {A} (m : M X A) :
  (forall tc tc', R tc tc' -> R' tc tc') -> preserves X R m -> preserves X R' m.
Proof. intros HR Hm tc a tc' E. eapply HR, Hm, E. Qed.

Lemma preserves_forEach R `{!Reflexive R, !Transitive R} {A}
      (body : A -> M X A) (l : list A) :
  (forall a, preserves X R (body a)) -> preserves X R (forEach body l).
Proof.
  intros Hb. induction l as [|a l IH]; simpl.
  - apply preserves_ret; assumption.
  - apply preserves_bind; [assumption | apply Hb |]. intros a'.
    apply preserves_bind; [assumption | apply IH |]. intros l'.
    apply preserves_ret; assumption.
Qed.

Lemma preserves_forEach_ R `{!Reflexive R, !Transitive R} {A}
      (body : A -> M X unit) (l : list A) :
  (forall a, preserves X R (body a)) -> preserves X R (forEach_ body l).
Proof.
  intros Hb. induction l as [|a l IH]; simpl.
  - apply preserves_ret; assumption.
  - apply preserves_bind; [assumption | apply Hb | intros; apply IH].
Qed.

#[export] Instance logged_refl P : Reflexive (@logged X P).
Proof. intros tc. exists []. split; [symmetry; apply app_nil_r | constructor]. Qed.

#[export] Instance logged_trans P : Transitive (@logged X P).
Proof.
  intros a b c (e1 & H1 & F1) (e2 & H2 & F2). exists (e1 ++ e2). split.
  - rewrite H2, H1. symmetry. apply app_assoc.
  - apply Forall_app; split; assumption.
Qed.

#[export] Instance onlyLogged_refl P : Reflexive (@onlyLogged X P).
Proof.
  intros [tu vs x l n]. exists []. split; [|constructor].
  unfold appendLog; simpl. by rewrite app_nil_r.
Qed.

#[export] Instance onlyLogged_trans P : Transitive (@onlyLogged X P).
Proof.
  intros a b c (e1 & -> & F1) (e2 & -> & F2). exists (e1 ++ e2). split.
  - unfold appendLog; simpl. by rewrite app_assoc.
  - apply Forall_app; split; assumption.
Qed.

Lemma onlyLogged_logged P tc tc' : onlyLogged P tc tc' -> logged P tc tc'.
Proof. intros (evs & -> & F). exists evs. split; [reflexivity | assumption]. Qed.

Lemma onlyLogged_mono P Q tc tc' :
  (forall e, P e -> Q e) -> onlyLogged P tc tc' -> onlyLogged Q tc tc'.
Proof.
  intros HPQ (evs & E & F). exists evs. split; [assumption|].
  eapply Forall_impl; eassumption.
Qed.

Lemma onlyLogged_emit P (e : Event) : P e -> preserves X (onlyLogged P) (emit e).
Proof.
  intros He tc a tc' [= _ <-]. exists [e]. split; [reflexivity|].
  constructor; [assumption | constructor].
Qed.

Lemma logged_emit P (e : Event) : P e -> preserves X (logged P) (emit e).
Proof.
  intros He. eapply preserves_weaken; [apply onlyLogged_logged|].
  by apply onlyLogged_emit.
Qed.

#[export] Instance sameVars_refl : Reflexive (@sameVars X).
Proof. intros tc. reflexivity. Qed.

#[export] Instance sameVars_trans : Transitive (@sameVars X).
Proof. intros a b c H1 H2. unfold sameVars in *. congruence. Qed.

#[export] Instance archetypesGrow_refl : Reflexive (@archetypesGrow X).
Proof. intros tc. unfold archetypesGrow. lia. Qed.

#[export] Instance archetypesGrow_trans : Transitive (@archetypesGrow X).
Proof. intros a b c. unfold archetypesGrow. lia. Qed.

Lemma total_ret {A} (a : A) : total X (ret a).
Proof. intros tc. by exists a, tc. Qed.

Lemma total_bind {A B} (m : M X A) (k : A -> M X B) :
  total X m -> (forall a, total X (k a)) -> total X (bind m k).
Proof.
  intros Hm Hk tc. destruct (Hm tc) as (a & tc1 & E).
  destruct (Hk a tc1) as (b & tc2 & E'). exists b, tc2.
  unfold bind. by rewrite E.
Qed.

Lemma total_emit (e : Event) : total X (emit e).
Proof. intros tc. by eexists _, _. Qed.

Lemma total_getTC : total X (@getTC X).
Proof. intros tc. by eexists _, _. Qed.

Lemma yields_ret {A} (Q : A -> Prop) (a : A) : Q a -> yields X Q (ret a).
Proof. intros H tc a' tc' [= <- _]. exact H. Qed.

Lemma yields_abort {A} (Q : A -> Prop) : yields X Q abort.
Proof. intros tc a tc' [=]. Qed.

Lemma yields_bind {A B} (Q : B -> Prop) (m : M X A) (k : A -> M X B) :
  (forall a, yields X Q (k a)) -> yields X Q (bind m k).
Proof.
  intros Hk tc b tc'. unfold bind.
  destruct (m tc) as [[a tc1]|]; [|discriminate]. apply Hk.
Qed.

Lemma yields_bind_with {A B} (P : A -> Prop) (Q : B -> Prop)
      (m : M X A) (k : A -> M X B) :
  yields X P m -> (forall a, P a -> yields X Q (k a)) -> yields X Q (bind m k).
Proof.
  intros Hm Hk tc b tc'. unfold bind.
  destruct (m tc) as [[a tc1]|] eqn:E; [|discriminate].
  apply Hk. eapply Hm, E.
Qed.

End Logic.

(** Walks through the binds and conditionals of a computation. *)
Ltac preserves_step :=
  lazymatch goal with
  | |- preserves _ _ (ret _) => apply preserves_ret; try apply _
  | |- preserves _ _ abort => apply preserves_abort
  | |- preserves _ _ getTC => apply preserves_getTC; try apply _
  | |- preserves _ _ (bind _ _) => apply preserves_bind; [try apply _ | | intros]
  | |- preserves _ _ (if ?b then _ else _) => destruct b
  | |- preserves _ _ (match ?x with _ => _ end) => destruct x
  | |- preserves _ _ (let '(_, _) := ?x in _) => destruct x
  end.

Ltac total_step :=
  lazymatch goal with
  | |- total _ (ret _) => apply total_ret
  | |- total _ (emit _) => apply total_emit
  | |- total _ (diagnose _) => apply total_emit
  | |- total _ getTC => apply total_getTC
  | |- total _ (bind _ _) => apply total_bind; [ | intros]
  | |- total _ (if ?b then _ else _) => destruct b
  | |- total _ (match ?x with _ => _ end) => destruct x
  end.

(* ===================================================================== *)
(** ** Attribute validation *)
(* ===================================================================== *)

Section AttributeProperties.

Context {X : Type}.
Implicit Types (tc : TypeChecker X) (VD : ValueDecl).

Lemma inheritFromModules_frame mods VD :
  preserves X (onlyLogged attributeEvent) (inheritFromModules mods VD).
Proof.
  revert VD. induction mods as [|[Mod|] mods IH]; intros VD; simpl.
  - preserves_step.
  - preserves_step; [by apply onlyLogged_emit | apply IH].
  - apply IH.
Qed.

Lemma validateAttributes_frame isFuncDecl VD :
  preserves X (onlyLogged attributeEvent) (validateAttributes isFuncDecl VD).
Proof.
  unfold validateAttributes, validateRemainingAttributes, checkAssignment,
    checkConversion, inheritInfix, checkByref, checkAutoClosure, diagnose.
  repeat first
    [ apply inheritFromModules_frame
    | apply onlyLogged_emit; exact I
    | preserves_step ].
Qed.

(** Whatever it does, [validateAttributes] leaves the type of the
    declaration alone. *)
Lemma inheritFromDecls_type vars decls VD :
  getType (inheritFromDecls vars decls VD) = getType VD.
Proof.
  induction decls as [|D decls IH]; simpl; [reflexivity|].
  destruct (asValueDecl vars D); [|assumption].
  destruct (sameNameInfix _ _); [reflexivity | assumption].
Qed.

Lemma inheritFromFound_type found VD :
  getType (inheritFromFound found VD) = getType VD.
Proof.
  induction found as [|E found IH]; simpl; [reflexivity|].
  destruct (sameNameInfix _ _); [reflexivity|].
  destruct (isInfix _); [reflexivity | assumption].
Qed.

Lemma inheritFromDecls_operator vars decls VD :
  isOperator (inheritFromDecls vars decls VD) = isOperator VD.
Proof.
  induction decls as [|D decls IH]; simpl; [reflexivity|].
  destruct (asValueDecl vars D); [|assumption].
  destruct (sameNameInfix _ _); [reflexivity | assumption].
Qed.

(** C10.  A declaration named as an operator that is not a function, an
    operator function taking no or more than two arguments, and a
    one-argument operator named [&] each make [validateAttributes] return
    after a single diagnostic: no later rule runs.  The attributes are left
    as they were, except that the wrong argument count resets [Infix]; in
    particular [Byref] and [AutoClosure] are neither cleared nor
    diagnosed. *)
Theorem operator_shape_violation_returns_early :
  forall (isFuncDecl : bool) VD tc,
    isOperator VD = true ->
    (isFuncDecl = false \/
     numArguments (getType VD) = 0 \/ numArguments (getType VD) > 2 \/
     (numArguments (getType VD) = 1 /\ getName VD = "&")) ->
    exists d VD',
      validateAttributes isFuncDecl VD tc
        = Some (VD', appendLog tc [Diagnose d]) /\
      (isFuncDecl = false -> d = operator_not_func /\ VD' = VD) /\
      (isFuncDecl = true ->
       numArguments (getType VD) = 0 \/ numArguments (getType VD) > 2 ->
       d = invalid_arg_count_for_operator /\
       VD' = mutateAttrs (setInfix InfixInvalid) VD) /\
      (isFuncDecl = true ->
       numArguments (getType VD) = 1 -> getName VD = "&" ->
       d = custom_operator_addressof /\ VD' = VD) /\
      Postfix (getAttrs VD') = Postfix (getAttrs VD) /\
      Assignment (getAttrs VD') = Assignment (getAttrs VD) /\
      Conversion (getAttrs VD') = Conversion (getAttrs VD) /\
      Byref (getAttrs VD') = Byref (getAttrs VD) /\
      AutoClosure (getAttrs VD') = AutoClosure (getAttrs VD).
Proof.
  intros isFuncDecl VD tc Hop Hshape. unfold validateAttributes.
  rewrite Hop. destruct isFuncDecl; simpl.
  - (* an operator function *)
    destruct Hshape as [? | Hshape]; [discriminate|].
    destruct ((numArguments (getType VD) =? 0)
              || (numArguments (getType VD) >? 2)) eqn:Hcount.
    + exists invalid_arg_count_for_operator,
             (mutateAttrs (setInfix InfixInvalid) VD).
      apply orb_true_iff in Hcount.
      split; [reflexivity|]. split; [discriminate|].
      split; [intros _ _; split; reflexivity|].
      split; [intros _ Hone _; exfalso; lia|].
      repeat split; reflexivity.
    + apply orb_false_iff in Hcount as [H0 H2].
      destruct Hshape as [? | [? | [Hone Hamp]]]; [lia | lia |].
      rewrite Hone, Hamp. simpl.
      exists custom_operator_addressof, VD.
      split; [reflexivity|]. split; [discriminate|].
      split; [intros _ [?|?]; exfalso; lia|].
      split; [intros _ _ _; split; reflexivity|].
      repeat split; reflexivity.
  - (* not a function *)
    exists operator_not_func, VD.
    split; [reflexivity|]. split; [intros _; split; reflexivity|].
    split; [discriminate|]. split; [discriminate|].
    repeat split; reflexivity.
Qed.

Lemma appendLog_nil tc : appendLog tc [] = tc.
Proof. destruct tc. unfold appendLog; simpl. by rewrite app_nil_r. Qed.

Lemma appendLog_app tc e1 e2 :
  appendLog (appendLog tc e1) e2 = appendLog tc (e1 ++ e2).
Proof. unfold appendLog; simpl. by rewrite app_assoc. Qed.

Lemma errorTypeRule_bind (f g : ValueDecl -> M X ValueDecl) :
  errorTypeRule f -> errorTypeRule g ->
  errorTypeRule (fun VD => bind (f VD) g).
Proof.
  intros Hf Hg VD tc Hty.
  destruct (Hf VD tc Hty) as (VD1 & e1 & E1 & Hty1 & Hop1 & F1 & N1).
  destruct (Hg VD1 (appendLog tc e1) Hty1)
    as (VD2 & e2 & E2 & Hty2 & Hop2 & F2 & N2).
  exists VD2, (e1 ++ e2). unfold bind. rewrite E1, E2, appendLog_app.
  split; [reflexivity|]. split; [assumption|]. split; [congruence|].
  split; [by apply Forall_app|].
  intros Hnop Hno. destruct (N1 Hnop Hno) as [-> ->].
  destruct (N2 Hnop Hno) as [-> ->]. by split.
Qed.

Lemma errorTypeRule_checkAssignment isFuncDecl :
  errorTypeRule (X:=X) (checkAssignment isFuncDecl (-1)).
Proof.
  intros VD tc Hty. unfold checkAssignment.
  destruct (Assignment (getAttrs VD)) eqn:Ha.
  - destruct (negb isFuncDecl || negb (isOperator VD)); simpl.
    + exists (mutateAttrs (setAssignment false) VD),
             [Diagnose (invalid_decl_attribute "assignment")].
      split; [reflexivity|]. split; [assumption|]. split; [reflexivity|].
      split; [repeat constructor; intros []|].
      intros _ Hno. rewrite Hno in Ha. discriminate.
    + exists (mutateAttrs (setAssignment false) VD),
             [Diagnose assignment_without_byref].
      split; [reflexivity|]. split; [assumption|]. split; [reflexivity|].
      split; [repeat constructor; intros []|].
      intros _ Hno. rewrite Hno in Ha. discriminate.
  - exists VD, []. rewrite appendLog_nil.
    split; [reflexivity|]. split; [assumption|]. split; [reflexivity|].
    split; [constructor|]. by intros.
Qed.

Lemma errorTypeRule_checkConversion isFuncDecl :
  errorTypeRule (X:=X) (checkConversion isFuncDecl).
Proof.
  intros VD tc Hty. unfold checkConversion.
  destruct (Conversion (getAttrs VD)) eqn:Hc.
  - destruct (negb isFuncDecl || negb (isInstanceMember VD)); simpl.
    + exists (mutateAttrs (setConversion false) VD),
             [Diagnose (conversion_not_instance_method (getName VD))].
      split; [reflexivity|]. split; [assumption|]. split; [reflexivity|].
      split; [repeat constructor; intros []|].
      intros _ Hno. rewrite Hno in Hc. discriminate.
    + rewrite Hty. simpl. exists VD, []. rewrite appendLog_nil.
      split; [reflexivity|]. split; [assumption|]. split; [reflexivity|].
      split; [constructor|]. by intros.
  - exists VD, []. rewrite appendLog_nil.
    split; [reflexivity|]. split; [assumption|]. split; [reflexivity|].
    split; [constructor|]. by intros.
Qed.

Lemma inheritFromFound_operator found VD :
  isOperator (inheritFromFound found VD) = isOperator VD.
Proof.
  induction found as [|E found IH]; simpl; [reflexivity|].
  destruct (sameNameInfix _ _); [reflexivity|].
  destruct (isInfix _); [reflexivity | assumption].
Qed.

Lemma inheritFromModules_run mods VD tc :
  exists VD' evs,
    inheritFromModules mods VD tc = Some (VD', appendLog tc evs) /\
    getType VD' = getType VD /\ isOperator VD' = isOperator VD /\
    Forall nonArityEvent evs.
Proof.
  revert VD tc. induction mods as [|[Mod|] mods IH]; intros VD tc; simpl.
  - exists VD, []. by rewrite appendLog_nil.
  - destruct (IH (inheritFromFound (lookupValue Mod (getName VD)) VD)
                 (appendLog tc [LookupValue (getName VD)]))
      as (VD' & evs & E & Hty & Hop & F).
    exists VD', (LookupValue (getName VD) :: evs).
    unfold bind, emit. fold (appendLog tc [LookupValue (getName VD)]).
    rewrite E, appendLog_app. simpl.
    rewrite Hty, Hop, inheritFromFound_type, inheritFromFound_operator.
    repeat split; try reflexivity. by constructor.
  - apply IH.
Qed.

Lemma errorTypeRule_inheritInfix : errorTypeRule (X:=X) (inheritInfix (-1)).
Proof.
  intros VD tc Hty. unfold inheritInfix. simpl. rewrite andb_true_r.
  destruct (isOperator VD) eqn:Hop; simpl.
  2:{ exists VD, []. rewrite appendLog_nil.
      repeat split; try assumption; try reflexivity. constructor. }
  destruct (isInfix (getAttrs VD)) eqn:Hinf; simpl.
  { exists VD, []. rewrite appendLog_nil.
    repeat split; try assumption; try reflexivity; try constructor;
      discriminate. }
  assert (exists VD1 e1,
    (if isTranslationUnit (getDeclContext VD)
     then
       bind getTC (fun tc0 =>
         if negb (isInfix (getAttrs
               (inheritFromDecls (Vars tc0) (tu_decls (TU tc0)) VD)))
         then inheritFromModules (tu_importedModules (TU tc0))
                (inheritFromDecls (Vars tc0) (tu_decls (TU tc0)) VD)
         else ret (inheritFromDecls (Vars tc0) (tu_decls (TU tc0)) VD))
     else ret VD) tc = Some (VD1, appendLog tc e1) /\
    getType VD1 = TError /\ isOperator VD1 = true /\
    Forall nonArityEvent e1) as (VD1 & e1 & E1 & Hty1 & Hop1 & F1).
  { destruct (isTranslationUnit (getDeclContext VD)).
    - unfold bind at 1, getTC.
      destruct (negb (isInfix (getAttrs
                  (inheritFromDecls (Vars tc) (tu_decls (TU tc)) VD)))).
      + destruct (inheritFromModules_run (tu_importedModules (TU tc))
                    (inheritFromDecls (Vars tc) (tu_decls (TU tc)) VD) tc)
          as (VD1 & e1 & E & Hty1 & Hop1 & F).
        exists VD1, e1.
        rewrite inheritFromDecls_type in Hty1.
        rewrite inheritFromDecls_operator in Hop1.
        repeat split; try assumption; congruence.
      + exists (inheritFromDecls (Vars tc) (tu_decls (TU tc)) VD), [].
        rewrite appendLog_nil, inheritFromDecls_type,
          inheritFromDecls_operator.
        repeat split; try assumption; try reflexivity. constructor.
    - exists VD, []. rewrite appendLog_nil.
      repeat split; try assumption; try reflexivity. constructor. }
  unfold bind at 1. rewrite E1.
  destruct (negb (isInfix (getAttrs VD1))).
  - exists VD1, (e1 ++ [Diagnose binops_infix_left]).
    unfold bind, diagnose, emit, ret. simpl.
    split; [by rewrite <- appendLog_app|].
    split; [assumption|]. split; [assumption|].
    split; [|discriminate].
    apply Forall_app; split; [assumption|].
    repeat constructor. intros [].
  - exists VD1, e1. split; [reflexivity|].
    do 3 (split; [assumption|]). discriminate.
Qed.

Lemma errorTypeRule_checkByref : errorTypeRule (X:=X) checkByref.
Proof.
  intros VD tc Hty. unfold checkByref.
  destruct (Byref (getAttrs VD)) eqn:Hb.
  - exists (mutateAttrs (setByref false) VD),
           [Diagnose (invalid_decl_attribute "byref")].
    split; [reflexivity|]. split; [assumption|]. split; [reflexivity|].
    split; [repeat constructor; intros []|].
    intros _ Hno. rewrite Hno in Hb. discriminate.
  - exists VD, []. rewrite appendLog_nil.
    split; [reflexivity|]. split; [assumption|]. split; [reflexivity|].
    split; [constructor|]. by intros.
Qed.

Lemma errorTypeRule_checkAutoClosure : errorTypeRule (X:=X) checkAutoClosure.
Proof.
  intros VD tc Hty. unfold checkAutoClosure.
  destruct (AutoClosure (getAttrs VD)) eqn:Hb.
  - exists (mutateAttrs (setAutoClosure false) VD),
           [Diagnose (invalid_decl_attribute "auto_closure")].
    split; [reflexivity|]. split; [assumption|]. split; [reflexivity|].
    split; [repeat constructor; intros []|].
    intros _ Hno. rewrite Hno in Hb. discriminate.
  - exists VD, []. rewrite appendLog_nil.
    split; [reflexivity|]. split; [assumption|]. split; [reflexivity|].
    split; [constructor|]. by intros.
Qed.

Lemma errorTypeRule_remaining isFuncDecl :
  errorTypeRule (X:=X) (validateRemainingAttributes isFuncDecl (-1)).
Proof.
  unfold validateRemainingAttributes.
  apply (errorTypeRule_bind (checkAssignment isFuncDecl (-1)));
    [apply errorTypeRule_checkAssignment|].
  apply (errorTypeRule_bind (checkConversion isFuncDecl));
    [apply errorTypeRule_checkConversion|].
  apply (errorTypeRule_bind (inheritInfix (-1)));
    [apply errorTypeRule_inheritInfix|].
  apply (errorTypeRule_bind checkByref);
    [apply errorTypeRule_checkByref | apply errorTypeRule_checkAutoClosure].
Qed.

(** C7, amended.  On a declaration whose type is [ErrorType] attribute
    validation runs to its end with no argument count ([NumArguments] is
    [-1]): it logs none of the diagnostics that need an argument count or a
    function type, keeps the type, and logs nothing at all when the
    declaration is not an operator and carries no attribute.  The other
    rules still apply to it. *)
Theorem error_type_has_no_argument_count :
  forall (isFuncDecl : bool) VD tc,
    getType VD = TError ->
    exists VD' evs,
      validateAttributes isFuncDecl VD tc = Some (VD', appendLog tc evs) /\
      getType VD' = TError /\
      Forall nonArityEvent evs /\
      (isOperator VD = false -> getAttrs VD = noAttrs ->
       evs = [] /\ VD' = VD).
Proof.
  intros isFuncDecl VD tc Hty.
  assert (Hone : forall d (VD' : ValueDecl),
             getType VD' = TError -> isAttributeDiag d -> ~ isArityDiag d ->
             (isOperator VD = false -> getAttrs VD = noAttrs -> False) ->
             exists VD'' evs,
               Some (VD', appendLog tc [Diagnose d])
                 = Some (VD'', appendLog tc evs) /\
               getType VD'' = TError /\ Forall nonArityEvent evs /\
               (isOperator VD = false -> getAttrs VD = noAttrs ->
                evs = [] /\ VD'' = VD)).
  { intros d VD' H1 H2 H3 H4. exists VD', [Diagnose d].
    split; [reflexivity|]. split; [assumption|].
    split; [by repeat constructor|]. intros Ha Hb. destruct (H4 Ha Hb). }
  unfold validateAttributes. rewrite Hty. simpl.
  rewrite !andb_false_r. simpl.
  destruct (isOperator VD && negb isFuncDecl) eqn:C1.
  { apply (Hone operator_not_func VD); try assumption; try exact I.
    - intros [].
    - intros Hop _. rewrite Hop in C1. discriminate. }
  destruct (isInfix (getAttrs VD) && negb (isOperator VD)) eqn:C2.
  { apply (Hone infix_not_an_operator); try assumption; try exact I.
    - intros [].
    - intros _ Hno. rewrite Hno in C2. discriminate. }
  rewrite andb_true_r.
  destruct (isInfix (getAttrs VD)) eqn:C3.
  { apply (Hone invalid_infix_left_input); try assumption; try exact I.
    - intros [].
    - intros _ Hno. rewrite Hno in C3. discriminate. }
  destruct (Postfix (getAttrs VD) && negb (isOperator VD)) eqn:C4.
  { apply (Hone postfix_not_an_operator); try assumption; try exact I.
    - intros [].
    - intros _ Hno. rewrite Hno in C4. discriminate. }
  rewrite andb_true_r.
  destruct (Postfix (getAttrs VD)) eqn:C5.
  { apply (Hone invalid_postfix_input); try assumption; try exact I.
    - intros [].
    - intros _ Hno. rewrite Hno in C5. discriminate. }
  destruct (errorTypeRule_remaining isFuncDecl VD tc Hty)
    as (VD' & evs & E & Hty' & _ & F & N).
  by exists VD', evs.
Qed.

(** *** The type is never touched, and a declaration that is not a
    function is always validated to the end *)

Ltac yields_step :=
  lazymatch goal with
  | |- yields _ _ (ret _) => apply yields_ret; try reflexivity
  | |- yields _ _ abort => apply yields_abort
  | |- yields _ _ (bind (diagnose _) _) => apply yields_bind; intros
  | |- yields _ _ (bind (emit _) _) => apply yields_bind; intros
  | |- yields _ _ (if ?b then _ else _) => destruct b
  | |- yields _ _ (match ?x with _ => _ end) => destruct x
  end.

Lemma type_inheritFromModules mods VD :
  yields X (fun VD' => getType VD' = getType VD /\
                       isOperator VD' = isOperator VD)
         (inheritFromModules mods VD).
Proof.
  intros tc VD' tc' H.
  destruct (inheritFromModules_run mods VD tc) as (VD1 & evs & E & Hty & Hop & _).
  rewrite E in H. by injection H as <- _.
Qed.

Lemma type_checkAssignment (isFuncDecl : bool) n VD :
  yields X (fun VD' => getType VD' = getType VD)
         (checkAssignment isFuncDecl n VD).
Proof.
  unfold checkAssignment. repeat yields_step.
  apply yields_bind. intros ParamType. repeat yields_step.
Qed.

Lemma type_checkConversion (isFuncDecl : bool) VD :
  yields X (fun VD' => getType VD' = getType VD)
         (checkConversion isFuncDecl VD).
Proof. unfold checkConversion. repeat yields_step. Qed.

Lemma type_inheritInfix n VD :
  yields X (fun VD' => getType VD' = getType VD) (inheritInfix n VD).
Proof.
  unfold inheritInfix.
  destruct (isOperator VD && negb (isInfix (getAttrs VD)) && negb (n =? 1));
    [|by apply yields_ret].
  apply (yields_bind_with (fun VD' => getType VD' = getType VD)).
  - destruct (isTranslationUnit (getDeclContext VD)); [|by apply yields_ret].
    intros tc VD' tc'. unfold bind at 1, getTC.
    destruct (negb (isInfix (getAttrs
                (inheritFromDecls (Vars tc) (tu_decls (TU tc)) VD)))).
    + intros H. apply type_inheritFromModules in H as [H _].
      by rewrite H, inheritFromDecls_type.
    + intros [= <- _]. apply inheritFromDecls_type.
  - intros VD' Hty. repeat yields_step; exact Hty.
Qed.

Lemma type_checkByref VD :
  yields X (fun VD' => getType VD' = getType VD) (checkByref VD).
Proof. unfold checkByref. repeat yields_step. Qed.

Lemma type_checkAutoClosure VD :
  yields X (fun VD' => getType VD' = getType VD) (checkAutoClosure VD).
Proof. unfold checkAutoClosure. repeat yields_step. Qed.

Lemma validateAttributes_type (isFuncDecl : bool) VD :
  yields X (fun VD' => getType VD' = getType VD)
         (validateAttributes isFuncDecl VD).
Proof.
  unfold validateAttributes. repeat yields_step.
  unfold validateRemainingAttributes.
  eapply yields_bind_with; [apply type_checkAssignment|]. intros V1 H1.
  eapply yields_bind_with; [apply type_checkConversion|]. intros V2 H2.
  eapply yields_bind_with; [apply type_inheritInfix|]. intros V3 H3.
  eapply yields_bind_with; [apply type_checkByref|]. intros V4 H4.
  intros tc V5 tc' H5. apply type_checkAutoClosure in H5. congruence.
Qed.

Lemma total_inheritFromModules mods VD : total X (inheritFromModules mods VD).
Proof.
  intros tc.
  destruct (inheritFromModules_run mods VD tc) as (VD' & evs & E & _).
  by eexists _, _.
Qed.

Lemma validateAttributes_total_nonfunc VD : total X (validateAttributes false VD).
Proof.
  unfold validateAttributes, validateRemainingAttributes, checkAssignment,
    checkConversion, inheritInfix, checkByref, checkAutoClosure.
  cbn [negb orb].
  repeat first [ apply total_inheritFromModules | total_step ].
Qed.

(** What [validateAttributes] does for a declaration that is not a
    function. *)
Lemma validateAttributes_nonfunc_run VD tc :
  exists VD' evs,
    validateAttributes false VD tc = Some (VD', appendLog tc evs) /\
    Forall attributeEvent evs /\ getType VD' = getType VD.
Proof.
  destruct (validateAttributes_total_nonfunc VD tc) as (VD' & tc' & E).
  destruct (validateAttributes_frame _ _ _ _ _ E) as (evs & -> & F).
  exists VD', evs. split; [exact E|]. split; [exact F|].
  eapply validateAttributes_type, E.
Qed.

End AttributeProperties.

Lemma operator_shape_violation_witness :
  isOperator Inputs.operatorVar = true /\
  (false = false \/
   numArguments (getType Inputs.operatorVar) = 0 \/
   numArguments (getType Inputs.operatorVar) > 2 \/
   (numArguments (getType Inputs.operatorVar) = 1 /\
    getName Inputs.operatorVar = "&")) /\
  exists d VD',
    validateAttributes false Inputs.operatorVar Inputs.library
      = Some (VD', appendLog Inputs.library [Diagnose d]) /\
    (false = false -> d = operator_not_func /\ VD' = Inputs.operatorVar) /\
    (false = true ->
     numArguments (getType Inputs.operatorVar) = 0 \/
     numArguments (getType Inputs.operatorVar) > 2 ->
     d = invalid_arg_count_for_operator /\
     VD' = mutateAttrs (setInfix InfixInvalid) Inputs.operatorVar) /\
    (false = true ->
     numArguments (getType Inputs.operatorVar) = 1 ->
     getName Inputs.operatorVar = "&" ->
     d = custom_operator_addressof /\ VD' = Inputs.operatorVar) /\
    Postfix (getAttrs VD') = Postfix (getAttrs Inputs.operatorVar) /\
    Assignment (getAttrs VD') = Assignment (getAttrs Inputs.operatorVar) /\
    Conversion (getAttrs VD') = Conversion (getAttrs Inputs.operatorVar) /\
    Byref (getAttrs VD') = Byref (getAttrs Inputs.operatorVar) /\
    AutoClosure (getAttrs VD') = AutoClosure (getAttrs Inputs.operatorVar).
Proof.
  split; [reflexivity|]. split; [left; reflexivity|].
  apply (operator_shape_violation_returns_early
           false Inputs.operatorVar Inputs.library);
    [reflexivity | left; reflexivity].
Defined.

(* ===================================================================== *)
(** ** Generic parameters *)
(* ===================================================================== *)

Arguments emit : simpl never.
Arguments diagnose : simpl never.
Arguments ret : simpl never.
Arguments bind : simpl never.
Arguments ArchetypeBuilder.addRequirement : simpl never.

Section GenericParamProperties.

Context {X : Type} (C : Collaborators X) (IsFirstPass : bool).
Implicit Types (tc : TypeChecker X) (B : ArchetypeBuilder.t).

Lemma after_refl tc : after tc [] tc.
Proof. unfold after. by rewrite app_nil_r. Qed.

Lemma after_trans tc1 e1 tc2 e2 tc3 :
  after tc1 e1 tc2 -> after tc2 e2 tc3 -> after tc1 (e1 ++ e2) tc3.
Proof.
  intros (Ha & Hb & Hc & H1) (Hd & He & Hf & H2). unfold after.
  rewrite H2, H1, app_assoc. repeat split; congruence.
Qed.

Lemma emit_run e tc :
  exists tc', emit e tc = Some (tt, tc') /\ after tc [e] tc'.
Proof. eexists. split; [reflexivity|]. by repeat split. Qed.

Lemma callValidateType_run tl tc :
  exists failed tl' tc',
    callValidateType C tl IsFirstPass tc = Some ((failed, tl'), tc') /\
    after tc [ValidateType (tl_type tl) IsFirstPass failed] tc'.
Proof.
  unfold callValidateType.
  destruct (validateType C tl IsFirstPass (Ext tc)) as [[failed tl'] x].
  exists failed, tl'. eexists. split; [reflexivity|]. by repeat split.
Qed.

Lemma checkInheritedOne_run tl tc :
  exists tl' evs tc',
    checkInheritedOne C IsFirstPass tl tc = Some (tl', tc') /\
    after tc evs tc' /\ Forall intakeEvent evs.
Proof.
  unfold checkInheritedOne, bind.
  destruct (callValidateType_run tl tc) as (failed & tl' & tc1 & -> & A1).
  destruct failed.
  - exists (setInvalidType tl'), [ValidateType (tl_type tl) IsFirstPass true], tc1.
    repeat split; try apply A1. by repeat constructor.
  - destruct (negb (isExistentialType (tl_type tl'))
              && negb (isErrorType (tl_type tl'))).
    + destruct (emit_run (Diagnose (nonprotocol_inherit (tl_type tl'))) tc1)
        as (tc2 & E2 & A2).
      unfold diagnose. rewrite E2. eexists tl', _, tc2.
      split; [reflexivity|]. split; [eapply after_trans; eassumption|].
      by repeat constructor.
    + exists tl', [ValidateType (tl_type tl) IsFirstPass false], tc1.
      repeat split; try apply A1. by repeat constructor.
Qed.

Lemma checkInherited_run Inherited tc :
  exists Inherited' evs tc',
    checkInherited C IsFirstPass Inherited tc = Some (Inherited', tc') /\
    after tc evs tc' /\ Forall intakeEvent evs.
Proof.
  unfold checkInherited. revert tc.
  induction Inherited as [|tl l IH]; intros tc; simpl.
  - exists [], [], tc. split; [reflexivity|]. split; [apply after_refl|constructor].
  - unfold bind.
    destruct (checkInheritedOne_run tl tc) as (tl' & e1 & tc1 & -> & A1 & F1).
    destruct (IH tc1) as (l' & e2 & tc2 & -> & A2 & F2).
    exists (tl' :: l'), (e1 ++ e2), tc2.
    split; [reflexivity|]. split; [eapply after_trans; eassumption|].
    by apply Forall_app.
Qed.

(** Registration: every parameter, in order, under consecutive indices. *)
Lemma addGenericParameters_run params Index B tc :
  exists params' evs tc',
    addGenericParameters C IsFirstPass Index params B tc
      = Some ((params',
               B ++ imap (fun k p =>
                            ArchetypeBuilder.mkPotentialArchetype
                              (getName (tad_base p)) (Index + k)
                              (ArchetypeBuilder.inheritedProtocols
                                 (tad_inherited p))) params'), tc') /\
    after tc evs tc' /\ Forall intakeEvent evs /\
    Forall2 (fun p p' =>
               exists Inherited,
                 clauseCheckedDuring C IsFirstPass tc (tad_inherited p)
                                     Inherited /\
                 p' = setTadInherited Inherited p) params params'.
Proof.
  revert Index B tc. induction params as [|p params IH]; intros Index B tc.
  - exists [], [], tc. simpl. rewrite app_nil_r.
    split; [reflexivity|]. split; [apply after_refl|]. split; constructor.
  - simpl. unfold bind.
    destruct (checkInherited_run (tad_inherited p) tc)
      as (inh & e1 & tc1 & E1 & A1 & F1). rewrite E1.
    destruct (emit_run (AddGenericParameter (getName (tad_base p)) Index)
                       tc1) as (tc2 & -> & A2).
    destruct (IH (S Index)
                 (ArchetypeBuilder.addGenericParameter
                    (setTadInherited inh p) Index B) tc2)
      as (params' & e3 & tc3 & -> & A3 & F3 & H3).
    exists (setTadInherited inh p :: params'),
           (e1 ++ [AddGenericParameter (getName (tad_base p)) Index] ++ e3),
           tc3.
    split.
    { simpl. unfold ArchetypeBuilder.addGenericParameter.
      rewrite <- app_assoc. simpl. rewrite Nat.add_0_r. unfold ret.
      match goal with
      | |- Some (_, _ ++ _ :: ?l1, _) = Some (_, _ ++ _ :: ?l2, _) =>
          replace l1 with l2; [reflexivity|]
      end.
      apply imap_ext. intros k q _. simpl. by rewrite Nat.add_succ_r. }
    split; [eapply after_trans; [eassumption|];
            eapply after_trans; eassumption|].
    assert (F12 : Forall intakeEvent
                    (e1 ++ [AddGenericParameter (getName (tad_base p)) Index])).
    { apply Forall_app; split; [assumption | by repeat constructor]. }
    split.
    { apply Forall_app; split; [assumption|].
      apply Forall_app; split; [by repeat constructor | assumption]. }
    constructor.
    + exists inh. split; [|reflexivity].
      exists [], tc, tc1. split; [apply after_refl|].
      split; [constructor | exact E1].
    + eapply Forall2_impl; [exact H3|].
      intros q q' (Inherited & (before & tcA & tcB & A & F & E) & ->).
      exists Inherited. split; [|reflexivity].
      exists ((e1 ++ [AddGenericParameter (getName (tad_base p)) Index])
              ++ before), tcA, tcB.
      split; [|split; [by apply Forall_app | exact E]].
      eapply after_trans; [|exact A]. eapply after_trans; eassumption.
Qed.

Lemma list_difference_nil_r {A} `{EqDecision A} (l : list A) :
  list_difference l [] = l.
Proof.
  induction l as [|x l IH]; simpl; [reflexivity|].
  destruct (decide_rel elem_of x []) as [H|H]; [by apply elem_of_nil in H|].
  by rewrite IH.
Qed.

(** A requirement whose protocol operand was replaced by [ErrorType] asks
    nothing of any parameter. *)
Lemma addRequirement_error subject B :
  ArchetypeBuilder.addRequirement (Conformance subject TError) B = B.
Proof.
  unfold ArchetypeBuilder.addRequirement.
  induction B as [|pa B IH]; simpl; [reflexivity|]. rewrite IH. f_equal.
  destruct (ArchetypeBuilder.targets subject _); [|reflexivity].
  unfold ArchetypeBuilder.protocolsOf, list_union. simpl.
  rewrite list_difference_nil_r, app_nil_r. by destruct pa.
Qed.

Lemma addRequirement1_run Req B tc :
  exists Req' evs tc',
    addRequirement1 C IsFirstPass Req B tc
      = Some ((Req', ArchetypeBuilder.addRequirement Req' B), tc') /\
    after tc evs tc' /\ FirstScan IsFirstPass Req evs Req'.
Proof.
  destruct Req as [subject protocol | first second];
    unfold addRequirement1, bind.
  - destruct (callValidateType_run (mkTypeLoc protocol) tc)
      as (failed & tl' & tc1 & -> & A1). cbn [tl_type] in *.
    destruct failed; cbn [fst].
    + eexists (Conformance subject TError), _, tc1.
      rewrite addRequirement_error.
      split; [reflexivity|]. split; [exact A1 | constructor].
    + destruct (isExistentialType protocol) eqn:Hex; cbn [negb].
      * destruct (emit_run (AddRequirement (Conformance subject protocol)) tc1)
          as (tc2 & -> & A2).
        eexists (Conformance subject protocol), _, tc2.
        split; [reflexivity|].
        split; [eapply after_trans; eassumption | by constructor].
      * destruct (emit_run (Diagnose (requires_conformance_nonprotocol
                                        subject protocol)) tc1)
          as (tc2 & E2 & A2).
        unfold diagnose. rewrite E2.
        eexists (Conformance subject TError), _, tc2.
        rewrite addRequirement_error.
        split; [reflexivity|].
        split; [eapply after_trans; eassumption | by constructor].
  - destruct (emit_run (AddRequirement (SameType first second)) tc)
      as (tc1 & -> & A1).
    eexists (SameType first second), _, tc1.
    split; [reflexivity|]. split; [exact A1 | constructor].
Qed.

Lemma scanRequirements1_run reqs B tc :
  exists reqs' evs tc',
    scanRequirements (addRequirement1 C IsFirstPass) reqs B tc
      = Some ((reqs',
               foldl (fun B r => ArchetypeBuilder.addRequirement r B) B reqs'),
              tc') /\
    after tc evs tc' /\ Scan (FirstScan IsFirstPass) reqs evs reqs'.
Proof.
  revert B tc. induction reqs as [|Req reqs IH]; intros B tc; simpl.
  - exists [], [], tc. split; [reflexivity|].
    split; [apply after_refl | constructor].
  - unfold bind.
    destruct (addRequirement1_run Req B tc) as (Req' & e1 & tc1 & -> & A1 & S1).
    simpl.
    destruct (IH (ArchetypeBuilder.addRequirement Req' B) tc1)
      as (reqs' & e2 & tc2 & -> & A2 & S2).
    exists (Req' :: reqs'), (e1 ++ e2), tc2.
    split; [reflexivity|].
    split; [eapply after_trans; eassumption | by constructor].
Qed.

Lemma addRequirement2_run Req B tc :
  exists Req' B' evs tc',
    addRequirement2 C IsFirstPass Req B tc = Some ((Req', B'), tc') /\
    after tc evs tc' /\ SecondScan IsFirstPass Req evs Req'.
Proof.
  destruct Req as [subject protocol | first second];
    unfold addRequirement2, bind.
  - destruct (callValidateType_run (mkTypeLoc subject) tc)
      as (failed & tl' & tc1 & -> & A1). cbn [tl_type] in *.
    destruct failed; cbn [fst].
    + eexists _, _, _, tc1.
      split; [reflexivity|]. split; [exact A1 | constructor].
    + destruct (emit_run (AddRequirement (Conformance subject protocol)) tc1)
        as (tc2 & -> & A2).
      eexists _, _, _, tc2. split; [reflexivity|].
      split; [eapply after_trans; eassumption | constructor].
  - destruct (callValidateType_run (mkTypeLoc first) tc)
      as (failed & tl' & tc1 & -> & A1). cbn [tl_type] in *.
    destruct failed; cbn [fst].
    + eexists _, _, _, tc1.
      split; [reflexivity|]. split; [exact A1 | constructor].
    + destruct (callValidateType_run (mkTypeLoc second) tc1)
        as (failed & tl'' & tc2 & -> & A2). cbn [tl_type] in *.
      destruct failed; cbn [fst].
      * eexists _, _, _, tc2. split; [reflexivity|].
        split; [eapply after_trans; eassumption | constructor].
      * destruct (emit_run (AddRequirement (SameType first second)) tc2)
          as (tc3 & -> & A3).
        eexists _, _, _, tc3. split; [reflexivity|].
        split; [eapply after_trans; [eassumption|];
                eapply after_trans; eassumption | constructor].
Qed.

Lemma scanRequirements2_run reqs B tc :
  exists reqs' B' evs tc',
    scanRequirements (addRequirement2 C IsFirstPass) reqs B tc
      = Some ((reqs', B'), tc') /\
    after tc evs tc' /\ Scan (SecondScan IsFirstPass) reqs evs reqs'.
Proof.
  revert B tc. induction reqs as [|Req reqs IH]; intros B tc; simpl.
  - exists [], B, [], tc. split; [reflexivity|].
    split; [apply after_refl | constructor].
  - unfold bind.
    destruct (addRequirement2_run Req B tc)
      as (Req' & B1 & e1 & tc1 & -> & A1 & S1). simpl.
    destruct (IH B1 tc1) as (reqs' & B2 & e2 & tc2 & -> & A2 & S2).
    exists (Req' :: reqs'), B2, (e1 ++ e2), tc2.
    split; [reflexivity|].
    split; [eapply after_trans; eassumption | by constructor].
Qed.

(** Assignment: one new archetype per registered parameter. *)
Lemma assignArchetypes_run B tc :
  exists evs tc',
    ArchetypeBuilder.assignArchetypes B tc
      = Some (archetypesOf (NextArchetype tc) B, tc') /\
    TU tc' = TU tc /\ Vars tc' = Vars tc /\
    NextArchetype tc' = (NextArchetype tc + length B)%nat /\
    Log tc' = Log tc ++ evs /\ Forall isArchetypeGetNew evs.
Proof.
  unfold archetypesOf. revert tc.
  induction B as [|pa B IH]; intros tc; simpl.
  - exists [], tc. rewrite app_nil_r, Nat.add_0_r.
    repeat split; constructor.
  - unfold bind at 1, archetypeGetNew.
    match goal with
    | |- context [bind _ _ ?t] => destruct (IH t) as (e2 & tc2 & E & H1 & H2 & H3 & H4 & F)
    end.
    unfold bind at 1. rewrite E. simpl in *.
    exists (ArchetypeGetNew (NextArchetype tc) :: e2), tc2.
    split.
    { unfold ret. rewrite Nat.add_0_r.
      match goal with
      | |- Some (_ :: ?l1, _) = Some (_ :: ?l2, _) =>
          replace l1 with l2; [reflexivity|]
      end.
      apply imap_ext. intros k q _. simpl. by rewrite Nat.add_succ_r. }
    rewrite H1, H2, H3, H4, <- app_assoc. simpl.
    repeat split; [lia | by constructor].
Qed.

(** Wiring: each parameter gets the archetype the map holds for its
    index. *)
Lemma wireArchetypes_lookup (archs : list (nat * Ty)) params i :
  NoDup archs.*1 ->
  wireArchetypes archs params !! i
  = (fun p => match (list_to_map archs : gmap nat Ty) !! i with
              | Some A => setUnderlying (mkTypeLoc A) p
              | None => p
              end) <$> params !! i.
Proof.
  unfold wireArchetypes. revert params.
  induction archs as [|[k A] archs IH]; intros params Hnd.
  - cbn [foldl list_to_map]. destruct (params !! i); reflexivity.
  - cbn [fmap list_fmap fst] in Hnd. apply NoDup_cons in Hnd as [Hk Hnd].
    cbn [foldl fst snd]. rewrite IH by assumption.
    rewrite list_to_map_cons.
    destruct (decide (k = i)) as [->|Hne].
    + rewrite lookup_insert_eq, list_lookup_alter_eq.
      rewrite (not_elem_of_list_to_map_1 archs i) by assumption.
      destruct (params !! i); reflexivity.
    + rewrite lookup_insert_ne by assumption.
      rewrite list_lookup_alter_ne by assumption. reflexivity.
Qed.

Lemma length_wireArchetypes (archs : list (nat * Ty)) params :
  length (wireArchetypes archs params) = length params.
Proof.
  unfold wireArchetypes. revert params.
  induction archs as [|a archs IH]; intros params; [reflexivity|].
  cbn [foldl]. rewrite IH. apply length_alter.
Qed.

Lemma archetypesOf_lookup next B i pa :
  (forall k pa', B !! k = Some pa' -> ArchetypeBuilder.pa_index pa' = k) ->
  B !! i = Some pa ->
  NoDup (archetypesOf next B).*1 /\
  (list_to_map (archetypesOf next B) : gmap nat Ty) !! i
  = Some (TArchetype (next + i) (ArchetypeBuilder.pa_name pa)
                     (map TProtocol (ArchetypeBuilder.pa_protocols pa))
                     (Some i)).
Proof.
  intros Hidx Hi.
  assert (Hnd : NoDup (archetypesOf next B).*1).
  { apply NoDup_alt. intros a b x. unfold archetypesOf.
    rewrite !list_lookup_fmap, !list_lookup_imap.
    destruct (B !! a) as [pa1|] eqn:Ea; simpl; [|discriminate].
    destruct (B !! b) as [pa2|] eqn:Eb; simpl; [|intros _; discriminate].
    intros [= <-] [= Hx].
    rewrite (Hidx _ _ Ea) in Hx. by rewrite (Hidx _ _ Eb) in Hx. }
  split; [assumption|].
  apply elem_of_list_to_map_1; [assumption|].
  pose (f := fun (k : nat) (pa : ArchetypeBuilder.PotentialArchetype) =>
               (ArchetypeBuilder.pa_index pa,
                TArchetype (next + k) (ArchetypeBuilder.pa_name pa)
                           (map TProtocol (ArchetypeBuilder.pa_protocols pa))
                           (Some (ArchetypeBuilder.pa_index pa)))).
  change (archetypesOf next B) with (imap f B).
  assert (Hf : f i pa
               = (i, TArchetype (next + i) (ArchetypeBuilder.pa_name pa)
                       (map TProtocol (ArchetypeBuilder.pa_protocols pa))
                       (Some i)))
    by (unfold f; by rewrite (Hidx _ _ Hi)).
  rewrite <- Hf. exact (elem_of_lookup_imap_2 f B pa i Hi).
Qed.

(** What the builder knows of a parameter once the requirements [reqs] are
    added. *)
Lemma foldl_addRequirement_lookup reqs B k pa :
  B !! k = Some pa ->
  exists ps,
    foldl (fun B r => ArchetypeBuilder.addRequirement r B) B reqs !! k
    = Some (ArchetypeBuilder.mkPotentialArchetype
              (ArchetypeBuilder.pa_name pa) (ArchetypeBuilder.pa_index pa) ps)
    /\ forall q, q ∈ ps <->
                 q ∈ ArchetypeBuilder.pa_protocols pa \/
                 q ∈ required (ArchetypeBuilder.pa_name pa) reqs.
Proof.
  revert B pa. induction reqs as [|r reqs IH]; intros B pa Hk.
  - exists (ArchetypeBuilder.pa_protocols pa). cbn [foldl]. split.
    + rewrite Hk. by destruct pa.
    + intros q. unfold required. cbn. rewrite elem_of_nil. tauto.
  - cbn [foldl]. unfold required. cbn [map concat]. fold (required
      (ArchetypeBuilder.pa_name pa) reqs).
    destruct r as [subject protocol | first second].
    + unfold ArchetypeBuilder.addRequirement at 2.
      match goal with
      | |- context [foldl _ (map ?f B) reqs] =>
          destruct (IH (map f B) (f pa)) as (ps & E & Hps);
            [by rewrite list_lookup_fmap, Hk|]
      end.
      exists ps. cbn [requirementProtocols].
      destruct (ArchetypeBuilder.targets subject (ArchetypeBuilder.pa_name pa));
        cbn in E, Hps |- *.
      * split; [exact E|]. intros q. rewrite Hps, elem_of_app.
        rewrite list_elem_of_union. tauto.
      * split; [exact E|]. intros q. rewrite Hps. cbn. tauto.
    + unfold ArchetypeBuilder.addRequirement at 2.
      destruct (IH B pa Hk) as (ps & E & Hps).
      exists ps. split; [exact E|]. intros q. rewrite Hps. cbn. tauto.
Qed.

(** The two scans leave the subject of the first and the protocol of the
    second alone, so what the builder was told can be read off the
    requirements as declared and as finally left. *)
Lemma required_scans name reqs e1 reqs1 e2 reqs2 :
  Scan (FirstScan IsFirstPass) reqs e1 reqs1 ->
  Scan (SecondScan IsFirstPass) reqs1 e2 reqs2 ->
  requiredProtocols name reqs reqs2 = required name reqs1.
Proof.
  intros S1. revert e2 reqs2.
  induction S1 as [|r ev r1 rs evs rs1 Hstep _ IH]; intros e2 reqs2 S2.
  - inversion S2. reflexivity.
  - inversion S2 as [|r1' ev2 r2 rs1' evs2 rs2 Hstep2 S2']; subst.
    unfold requiredProtocols, required. cbn [zip_with map concat].
    fold (requiredProtocols name rs rs2). fold (required name rs1).
    rewrite (IH _ _ S2'). f_equal.
    inversion Hstep; subst; inversion Hstep2; subst; reflexivity.
Qed.

Lemma checkGenericParams_run gp tc :
  exists params1 reqs1 reqs2 tc' intake scan1 alloc scan2,
    checkGenericParams C IsFirstPass (Some gp) tc
    = Some (Some (mkGenericParamList
                    (wireArchetypes
                       (archetypesOf (NextArchetype tc)
                          (foldl (fun B r => ArchetypeBuilder.addRequirement r B)
                                 (registered params1) reqs1))
                       params1)
                    reqs2), tc') /\
    Forall2 (fun p p' =>
               exists Inherited,
                 clauseCheckedDuring C IsFirstPass tc (tad_inherited p)
                                     Inherited /\
                 p' = setTadInherited Inherited p) (gp_params gp) params1 /\
    Forall intakeEvent intake /\
    Scan (FirstScan IsFirstPass) (gp_requirements gp) scan1 reqs1 /\
    Forall isArchetypeGetNew alloc /\
    Scan (SecondScan IsFirstPass) reqs1 scan2 reqs2 /\
    Log tc' = Log tc ++ intake ++ scan1 ++ AssignArchetypes :: alloc ++ scan2 /\
    NextArchetype tc' = (NextArchetype tc + length params1)%nat /\
    Vars tc' = Vars tc /\ TU tc' = TU tc.
Proof.
  unfold checkGenericParams, bind.
  destruct (addGenericParameters_run (gp_params gp) 0 ArchetypeBuilder.empty tc)
    as (params1 & intake & tc1 & -> & (T1 & V1 & N1 & L1) & F1 & H1).
  unfold ArchetypeBuilder.empty. cbn [app Nat.add].
  fold (registered params1).
  destruct (scanRequirements1_run (gp_requirements gp) (registered params1) tc1)
    as (reqs1 & scan1 & tc2 & -> & (T2 & V2 & N2 & L2) & S1).
  destruct (emit_run AssignArchetypes tc2) as (tc3 & -> & (T3 & V3 & N3 & L3)).
  destruct (assignArchetypes_run
              (foldl (fun B r => ArchetypeBuilder.addRequirement r B)
                     (registered params1) reqs1) tc3)
    as (alloc & tc4 & -> & T4 & V4 & N4 & L4 & F4).
  destruct (scanRequirements2_run reqs1
              (foldl (fun B r => ArchetypeBuilder.addRequirement r B)
                     (registered params1) reqs1) tc4)
    as (reqs2 & B2 & scan2 & tc5 & -> & (T5 & V5 & N5 & L5) & S2).
  exists params1, reqs1, reqs2, tc5, intake, scan1, alloc, scan2.
  split. { cbn [fst]. rewrite N3, N2, N1. reflexivity. }
  do 5 (split; [assumption|]).
  split. { rewrite L5, L4, L3, L2, L1, <- !app_assoc. reflexivity. }
  split.
  { rewrite N5, N4, N3, N2, N1. f_equal.
    assert (Hlen : forall reqs B,
               length (foldl (fun B r => ArchetypeBuilder.addRequirement r B)
                             B reqs) = length B).
    { induction reqs as [|r reqs IH]; intros B; [reflexivity|].
      cbn [foldl]. rewrite IH. destruct r; [|reflexivity].
      unfold ArchetypeBuilder.addRequirement. apply length_fmap. }
    rewrite Hlen. apply length_imap. }
  split; congruence.
Qed.

Lemma foldl_addRequirement_indexed reqs B :
  (forall k pa, B !! k = Some pa -> ArchetypeBuilder.pa_index pa = k) ->
  forall k pa,
    foldl (fun B r => ArchetypeBuilder.addRequirement r B) B reqs !! k
    = Some pa ->
    ArchetypeBuilder.pa_index pa = k.
Proof.
  revert B. induction reqs as [|r reqs IH]; intros B HB; [exact HB|].
  cbn [foldl]. apply IH. intros k pa.
  destruct r as [subject protocol|]; [|apply HB].
  unfold ArchetypeBuilder.addRequirement. rewrite list_lookup_fmap.
  destruct (B !! k) as [pa0|] eqn:E; [|discriminate]. simpl.
  intros [= <-]. specialize (HB _ _ E).
  by destruct (ArchetypeBuilder.targets _ _).
Qed.

Lemma elem_of_protocolsOf t q :
  q ∈ ArchetypeBuilder.protocolsOf t <-> declaresProtocol t q.
Proof.
  unfold ArchetypeBuilder.protocolsOf, declaresProtocol.
  destruct (existentialProtocols t) as [ps|]; cbn.
  - split; [by exists ps | by intros (? & [= <-] & ?)].
  - split; [by intros ?%elem_of_nil | by intros (? & [=] & _)].
Qed.

Lemma elem_of_inheritedProtocols p q :
  q ∈ ArchetypeBuilder.inheritedProtocols (tad_inherited p)
  <-> inheritsProtocol p q.
Proof.
  unfold inheritsProtocol. generalize (tad_inherited p). intros inh.
  induction inh as [|tl inh IH]; cbn.
  - split; [by intros ?%elem_of_nil | by intros (? & ?%elem_of_nil & _)].
  - rewrite list_elem_of_union, IH, elem_of_protocolsOf. split.
    + intros [H | (tl' & Hin & H)].
      * exists tl. split; [left | exact H].
      * exists tl'. split; [by right | exact H].
    + intros (tl' & Hin & H). apply elem_of_cons in Hin as [->|Hin].
      * by left.
      * right. by exists tl'.
Qed.

Lemma targets_spec subject name :
  ArchetypeBuilder.targets subject name = true <-> subject = TIdentifier name.
Proof.
  destruct subject; cbn; try (split; [discriminate | by intros [=]]).
  rewrite String.eqb_eq. split; [by intros -> | by intros [= ->]].
Qed.

Lemma elem_of_requiredProtocols name declared checked q :
  q ∈ requiredProtocols name declared checked
  <-> requiresProtocol name declared checked q.
Proof.
  unfold requiredProtocols, requiresProtocol. revert checked.
  induction declared as [|r declared IH]; intros checked.
  - cbn. split; [by intros ?%elem_of_nil | by intros (? & ? & ? & ? & [=] & _)].
  - destruct checked as [|r' checked].
    { cbn. split; [by intros ?%elem_of_nil|].
      by intros (? & ? & ? & ? & _ & [=] & _). }
    cbn [zip_with concat]. rewrite elem_of_app, IH. split.
    + intros [H | (j & p0 & s' & p' & H1 & H2 & H3)].
      * destruct r as [subject p0|]; [|by apply elem_of_nil in H].
        destruct r' as [s' p'|]; [|by apply elem_of_nil in H].
        cbn in H.
        destruct (ArchetypeBuilder.targets subject name) eqn:Ht;
          [|by apply elem_of_nil in H].
        apply targets_spec in Ht as ->. apply elem_of_protocolsOf in H.
        by exists 0%nat, p0, s', p'.
      * by exists (S j), p0, s', p'.
    + intros ([|j] & p0 & s' & p' & H1 & H2 & H3).
      * left. injection H1 as ->. injection H2 as ->.
        cbn [requirementProtocols].
        rewrite (proj2 (targets_spec _ _) eq_refl).
        by apply elem_of_protocolsOf.
      * right. by exists j, p0, s', p'.
Qed.


(** C4, amended.  [checkGenericParams] logs, in this order: the intake of
    the parameters; the first scan, which validates the protocol operand
    of each Conformance requirement and nothing else; the assignment of
    archetypes; the second scan, which validates the subject of each
    Conformance requirement and the first side of each SameType
    requirement, and the second side only when the first did not fail.
    An operand that fails is replaced by [ErrorType]. *)
Theorem requirement_scans_in_phase_order :
  forall gp tc,
  exists gp' tc' intake scan1 reqs1 alloc scan2,
    checkGenericParams C IsFirstPass (Some gp) tc = Some (Some gp', tc') /\
    Log tc' = Log tc ++ intake ++ scan1 ++ AssignArchetypes :: alloc ++ scan2 /\
    Forall intakeEvent intake /\
    Scan (FirstScan IsFirstPass) (gp_requirements gp) scan1 reqs1 /\
    Forall isArchetypeGetNew alloc /\
    Scan (SecondScan IsFirstPass) reqs1 scan2 (gp_requirements gp').
Proof.
  intros gp tc.
  destruct (checkGenericParams_run gp tc)
    as (params1 & reqs1 & reqs2 & tc' & intake & scan1 & alloc & scan2
        & E & _ & F1 & S1 & F2 & S2 & HL & _).
  eexists _, tc', intake, scan1, reqs1, alloc, scan2.
  split; [exact E|]. by repeat split.
Qed.

Lemma FirstScan_events Req evs Req' :
  FirstScan IsFirstPass Req evs Req' -> Forall genericParamEvent evs.
Proof. intros H. inversion H; by repeat constructor. Qed.

Lemma SecondScan_events Req evs Req' :
  SecondScan IsFirstPass Req evs Req' -> Forall genericParamEvent evs.
Proof. intros H. inversion H; by repeat constructor. Qed.

Lemma Scan_events step reqs evs reqs' :
  (forall Req evs Req', step Req evs Req' -> Forall genericParamEvent evs) ->
  Scan step reqs evs reqs' -> Forall genericParamEvent evs.
Proof.
  intros Hstep S. induction S as [|Req ev Req' rs evs rs' H _ IH];
    [constructor|].
  apply Forall_app; split; [eapply Hstep, H | exact IH].
Qed.

(** [checkGenericParams] on any list, present or not. *)
Lemma checkGenericParams_any ogp tc :
  exists ogp' tc' evs,
    checkGenericParams C IsFirstPass ogp tc = Some (ogp', tc') /\
    Log tc' = Log tc ++ evs /\ Forall genericParamEvent evs /\
    Vars tc' = Vars tc /\ TU tc' = TU tc /\
    (ogp' = None <-> ogp = None).
Proof.
  destruct ogp as [gp|].
  - destruct (checkGenericParams_run gp tc)
      as (p1 & r1 & r2 & tc1 & intake & s1 & al & s2 & E & _ & F1 & S1 & F2
          & S2 & L & _ & V & T).
    eexists _, tc1, _. split; [exact E|]. split; [exact L|].
    split; [|split; [exact V|split; [exact T|by split]]].
    apply Forall_app; split.
    { eapply Forall_impl; [exact F1|]. by intros [] ?; try done; destruct d. }
    apply Forall_app; split; [eapply Scan_events, S1; apply FirstScan_events|].
    constructor; [exact I|].
    apply Forall_app; split; [|eapply Scan_events, S2; apply SecondScan_events].
    eapply Forall_impl; [exact F2|]. by intros [].
  - exists None, tc, []. rewrite app_nil_r. by repeat split.
Qed.

End GenericParamProperties.

(* ===================================================================== *)
(** ** The visitor *)
(* ===================================================================== *)

Section VisitorProperties.

Context {X : Type} (C : Collaborators X) (IsFirstPass IsSecondPass : bool).
Implicit Types (tc : TypeChecker X) (D : Decl).

Lemma bind_Some {A B} (m : M X A) (k : A -> M X B) tc b tc' :
  bind m k tc = Some (b, tc') ->
  exists a tc1, m tc = Some (a, tc1) /\ k a tc1 = Some (b, tc').
Proof.
  unfold bind. destruct (m tc) as [[a tc1]|]; [|discriminate].
  intros H. by exists a, tc1.
Qed.

Lemma bind_ext {A B} (m1 m2 : M X A) (k1 k2 : A -> M X B) tc :
  m1 tc = m2 tc -> (forall a tc1, m1 tc = Some (a, tc1) -> k1 a tc1 = k2 a tc1) ->
  bind m1 k1 tc = bind m2 k2 tc.
Proof.
  intros Hm Hk. unfold bind. rewrite <- Hm.
  destruct (m1 tc) as [[a tc1]|]; [by apply Hk | reflexivity].
Qed.

Lemma forEach_ext {A} (f g : A -> M X A) (l : list A) tc :
  (forall a tc1, a ∈ l -> f a tc1 = g a tc1) ->
  forEach f l tc = forEach g l tc.
Proof.
  revert tc. induction l as [|a l IH]; intros tc H; [reflexivity|].
  cbn [forEach]. apply bind_ext; [apply H; left|].
  intros a' tc1 _. apply bind_ext; [|reflexivity].
  apply IH. intros b tc2 Hb. apply H. by right.
Qed.

(** *** The recursion of [visit] *)

Lemma depth_members D :
  depth D = match D with
            | DOneOf _ ms | DStruct _ ms | DClass _ ms | DProtocol _ ms
            | DExtension _ ms => S (deepest ms)
            | _ => O
            end.
Proof.
  assert (H : forall ms,
             (fix deepest (l : list Decl) : nat :=
                match l with
                | [] => O
                | m :: l' => Nat.max (depth m) (deepest l')
                end) ms = deepest ms).
  { induction ms as [|m ms IH]; [reflexivity|]. cbn. by rewrite IH. }
  destruct D; cbn [depth]; try reflexivity; by rewrite H.
Qed.

Lemma depth_member m ms : m ∈ ms -> (depth m <= deepest ms)%nat.
Proof.
  induction ms as [|m' ms IH]; intros Hm; [by apply elem_of_nil in Hm|].
  cbn [deepest foldr]. fold (deepest ms).
  apply elem_of_cons in Hm as [->|Hm]; [lia|]. specialize (IH Hm). lia.
Qed.

(** The first loop of [visitProtocolDecl] rewrites type aliases only. *)
Lemma assignAssociatedArchetype_depth m tc m' tc' :
  assignAssociatedArchetype C IsFirstPass m tc = Some (m', tc') ->
  depth m' = depth m /\ isTypeAlias m' = isTypeAlias m.
Proof.
  destruct m; cbn [assignAssociatedArchetype]; try (by intros [= <- _]).
  intros H. apply bind_Some in H as (inh & tc1 & _ & H).
  apply bind_Some in H as (U & tc2 & _ & H). by injection H as <- _.
Qed.

Lemma forEach_assign_deepest ms tc ms' tc' :
  forEach (assignAssociatedArchetype C IsFirstPass) ms tc = Some (ms', tc') ->
  deepest ms' = deepest ms.
Proof.
  revert tc ms' tc'. induction ms as [|m ms IH]; intros tc ms' tc'.
  - by intros [= <- _].
  - cbn [forEach]. intros H.
    apply bind_Some in H as (m1 & tc1 & Hm & H).
    apply bind_Some in H as (ms1 & tc2 & Hms & H). injection H as <- _.
    cbn [deepest foldr]. fold (deepest ms1) (deepest ms).
    apply assignAssociatedArchetype_depth in Hm as [-> _].
    by rewrite (IH _ _ _ Hms).
Qed.

Lemma visitDecl_ext (f g : Decl -> M X Decl) D tc :
  (forall d tc1, (depth d < depth D)%nat -> f d tc1 = g d tc1) ->
  visitDecl C IsFirstPass IsSecondPass f D tc
  = visitDecl C IsFirstPass IsSecondPass g D tc.
Proof.
  intros H. rewrite depth_members in H.
  assert (Hms : forall ms tc1,
             (forall d tc2, (depth d < S (deepest ms))%nat -> f d tc2 = g d tc2) ->
             forEach f ms tc1 = forEach g ms tc1).
  { intros ms tc1 H'. apply forEach_ext. intros d tc2 Hd. apply H'.
    apply depth_member in Hd. lia. }
  destruct D; cbn [visitDecl]; try reflexivity.
  - apply bind_ext; [reflexivity|]. intros N tc1 _.
    apply bind_ext; [by apply Hms | reflexivity].
  - apply bind_ext; [reflexivity|]. intros N tc1 _.
    apply bind_ext; [by apply Hms | reflexivity].
  - apply bind_ext; [reflexivity|]. intros N tc1 _.
    apply bind_ext; [by apply Hms | reflexivity].
  - destruct IsSecondPass; [reflexivity|].
    apply bind_ext; [reflexivity|]. intros inh tc1 _.
    apply bind_ext; [reflexivity|]. intros ms1 tc2 Hassign.
    apply bind_ext; [|reflexivity]. apply Hms.
    by rewrite (forEach_assign_deepest _ _ _ _ Hassign).
  - apply bind_ext; [reflexivity|]. intros N tc1 _.
    apply bind_ext; [by apply Hms | reflexivity].
Qed.

Lemma visitN_fuel n m D tc :
  (depth D < n)%nat -> (depth D < m)%nat ->
  visitN C IsFirstPass IsSecondPass n D tc
  = visitN C IsFirstPass IsSecondPass m D tc.
Proof.
  revert m D tc. induction n as [|n IH]; intros m D tc Hn Hm; [lia|].
  destruct m as [|m]; [lia|]. cbn [visitN].
  apply visitDecl_ext. intros d tc1 Hd. apply IH; lia.
Qed.

(** [visit] is the visitor: on every declaration it does what the handler
    of its kind does, with [visit] itself for [visit(Member)]. *)
Lemma visit_unfold D tc :
  visit C IsFirstPass IsSecondPass D tc
  = visitDecl C IsFirstPass IsSecondPass
              (visit C IsFirstPass IsSecondPass) D tc.
Proof.
  unfold visit at 1. cbn [visitN]. apply visitDecl_ext.
  intros d tc1 Hd. unfold visit. apply visitN_fuel; lia.
Qed.

(** *** What each call does to the type checker *)

Lemma callTypeCheckPattern_run P (fp : bool) tc :
  exists failed P' tc',
    callTypeCheckPattern C P fp tc = Some ((failed, P'), tc') /\
    TU tc' = TU tc /\ NextArchetype tc' = NextArchetype tc /\
    Log tc' = Log tc ++ [TypeCheckPattern P fp failed].
Proof.
  unfold callTypeCheckPattern.
  destruct (typeCheckPattern C P fp (Vars tc) (Ext tc)) as [[[failed P'] vs] x].
  exists failed, P'. eexists. by repeat split.
Qed.

Lemma callTypeCheckExpression_run E DestTy tc :
  exists failed E' tc',
    callTypeCheckExpression C E DestTy tc = Some ((failed, E'), tc') /\
    after tc [TypeCheckExpression E DestTy failed] tc'.
Proof.
  unfold callTypeCheckExpression.
  destruct (typeCheckExpression C E DestTy (Ext tc)) as [[failed E'] x].
  exists failed, E'. eexists. by repeat split.
Qed.

Lemma callCoerceToType_run P t (fp : bool) tc :
  exists failed P' tc',
    callCoerceToType C P t fp tc = Some ((failed, P'), tc') /\
    TU tc' = TU tc /\ NextArchetype tc' = NextArchetype tc /\
    Log tc' = Log tc ++ [CoerceToType P t fp failed].
Proof.
  unfold callCoerceToType.
  destruct (coerceToType C P t fp (Vars tc) (Ext tc)) as [[[failed P'] vs] x].
  exists failed, P'. eexists. by repeat split.
Qed.

Lemma callConvertToMaterializable_run E tc :
  exists r tc',
    callConvertToMaterializable C E tc = Some (r, tc') /\
    after tc [ConvertToMaterializable E] tc'.
Proof.
  unfold callConvertToMaterializable.
  destruct (convertToMaterializable C E (Ext tc)) as [r x].
  exists r. eexists. by repeat split.
Qed.

Lemma callSemaFuncExpr_run body (fp : bool) tc :
  exists body' tc',
    callSemaFuncExpr C body fp tc = Some (body', tc') /\
    TU tc' = TU tc /\ NextArchetype tc' = NextArchetype tc /\
    Log tc' = Log tc ++ [SemaFuncExpr body fp].
Proof.
  unfold callSemaFuncExpr.
  destruct (semaFuncExpr C body fp (Vars tc) (Ext tc)) as [[body' vs] x].
  exists body'. eexists. by repeat split.
Qed.

Lemma after_archetypesGrow tc evs tc' : after tc evs tc' -> archetypesGrow tc tc'.
Proof. intros (_ & _ & H & _). unfold archetypesGrow. lia. Qed.

(** *** Archetype identities only grow *)

Lemma grow_callValidateType tl (fp : bool) :
  preserves X archetypesGrow (callValidateType C tl fp).
Proof.
  intros tc a tc' H.
  destruct (callValidateType_run C fp tl tc) as (f & tl' & tc1 & E & A).
  rewrite E in H. injection H as _ <-. eapply after_archetypesGrow, A.
Qed.

Lemma grow_callTypeCheckPattern P (fp : bool) :
  preserves X archetypesGrow (callTypeCheckPattern C P fp).
Proof.
  intros tc a tc' H.
  destruct (callTypeCheckPattern_run P fp tc) as (f & P' & tc1 & E & _ & N & _).
  rewrite E in H. injection H as _ <-. unfold archetypesGrow. lia.
Qed.

Lemma grow_callTypeCheckExpression E DestTy :
  preserves X archetypesGrow (callTypeCheckExpression C E DestTy).
Proof.
  intros tc a tc' H.
  destruct (callTypeCheckExpression_run E DestTy tc) as (f & E' & tc1 & Eq & A).
  rewrite Eq in H. injection H as _ <-. eapply after_archetypesGrow, A.
Qed.

Lemma grow_callCoerceToType P t (fp : bool) :
  preserves X archetypesGrow (callCoerceToType C P t fp).
Proof.
  intros tc a tc' H.
  destruct (callCoerceToType_run P t fp tc) as (f & P' & tc1 & E & _ & N & _).
  rewrite E in H. injection H as _ <-. unfold archetypesGrow. lia.
Qed.

Lemma grow_callConvertToMaterializable E :
  preserves X archetypesGrow (callConvertToMaterializable C E).
Proof.
  intros tc a tc' H.
  destruct (callConvertToMaterializable_run E tc) as (r & tc1 & Eq & A).
  rewrite Eq in H. injection H as _ <-. eapply after_archetypesGrow, A.
Qed.

Lemma grow_callSemaFuncExpr body (fp : bool) :
  preserves X archetypesGrow (callSemaFuncExpr C body fp).
Proof.
  intros tc a tc' H.
  destruct (callSemaFuncExpr_run body fp tc) as (b & tc1 & E & _ & N & _).
  rewrite E in H. injection H as _ <-. unfold archetypesGrow. lia.
Qed.

Lemma grow_callConformsToProtocol T Proto :
  preserves X archetypesGrow (callConformsToProtocol C T Proto).
Proof. intros tc a tc' [= _ <-]. unfold archetypesGrow. cbn. lia. Qed.

Lemma grow_archetypeGetNew name conf idx :
  preserves X archetypesGrow (archetypeGetNew name conf idx).
Proof. intros tc a tc' [= _ <-]. unfold archetypesGrow. cbn. lia. Qed.

Lemma grow_emit e : preserves X archetypesGrow (emit e).
Proof. intros tc a tc' [= _ <-]. unfold archetypesGrow. cbn. lia. Qed.

Lemma grow_lookupVar v : preserves X archetypesGrow (lookupVar v).
Proof.
  intros tc a tc'. unfold lookupVar. destruct (Vars tc !! v); [|discriminate].
  intros [= _ <-]. unfold archetypesGrow. lia.
Qed.

Lemma grow_storeVar v V : preserves X archetypesGrow (storeVar v V).
Proof. intros tc a tc' [= _ <-]. unfold archetypesGrow. cbn. lia. Qed.

Lemma grow_validateAttributes (isFuncDecl : bool) VD :
  preserves X archetypesGrow (validateAttributes isFuncDecl VD).
Proof.
  intros tc a tc' H.
  destruct (validateAttributes_frame _ _ _ _ _ H) as (evs & -> & _).
  unfold archetypesGrow. cbn. lia.
Qed.

Lemma grow_checkGenericParams (fp : bool) ogp :
  preserves X archetypesGrow (checkGenericParams C fp ogp).
Proof.
  intros tc a tc'. destruct ogp as [gp|].
  - destruct (checkGenericParams_run C fp gp tc)
      as (p1 & r1 & r2 & tc1 & i & s1 & al & s2 & E & _ & _ & _ & _ & _ & _
          & N & _).
    rewrite E. intros [= _ <-]. unfold archetypesGrow. lia.
  - intros [= _ <-]. unfold archetypesGrow. lia.
Qed.

End VisitorProperties.

Create HintDb grow.

#[export] Hint Resolve grow_callValidateType grow_callTypeCheckPattern
  grow_callTypeCheckExpression grow_callCoerceToType
  grow_callConvertToMaterializable grow_callSemaFuncExpr
  grow_callConformsToProtocol grow_archetypeGetNew grow_emit grow_lookupVar
  grow_storeVar grow_validateAttributes grow_checkGenericParams : grow.

(** Closes a goal [preserves archetypesGrow m] for a computation [m] made of
    the calls above. *)
Ltac grow_auto :=
  repeat first
    [ solve [eauto with grow]
    | apply preserves_forEach; [apply _ | apply _ | intros]
    | apply preserves_forEach_; [apply _ | apply _ | intros]
    | preserves_step ].

Section VisitorGrowth.

Context {X : Type} (C : Collaborators X) (IsFirstPass IsSecondPass : bool).
Implicit Types (tc : TypeChecker X) (D : Decl).

Lemma grow_checkInherited inh :
  preserves X archetypesGrow (checkInherited C IsFirstPass inh).
Proof. unfold checkInherited, checkInheritedOne, diagnose. grow_auto. Qed.

Lemma grow_checkExplicitConformance T inh :
  preserves X archetypesGrow (checkExplicitConformance C T inh).
Proof. unfold checkExplicitConformance. grow_auto. Qed.

Lemma grow_visitBoundVars P :
  preserves X archetypesGrow (visitBoundVars P).
Proof.
  revert P. fix IH 1. intros P.
  destruct P as [sub ty|fields ty|decl ty|ty|sub ann ty]; cbn [visitBoundVars].
  - apply IH.
  - induction fields as [|f fields IHf]; cbn [forEach_]; grow_auto.
  - unfold diagnose. grow_auto.
  - grow_auto.
  - apply IH.
Qed.

Lemma grow_visitPatternBindingDecl PBD :
  preserves X archetypesGrow
            (visitPatternBindingDecl C IsFirstPass IsSecondPass PBD).
Proof.
  unfold visitPatternBindingDecl, recheckInit, checkInitialized,
    checkPatternOnly, diagnose.
  pose proof grow_visitBoundVars. grow_auto.
Qed.

Lemma grow_visitSubscriptDecl SD :
  preserves X archetypesGrow (visitSubscriptDecl C IsFirstPass IsSecondPass SD).
Proof. unfold visitSubscriptDecl, diagnose. grow_auto. Qed.

Lemma grow_visitTypeAliasDecl TAD :
  preserves X archetypesGrow (visitTypeAliasDecl C IsFirstPass IsSecondPass TAD).
Proof.
  unfold visitTypeAliasDecl.
  pose proof grow_checkInherited. pose proof grow_checkExplicitConformance.
  grow_auto.
Qed.

Lemma grow_visitFuncDecl FD :
  preserves X archetypesGrow (visitFuncDecl C IsFirstPass IsSecondPass FD).
Proof. unfold visitFuncDecl, setThisPattern. grow_auto. Qed.

Lemma grow_visitOneOfElementDecl ED :
  preserves X archetypesGrow
            (visitOneOfElementDecl C IsFirstPass IsSecondPass ED).
Proof. unfold visitOneOfElementDecl, diagnose. grow_auto. Qed.

Lemma grow_visitConstructorDecl CD :
  preserves X archetypesGrow
            (visitConstructorDecl C IsFirstPass IsSecondPass CD).
Proof. unfold visitConstructorDecl, diagnose. grow_auto. Qed.

Lemma grow_visitDestructorDecl DD :
  preserves X archetypesGrow (visitDestructorDecl IsSecondPass DD).
Proof. unfold visitDestructorDecl, diagnose. grow_auto. Qed.

Lemma grow_checkNominalHeader N :
  preserves X archetypesGrow (checkNominalHeader C IsFirstPass IsSecondPass N).
Proof. unfold checkNominalHeader. pose proof grow_checkInherited. grow_auto. Qed.

Lemma grow_checkNominalConformance N :
  preserves X archetypesGrow (checkNominalConformance C IsFirstPass N).
Proof.
  unfold checkNominalConformance.
  pose proof grow_checkExplicitConformance. grow_auto.
Qed.

Lemma grow_impliedConstructor N ms :
  preserves X archetypesGrow (impliedConstructor N ms).
Proof. unfold impliedConstructor. grow_auto. Qed.

Lemma grow_assignAssociatedArchetype m :
  preserves X archetypesGrow (assignAssociatedArchetype C IsFirstPass m).
Proof.
  unfold assignAssociatedArchetype. pose proof grow_checkInherited. grow_auto.
Qed.

Lemma grow_checkExtensionHeader ED :
  preserves X archetypesGrow
            (checkExtensionHeader C IsFirstPass IsSecondPass ED).
Proof.
  unfold checkExtensionHeader, diagnose. pose proof grow_checkInherited.
  grow_auto.
Qed.

Lemma grow_visitDecl (f : Decl -> M X Decl) D :
  (forall d, preserves X archetypesGrow (f d)) ->
  preserves X archetypesGrow (visitDecl C IsFirstPass IsSecondPass f D).
Proof.
  intros Hf.
  pose proof grow_visitPatternBindingDecl. pose proof grow_visitSubscriptDecl.
  pose proof grow_visitTypeAliasDecl. pose proof grow_visitFuncDecl.
  pose proof grow_visitOneOfElementDecl. pose proof grow_visitConstructorDecl.
  pose proof grow_visitDestructorDecl. pose proof grow_checkNominalHeader.
  pose proof grow_checkNominalConformance. pose proof grow_impliedConstructor.
  pose proof grow_assignAssociatedArchetype.
  pose proof grow_checkExtensionHeader. pose proof grow_checkInherited.
  pose proof grow_checkExplicitConformance.
  destruct D; cbn [visitDecl]; grow_auto.
Qed.

Lemma grow_visit D :
  preserves X archetypesGrow (visit C IsFirstPass IsSecondPass D).
Proof.
  unfold visit. generalize (S (depth D)). intros n. revert D.
  induction n as [|n IH]; intros D; cbn [visitN].
  - apply preserves_abort.
  - by apply grow_visitDecl.
Qed.

End VisitorGrowth.


(* ===================================================================== *)
(** ** Constructors *)
(* ===================================================================== *)

Section ConstructorProperties.

Context {X : Type} (C : Collaborators X).
Implicit Types (tc : TypeChecker X).

Lemma filter_none (f : Event -> bool) (P : Event -> Prop) evs :
  (forall e, P e -> f e = false) -> Forall P evs -> List.filter f evs = [].
Proof.
  intros H F. induction F as [|e evs He _ IH]; [reflexivity|].
  cbn. by rewrite (H _ He).
Qed.

(** C8.  A constructor declared outside a type context is diagnosed
    [constructor_not_member] exactly once, and checking goes on as for any
    constructor: the generic parameters are checked, the argument pattern
    is type-checked once, and the declaration is left with the checked
    parameters, with the pattern the checker answered, and with
    [ErrorType] when the checker said the pattern failed and otherwise the
    function type from the type of that pattern to the type of [this],
    polymorphic when there is a generic parameter list; its attributes are
    validated last.  The second pass leaves it alone. *)
Theorem constructor_outside_type_context :
  forall (IsFirstPass : bool) CD tc,
    isTypeContext (getDeclContext (ctor_base CD)) = false ->
    visitConstructorDecl C IsFirstPass true CD tc = Some (CD, tc) /\
    exists GenericParams tc1 (failed : bool) Arguments vs x FnTy base tc' evs,
      checkGenericParams C IsFirstPass (ctor_genericParams CD)
                         (appendLog tc [Diagnose constructor_not_member])
      = Some (GenericParams, tc1) /\
      typeCheckPattern C (ctor_arguments CD) IsFirstPass (Vars tc1) (Ext tc1)
      = (failed, Arguments, vs, x) /\
      FnTy
      = (if failed then TError
         else match GenericParams with
              | Some params =>
                  TPolymorphicFunction (patternType Arguments)
                                       (ctor_thisType CD) (paramNames params)
              | None =>
                  TFunction (patternType Arguments) (ctor_thisType CD)
              end) /\
      validateAttributes false (setType FnTy (ctor_base CD))
        (withVarsExt tc1 vs x
           (TypeCheckPattern (ctor_arguments CD) IsFirstPass failed))
      = Some (base, tc') /\
      visitConstructorDecl C IsFirstPass false CD tc
      = Some (mkConstructorDecl base GenericParams Arguments
                (setType (ctor_thisType CD) (ctor_implicitThis CD))
                (ctor_thisType CD), tc') /\
      getType base = FnTy /\
      (GenericParams = None <-> ctor_genericParams CD = None) /\
      Log tc' = Log tc ++ evs /\
      List.filter isConstructorNotMember evs
      = [Diagnose constructor_not_member] /\
      List.filter isTypeCheckPattern evs
      = [TypeCheckPattern (ctor_arguments CD) IsFirstPass failed].
Proof.
  intros IsFirstPass CD tc Hctx. split; [reflexivity|].
  unfold visitConstructorDecl. rewrite Hctx. cbn [negb].
  unfold bind at 1, diagnose.
  change (emit (Diagnose constructor_not_member) tc)
    with (Some (tt, appendLog tc [Diagnose constructor_not_member])).
  cbv iota.
  destruct (checkGenericParams_any C IsFirstPass (ctor_genericParams CD)
              (appendLog tc [Diagnose constructor_not_member]))
    as (gp & tc1 & e2 & E2 & L2 & F2 & _ & _ & Hgp).
  unfold bind at 1. rewrite E2.
  unfold bind at 1, callTypeCheckPattern.
  destruct (typeCheckPattern C (ctor_arguments CD) IsFirstPass (Vars tc1)
                             (Ext tc1)) as [[[failed Arguments] vs] x] eqn:E3.
  set (tc2 := withVarsExt tc1 vs x
                (TypeCheckPattern (ctor_arguments CD) IsFirstPass failed)).
  set (FnTy := if failed then TError
               else match gp with
                    | Some params =>
                        TPolymorphicFunction (patternType Arguments)
                                             (ctor_thisType CD)
                                             (paramNames params)
                    | None =>
                        TFunction (patternType Arguments) (ctor_thisType CD)
                    end).
  assert (Hbase :
            (if failed then setType TError (ctor_base CD)
             else setType
                    match gp with
                    | Some params =>
                        TPolymorphicFunction (patternType Arguments)
                                             (ctor_thisType CD)
                                             (paramNames params)
                    | None =>
                        TFunction (patternType Arguments) (ctor_thisType CD)
                    end (ctor_base CD))
            = setType FnTy (ctor_base CD)).
  { unfold FnTy. by destruct failed. }
  cbv zeta. rewrite Hbase. unfold bind at 1.
  destruct (validateAttributes_nonfunc_run (setType FnTy (ctor_base CD)) tc2)
    as (base & e4 & E4 & F4 & Hty).
  rewrite E4.
  exists gp, tc1, failed, Arguments, vs, x, FnTy, base, (appendLog tc2 e4),
         ([Diagnose constructor_not_member] ++ e2
          ++ [TypeCheckPattern (ctor_arguments CD) IsFirstPass failed]
          ++ e4).
  split; [reflexivity|]. split; [exact E3|]. split; [reflexivity|].
  split; [exact E4|]. split; [reflexivity|].
  split; [exact Hty|]. split; [exact Hgp|].
  split.
  { cbn [appendLog Log tc2 withVarsExt]. rewrite L2. cbn [appendLog Log].
    by rewrite <- !app_assoc. }
  split.
  { rewrite !List.filter_app.
    rewrite (filter_none _ genericParamEvent e2), (filter_none _ attributeEvent e4);
      try assumption; [reflexivity| |].
    - by intros [[]| | | | | | | | | | | |].
    - by intros [[]| | | | | | | | | | | |]. }
  rewrite !List.filter_app.
  rewrite (filter_none _ genericParamEvent e2), (filter_none _ attributeEvent e4);
    try assumption; [reflexivity| |].
  - by intros [[]| | | | | | | | | | | |].
  - by intros [[]| | | | | | | | | | | |].
Qed.

End ConstructorProperties.

Lemma constructor_outside_type_context_witness :
  isTypeContext (getDeclContext (ctor_base Inputs.strayConstructor)) = false /\
  (visitConstructorDecl Sample.collaborators true true
                        Inputs.strayConstructor Inputs.library
   = Some (Inputs.strayConstructor, Inputs.library) /\
   exists GenericParams tc1 (failed : bool) Arguments vs x FnTy base tc' evs,
     checkGenericParams Sample.collaborators true
       (ctor_genericParams Inputs.strayConstructor)
       (appendLog Inputs.library [Diagnose constructor_not_member])
     = Some (GenericParams, tc1) /\
     typeCheckPattern Sample.collaborators
       (ctor_arguments Inputs.strayConstructor) true (Vars tc1) (Ext tc1)
     = (failed, Arguments, vs, x) /\
     FnTy
     = (if failed then TError
        else match GenericParams with
             | Some params =>
                 TPolymorphicFunction (patternType Arguments)
                   (ctor_thisType Inputs.strayConstructor) (paramNames params)
             | None =>
                 TFunction (patternType Arguments)
                           (ctor_thisType Inputs.strayConstructor)
             end) /\
     validateAttributes false
       (setType FnTy (ctor_base Inputs.strayConstructor))
       (withVarsExt tc1 vs x
          (TypeCheckPattern (ctor_arguments Inputs.strayConstructor) true
                            failed))
     = Some (base, tc') /\
     visitConstructorDecl Sample.collaborators true false
                          Inputs.strayConstructor Inputs.library
     = Some (mkConstructorDecl base GenericParams Arguments
               (setType (ctor_thisType Inputs.strayConstructor)
                        (ctor_implicitThis Inputs.strayConstructor))
               (ctor_thisType Inputs.strayConstructor), tc') /\
     getType base = FnTy /\
     (GenericParams = None
      <-> ctor_genericParams Inputs.strayConstructor = None) /\
     Log tc' = Log Inputs.library ++ evs /\
     List.filter isConstructorNotMember evs
     = [Diagnose constructor_not_member] /\
     List.filter isTypeCheckPattern evs
     = [TypeCheckPattern (ctor_arguments Inputs.strayConstructor) true
                         failed]) /\
  exists CD' tc',
    visitConstructorDecl Sample.collaborators true false
                         Inputs.strayConstructor Inputs.library
    = Some (CD', tc') /\
    getType (ctor_base CD')
    = TFunction emptyTuple (ctor_thisType Inputs.strayConstructor) /\
    diagnosticsOf (Log tc') = [constructor_not_member].
Proof.
  split; [reflexivity|]. split.
  - apply (constructor_outside_type_context
             Sample.collaborators true Inputs.strayConstructor Inputs.library).
    reflexivity.
  - eexists _, _. split; [vm_compute; reflexivity|]. split; reflexivity.
Defined.

(* ===================================================================== *)
(** ** Structs *)
(* ===================================================================== *)

Section StructProperties.

Context {X : Type} (C : Collaborators X).
Implicit Types (tc : TypeChecker X) (vars : gmap nat VarDecl).

(** The loop of lines 308-312 collects the fields the specification
    names. *)
Lemma collectTupleElts_fields vars members TupleElts :
  collectTupleElts vars members = Some TupleElts ->
  TupleElts = nonPropertyFields vars members.
Proof.
  revert TupleElts.
  induction members as [|Member members IH]; intros TupleElts.
  - by intros [= <-].
  - unfold nonPropertyFields. cbn [omap list_omap].
    fold (nonPropertyFields vars members).
    destruct Member; cbn [collectTupleElts nonPropertyField]; try apply IH.
    destruct (vars !! v) as [VarD|]; [|discriminate]. cbn.
    destruct (collectTupleElts vars members) as [elts|]; [|discriminate].
    cbn. intros [= <-]. rewrite (IH elts eq_refl).
    by destruct (isProperty VarD).
Qed.

Lemma replace_last (members : list Decl) (old new : Decl) :
  last members = Some old ->
  exists front,
    members = front ++ [old] /\
    <[pred (length members) := new]> members = front ++ [new].
Proof.
  intros H. apply last_Some in H as [front ->]. exists front.
  split; [reflexivity|]. rewrite length_app. cbn [length].
  replace (pred (length front + 1)) with (length front + 0)%nat by lia.
  by rewrite insert_app_r.
Qed.

Lemma sameVars_checkExplicitConformance T inh :
  preserves X sameVars (checkExplicitConformance C T inh).
Proof.
  unfold checkExplicitConformance.
  apply preserves_forEach_; [apply _ | apply _ |]. intros tl.
  destruct (existentialProtocols (tl_type tl)); [|apply preserves_ret; apply _].
  apply preserves_forEach_; [apply _ | apply _ |]. intros Proto.
  by intros tc a tc' [= _ <-].
Qed.

(** Visiting a member neither makes nor unmakes a variable: a [VarDecl]
    is returned as it is, and every other declaration keeps its kind. *)
Lemma visit_nonPropertyField (fp sp : bool) vars D tc D' tc' :
  visit C fp sp D tc = Some (D', tc') ->
  nonPropertyField vars D' = nonPropertyField vars D.
Proof.
  rewrite visit_unfold. intros H.
  destruct D; cbn [visitDecl] in H;
    try (destruct sp; [by injection H as <- _|]);
    repeat (apply bind_Some in H as (? & ? & _ & H));
    try discriminate; by injection H as <- _.
Qed.

Lemma forEach_visit_nonPropertyFields (fp sp : bool) vars members tc
      members' tc' :
  forEach (visit C fp sp) members tc = Some (members', tc') ->
  nonPropertyFields vars members' = nonPropertyFields vars members.
Proof.
  revert tc members'.
  induction members as [|D members IH]; intros tc members' H.
  - by injection H as <- _.
  - cbn [forEach] in H.
    apply bind_Some in H as (D1 & tc1 & HD & H).
    apply bind_Some in H as (ms1 & tc2 & Hms & H). injection H as <- <-.
    unfold nonPropertyFields. cbn [omap list_omap].
    fold (nonPropertyFields vars ms1). fold (nonPropertyFields vars members).
    by rewrite (visit_nonPropertyField _ _ _ _ _ _ _ HD), (IH _ _ Hms).
Qed.

(** C2.  After a struct is visited outside the second pass, its members
    are the declared ones as their visits left them, but for the last,
    the implied constructor: it is given the function type from the tuple
    of the non-property member variables of the struct as declared (in
    declaration order, each labeled with its name and with the type the
    variable has once the members are visited) to the struct's declared
    type, and that tuple as its argument type. *)
Theorem implied_constructor_type :
  forall (IsFirstPass : bool) SD members tc D' tc',
    visit C IsFirstPass false (DStruct SD members) tc = Some (D', tc') ->
    exists SD' tc1 front ElementCtor tc2 TT,
      checkNominalHeader C IsFirstPass false SD tc = Some (SD', tc1) /\
      forEach (visit C IsFirstPass false) members tc1
      = Some (front ++ [DOneOfElement ElementCtor], tc2) /\
      Vars tc' = Vars tc2 /\
      TT = TTuple (nonPropertyFields (Vars tc2) members) /\
      D' = DStruct SD'
             (front
              ++ [DOneOfElement
                    (mkOneOfElementDecl
                       (setType (TFunction TT (ntd_declaredTypeInContext SD))
                                (ooe_base ElementCtor))
                       (mkTypeLoc TT))]).
Proof.
  intros IsFirstPass SD members tc D' tc' H.
  rewrite visit_unfold in H. cbn [visitDecl negb] in H.
  apply bind_Some in H as (SD1 & tc1 & Hhead & H).
  apply bind_Some in H as (ms1 & tc2 & Hms & H).
  apply bind_Some in H as (ms2 & tc3 & Hctor & H).
  apply bind_Some in H as ([] & tc4 & Hconf & H). injection H as <- <-.
  assert (HSD : ntd_declaredTypeInContext SD1 = ntd_declaredTypeInContext SD).
  { pose proof Hhead as Hh. unfold checkNominalHeader in Hh. cbn [negb] in Hh.
    apply bind_Some in Hh as (inh & ? & _ & Hh).
    apply bind_Some in Hh as (gp & ? & _ & Hh).
    by injection Hh as <- _. }
  assert (HV : Vars tc4 = Vars tc3).
  { unfold checkNominalConformance in Hconf.
    destruct (negb IsFirstPass).
    - eapply sameVars_checkExplicitConformance, Hconf.
    - by injection Hconf as <-. }
  unfold impliedConstructor, bind, getTC in Hctor.
  destruct (collectTupleElts (Vars tc2) ms1) as [TupleElts|] eqn:Helts;
    [|discriminate].
  apply collectTupleElts_fields in Helts.
  rewrite (forEach_visit_nonPropertyFields _ _ _ _ _ _ _ Hms) in Helts.
  destruct (last ms1) as [[| | | | | | | | |ElementCtor| | | | |]|] eqn:Hlast;
    try discriminate.
  injection Hctor as <- <-.
  match goal with
  | |- context [<[_ := ?new]> ms1] =>
      destruct (replace_last ms1 _ new Hlast) as (front & Hms1 & ->)
  end.
  exists SD1, tc1, front, ElementCtor, tc2, (TTuple TupleElts).
  split; [exact Hhead|]. split; [by rewrite <- Hms1|].
  split; [exact HV|]. split; [by rewrite Helts|]. by rewrite HSD.
Qed.

End StructProperties.

Lemma implied_constructor_type_witness :
  exists D' tc',
    visit Sample.collaborators true false Inputs.pointDecl
          (Sample.start Sample.emptyLibrary Inputs.pointVars)
    = Some (D', tc') /\
    (exists SD' tc1 front ElementCtor tc2 TT,
       checkNominalHeader Sample.collaborators true false
         (Inputs.nominal "Point" (TStruct "Point"))
         (Sample.start Sample.emptyLibrary Inputs.pointVars)
       = Some (SD', tc1) /\
       forEach (visit Sample.collaborators true false)
               (getMembers Inputs.pointDecl) tc1
       = Some (front ++ [DOneOfElement ElementCtor], tc2) /\
       Vars tc' = Vars tc2 /\
       TT = TTuple (nonPropertyFields (Vars tc2)
                                      (getMembers Inputs.pointDecl)) /\
       D' = DStruct SD'
              (front
               ++ [DOneOfElement
                     (mkOneOfElementDecl
                        (setType (TFunction TT (TStruct "Point"))
                                 (ooe_base ElementCtor))
                        (mkTypeLoc TT))])) /\
    exists ElementCtor,
      last (getMembers D') = Some (DOneOfElement ElementCtor) /\
      getType (ooe_base ElementCtor)
      = TFunction (TTuple [mkTupleTypeElt Inputs.Int "x" false])
                  (TStruct "Point") /\
      ooe_argumentTy ElementCtor
      = mkTypeLoc (TTuple [mkTupleTypeElt Inputs.Int "x" false]).
Proof.
  destruct (visit Sample.collaborators true false Inputs.pointDecl
                  (Sample.start Sample.emptyLibrary Inputs.pointVars))
    as [[D' tc']|] eqn:E; [|vm_compute in E; discriminate].
  exists D', tc'. split; [reflexivity|]. split.
  - exact (implied_constructor_type Sample.collaborators true _ _ _ _ _ E).
  - vm_compute in E. injection E as <- _. eexists. by repeat split.
Defined.

(* ===================================================================== *)
(** ** Protocols *)
(* ===================================================================== *)

Section ProtocolProperties.

Context {X : Type} (C : Collaborators X) (IsFirstPass : bool).
Implicit Types (tc : TypeChecker X).

(** The contract of the validator (section 4.1 of the specification), as
    far as it is needed here: validating a location that already holds an
    archetype succeeds and leaves the location alone. *)
Hypothesis validateType_resolved :
  forall id name conformsTo index fp x,
  exists x',
    validateType C (mkTypeLoc (TArchetype id name conformsTo index)) fp x
    = (false, mkTypeLoc (TArchetype id name conformsTo index), x').

Lemma holdsNewArchetype_weaken lo hi lo' hi' m m' :
  (lo' <= lo)%nat -> (hi <= hi')%nat ->
  holdsNewArchetype lo hi m m' -> holdsNewArchetype lo' hi' m m'.
Proof.
  intros Hlo Hhi. destruct m; cbn; try done.
  intros (T & id & conf & -> & Hb & Hu & Hid).
  exists T, id, conf. repeat split; try assumption; lia.
Qed.

Lemma visit_kind (sp : bool) D tc D' tc' :
  visit C IsFirstPass sp D tc = Some (D', tc') ->
  isTypeAlias D' = isTypeAlias D.
Proof.
  rewrite visit_unfold. intros H.
  destruct D; cbn [visitDecl] in H;
    try (destruct sp; [by injection H as <- _|]);
    repeat (apply bind_Some in H as (? & ? & _ & H));
    try discriminate; by injection H as <- _.
Qed.

Lemma assignAssociatedArchetype_new m tc m' tc' :
  assignAssociatedArchetype C IsFirstPass m tc = Some (m', tc') ->
  holdsNewArchetype (NextArchetype tc) (NextArchetype tc') m m'.
Proof.
  intros H.
  destruct m; cbn [assignAssociatedArchetype] in H;
    try (injection H as <- _; reflexivity).
  apply bind_Some in H as (inh & tc1 & Hinh & H).
  apply bind_Some in H as (U & tc2 & HU & H). injection H as <- <-.
  apply grow_checkInherited in Hinh. unfold archetypesGrow in Hinh.
  injection HU as <- <-. cbn.
  eexists _, _, _. split; [reflexivity|]. split; [reflexivity|].
  split; [reflexivity|]. lia.
Qed.

Lemma forEach_assign_new ms tc ms' tc' :
  forEach (assignAssociatedArchetype C IsFirstPass) ms tc = Some (ms', tc') ->
  Forall2 (holdsNewArchetype (NextArchetype tc) (NextArchetype tc')) ms ms'.
Proof.
  revert tc ms' tc'. induction ms as [|m ms IH]; intros tc ms' tc' H.
  - injection H as <- _. constructor.
  - cbn [forEach] in H.
    apply bind_Some in H as (m1 & tc1 & Hm & H).
    apply bind_Some in H as (ms1 & tc2 & Hms & H). injection H as <- <-.
    pose proof (grow_assignAssociatedArchetype C IsFirstPass _ _ _ _ Hm) as G1.
    assert (G2 : archetypesGrow tc1 tc2).
    { eapply (preserves_forEach archetypesGrow), Hms.
      apply grow_assignAssociatedArchetype. }
    unfold archetypesGrow in G1, G2.
    constructor.
    + eapply holdsNewArchetype_weaken, assignAssociatedArchetype_new, Hm; lia.
    + eapply Forall2_impl; [apply (IH _ _ _ Hms)|].
      intros a b. apply holdsNewArchetype_weaken; lia.
Qed.

(** Visiting a type alias that holds an archetype leaves the archetype in
    place. *)
Lemma visit_typealias_archetype TAD id name conf index tc D' tc' :
  tl_type (tad_underlying TAD) = TArchetype id name conf index ->
  visit C IsFirstPass false (DTypeAlias TAD) tc = Some (D', tc') ->
  exists TAD',
    D' = DTypeAlias TAD' /\ tad_base TAD' = tad_base TAD /\
    tad_underlying TAD' = tad_underlying TAD.
Proof.
  intros HU H. rewrite visit_unfold in H. cbn [visitDecl] in H.
  apply bind_Some in H as (TAD' & tc1 & H & Hret). injection Hret as <- _.
  exists TAD'. split; [reflexivity|].
  unfold visitTypeAliasDecl in H. cbn [negb] in H.
  apply bind_Some in H as (T1 & tc2 & H1 & H).
  apply bind_Some in H as (? & ? & _ & H). injection H as <- _.
  apply bind_Some in H1 as ([failed tl] & tc3 & Hval & H1).
  unfold callValidateType in Hval.
  destruct TAD as [base [U] inh decl]. cbn in HU. subst U.
  destruct (validateType_resolved id name conf index IsFirstPass (Ext tc))
    as (x' & Ex).
  cbn [tad_underlying] in Hval. rewrite Ex in Hval.
  injection Hval as <- <- _. cbn [snd] in H1.
  destruct (negb (isProtocolContext _)).
  - apply bind_Some in H1 as (inh' & ? & _ & H1). by injection H1 as <- _.
  - by injection H1 as <- _.
Qed.

Lemma forEach_visit_keeps lo hi ms msA tc ms' tc' :
  Forall2 (holdsNewArchetype lo hi) ms msA ->
  forEach (visit C IsFirstPass false) msA tc = Some (ms', tc') ->
  Forall2 (holdsNewArchetype lo hi) ms ms'.
Proof.
  intros F. revert tc ms' tc'.
  induction F as [|m mA ms msA Hm _ IH]; intros tc ms' tc' H.
  - injection H as <- _. constructor.
  - cbn [forEach] in H.
    apply bind_Some in H as (m1 & tc1 & Hv & H).
    apply bind_Some in H as (ms1 & tc2 & Hms & H). injection H as <- _.
    constructor; [|by eapply IH].
    destruct m; cbn in Hm |- *;
      try (by rewrite (visit_kind _ _ _ _ _ Hv)).
    destruct Hm as (TA & id & conf & -> & Hb & Hu & Hid).
    destruct (visit_typealias_archetype _ _ _ _ _ _ _ _ Hu Hv)
      as (T1 & -> & Hb1 & Hu1).
    exists T1, id, conf. rewrite Hb1, Hu1.
    split; [reflexivity|]. split; [exact Hb|]. by split.
Qed.

(** One visit of a protocol outside the second pass. *)
Lemma visit_protocol_new PD members tc D' tc' :
  visit C IsFirstPass false (DProtocol PD members) tc = Some (D', tc') ->
  exists PD' members',
    D' = DProtocol PD' members' /\
    Forall2 (holdsNewArchetype (NextArchetype tc) (NextArchetype tc'))
            members members'.
Proof.
  intros H. rewrite visit_unfold in H. cbn [visitDecl] in H.
  apply bind_Some in H as (inh & tc1 & Hinh & H).
  apply bind_Some in H as (msA & tc2 & HA & H).
  apply bind_Some in H as (ms1 & tc3 & Hv & H). injection H as <- <-.
  eexists _, ms1. split; [reflexivity|].
  apply grow_checkInherited in Hinh.
  assert (G : archetypesGrow tc2 tc3).
  { eapply (preserves_forEach archetypesGrow), Hv. apply grow_visit. }
  unfold archetypesGrow in Hinh, G.
  eapply forEach_visit_keeps; [|exact Hv].
  eapply Forall2_impl; [apply (forEach_assign_new _ _ _ _ HA)|].
  intros a b. apply holdsNewArchetype_weaken; lia.
Qed.

(** C6, amended.  Visiting a protocol in the second pass changes nothing.
    Visiting it outside the second pass is not idempotent: a second visit
    gives every associated type alias an archetype made during that
    visit, of the same name and index as, and distinct from, the one the
    first visit wrote. *)
Theorem protocol_revisit_replaces_archetypes :
  forall PD members tc D1 tc1 D2 tc2,
    visit C IsFirstPass false (DProtocol PD members) tc = Some (D1, tc1) ->
    visit C IsFirstPass false D1 tc1 = Some (D2, tc2) ->
    visit C IsFirstPass true D1 tc1 = Some (D1, tc1) /\
    exists PD1 members1 PD2 members2,
      D1 = DProtocol PD1 members1 /\ D2 = DProtocol PD2 members2 /\
      length members2 = length members1 /\
      forall i TAD1,
        members1 !! i = Some (DTypeAlias TAD1) ->
        exists TAD2 id1 id2 conf1 conf2,
          members2 !! i = Some (DTypeAlias TAD2) /\
          tl_type (tad_underlying TAD1)
          = TArchetype id1 (getName (tad_base TAD1)) conf1
                       (associatedIndex (getName (tad_base TAD1))) /\
          tl_type (tad_underlying TAD2)
          = TArchetype id2 (getName (tad_base TAD1)) conf2
                       (associatedIndex (getName (tad_base TAD1))) /\
          (id1 < id2)%nat.
Proof.
  intros PD members tc D1 tc1 D2 tc2 H1 H2.
  destruct (visit_protocol_new _ _ _ _ _ H1) as (PD1 & ms1 & -> & F1).
  destruct (visit_protocol_new _ _ _ _ _ H2) as (PD2 & ms2 & -> & F2).
  split; [by rewrite visit_unfold|].
  exists PD1, ms1, PD2, ms2. split; [reflexivity|]. split; [reflexivity|].
  split; [symmetry; eapply Forall2_length, F2|].
  intros i TAD1 Hi.
  destruct (Forall2_lookup_l _ _ _ _ _ F2 Hi) as (m2 & Hm2 & Hnew2).
  destruct (Forall2_lookup_r _ _ _ _ _ F1 Hi) as (m0 & Hm0 & Hnew1).
  cbn in Hnew2. destruct Hnew2 as (TAD2 & id2 & conf2 & -> & _ & Hu2 & Hid2).
  destruct m0; cbn in Hnew1; try discriminate.
  destruct Hnew1 as (T & id1 & conf1 & [= <-] & Hb & Hu1 & Hid1).
  exists TAD2, id1, id2, conf1, conf2. rewrite Hb.
  split; [exact Hm2|]. split; [exact Hu1|].
  split; [by rewrite <- Hb|]. lia.
Qed.

End ProtocolProperties.

(* ===================================================================== *)
(** ** Pattern bindings *)
(* ===================================================================== *)

Section BindingProperties.

Context {X : Type} (C : Collaborators X).
Implicit Types (tc : TypeChecker X).

Lemma callTypeCheckPattern_inv P (fp : bool) tc failed P' tc' :
  callTypeCheckPattern C P fp tc = Some ((failed, P'), tc') ->
  Log tc' = Log tc ++ [TypeCheckPattern P fp failed].
Proof.
  intros H.
  destruct (callTypeCheckPattern_run C P fp tc) as (f & Q & tc1 & E & _ & _ & L).
  rewrite E in H. by injection H as <- _ <-.
Qed.

Lemma callTypeCheckExpression_inv E DestTy tc failed E' tc' :
  callTypeCheckExpression C E DestTy tc = Some ((failed, E'), tc') ->
  Log tc' = Log tc ++ [TypeCheckExpression E DestTy failed].
Proof.
  intros H.
  destruct (callTypeCheckExpression_run C E DestTy tc)
    as (f & Q & tc1 & Eq & _ & _ & _ & L).
  rewrite Eq in H. by injection H as <- _ <-.
Qed.

Lemma callConvertToMaterializable_inv E tc r tc' :
  callConvertToMaterializable C E tc = Some (r, tc') ->
  Log tc' = Log tc ++ [ConvertToMaterializable E].
Proof.
  intros H.
  destruct (callConvertToMaterializable_run C E tc)
    as (r1 & tc1 & Eq & _ & _ & _ & L).
  rewrite Eq in H. by injection H as _ <-.
Qed.

Lemma callCoerceToType_inv P t (fp : bool) tc failed P' tc' :
  callCoerceToType C P t fp tc = Some ((failed, P'), tc') ->
  Log tc' = Log tc ++ [CoerceToType P t fp failed].
Proof.
  intros H.
  destruct (callCoerceToType_run C P t fp tc) as (f & Q & tc1 & E & _ & _ & L).
  rewrite E in H. by injection H as <- _ <-.
Qed.

Lemma diagnose_inv d tc u tc' :
  diagnose d tc = Some (u, tc') -> Log tc' = Log tc ++ [Diagnose d].
Proof. by intros [= _ <-]. Qed.

(** [visitBoundVars] logs diagnostics of its own and of attribute
    validation only. *)
Lemma logged_visitBoundVars P :
  preserves X (logged boundVarEvent) (visitBoundVars P).
Proof.
  assert (Hlookup : forall v, preserves X (logged boundVarEvent) (lookupVar v)).
  { intros v tc a tc'. unfold lookupVar.
    destruct (Vars tc !! v); [|discriminate]. intros [= _ <-]. reflexivity. }
  assert (Hstore : forall v V,
             preserves X (logged boundVarEvent) (storeVar v V)).
  { intros v V tc a tc' [= _ <-]. exists []. cbn. by rewrite app_nil_r. }
  assert (Hattr : forall VD,
             preserves X (logged boundVarEvent) (validateAttributes false VD)).
  { intros VD tc a tc' H. apply validateAttributes_frame in H.
    apply onlyLogged_logged. eapply onlyLogged_mono; [|exact H].
    by intros [[]| | | | | | | | | | | |]. }
  revert P. fix IH 1. intros P.
  destruct P as [sub ty|fields ty|decl ty|ty|sub ann ty]; cbn [visitBoundVars].
  - apply IH.
  - induction fields as [|f fields IHf]; cbn [forEach_].
    + apply preserves_ret; apply _.
    + apply preserves_bind; [apply _ | apply IH | intros; apply IHf].
  - apply preserves_bind; [apply _ | apply Hlookup |]. intros V.
    apply preserves_bind; [apply _ | |].
    + destruct (negb (isMaterializable (getType (var_base V)))).
      * apply preserves_bind; [apply _ | by apply logged_emit |]. intros _.
        apply preserves_bind; [apply _ | apply Hstore |]. intros _.
        apply preserves_ret; apply _.
      * apply preserves_ret; apply _.
    + intros VD. apply preserves_bind; [apply _ | apply Hattr |].
      intros VD'. apply Hstore.
  - apply preserves_ret; apply _.
  - apply IH.
Qed.

(** The calls of lines 221-244. *)
Lemma checkInitialized_calls PBD Init tc go PBD' tc' :
  checkInitialized C PBD Init tc = Some ((go, PBD'), tc') ->
  exists o, Log tc' = Log tc ++ initializerCalls (pbd_pattern PBD) Init o.
Proof.
  unfold checkInitialized, initializerCalls. intros H.
  apply bind_Some in H as ([[go1 PBD1] DestTy] & tc1 & H1 & H).
  destruct (isTypedPattern (pbd_pattern PBD)) eqn:Htyped.
  - (* a typed pattern: it is checked first *)
    apply bind_Some in H1 as ([failed0 P'] & tc0 & Hp & H1).
    apply callTypeCheckPattern_inv in Hp. cbn [fst snd] in H1.
    destruct failed0.
    + injection H1 as <- <- <- <-. cbn [negb] in H. injection H as _ _ <-.
      exists (mkBindingOutcomes true P' false Init None false).
      cbn. by rewrite ?app_nil_r.
    + injection H1 as <- <- <- <-. cbn [negb] in H.
      apply bind_Some in H as ([failed1 Init1] & tc2 & He & H).
      apply callTypeCheckExpression_inv in He.
      destruct failed1.
      * apply bind_Some in H as (u & tc3 & Hd & H). injection H as _ _ <-.
        exists (mkBindingOutcomes false P' true Init1 None false). cbn.
        destruct (isNull (patternType P')); cbn [negb] in Hd.
        -- injection Hd as _ <-. by rewrite He, Hp, <- app_assoc.
        -- apply diagnose_inv in Hd. by rewrite Hd, He, Hp, <- !app_assoc.
      * apply bind_Some in H as (Init2 & tc3 & Hc & H).
        cbn [pbd_pattern setInit setPattern] in H.
        destruct (isNull (patternType P')) eqn:Hnull.
        -- apply bind_Some in Hc as (newInit & tc4 & Hc & Hr).
           injection Hr as <- <-.
           apply callConvertToMaterializable_inv in Hc.
           apply bind_Some in H as ([failed2 P2] & tc5 & Hco & H).
           injection H as _ _ <-. apply callCoerceToType_inv in Hco.
           exists (mkBindingOutcomes false P' false Init1 newInit failed2).
           cbn. rewrite Hnull, Hco, Hc, He, Hp, <- !app_assoc. reflexivity.
        -- injection Hc as <- <-. injection H as _ _ <-.
           exists (mkBindingOutcomes false P' false Init1 None false).
           cbn. rewrite Hnull, He, Hp, <- !app_assoc. reflexivity.
  - (* no destination type *)
    injection H1 as <- <- <- <-. cbn [negb isNull] in H.
    apply bind_Some in H as ([failed1 Init1] & tc2 & He & H).
    apply callTypeCheckExpression_inv in He.
    destruct failed1.
    + apply bind_Some in H as (u & tc3 & Hd & H). injection H as _ _ <-.
      injection Hd as _ <-.
      exists (mkBindingOutcomes false (pbd_pattern PBD) true Init1 None false).
      cbn. by rewrite He.
    + apply bind_Some in H as (Init2 & tc3 & Hc & H).
      apply bind_Some in Hc as (newInit & tc4 & Hc & Hr).
      injection Hr as <- <-. apply callConvertToMaterializable_inv in Hc.
      apply bind_Some in H as ([failed2 P2] & tc5 & Hco & H).
      injection H as _ _ <-. apply callCoerceToType_inv in Hco.
      cbn [pbd_pattern setInit] in Hco.
      exists (mkBindingOutcomes false (pbd_pattern PBD) false Init1 newInit
                                failed2).
      cbn. rewrite Hco, Hc, He, <- !app_assoc. reflexivity.
Qed.

Lemma checkPatternOnly_calls (IsFirstPass Delay : bool) PBD tc go PBD' tc' :
  checkPatternOnly C IsFirstPass Delay PBD tc = Some ((go, PBD'), tc') ->
  exists o,
    Log tc' = Log tc ++ patternCalls IsFirstPass Delay (pbd_pattern PBD) o.
Proof.
  unfold checkPatternOnly, patternCalls. intros H.
  destruct (negb IsFirstPass || negb Delay).
  - apply bind_Some in H as ([failed P'] & tc1 & Hp & H).
    injection H as _ _ <-. apply callTypeCheckPattern_inv in Hp.
    by exists (mkBindingOutcomes failed P' false (mkExpr 0 TNull) None false).
  - injection H as _ _ <-.
    exists (mkBindingOutcomes false (pbd_pattern PBD) false (mkExpr 0 TNull)
                              None false).
    by rewrite app_nil_r.
Qed.


End BindingProperties.

(** C7, as stated, fails: a variable whose type is [ErrorType] and that
    carries [byref] is diagnosed by attribute validation, and so is an
    operator function of type [ErrorType] that carries [infix], by the
    check that an infix operator takes two arguments. *)
Lemma error_type_still_diagnosed :
  getType Inputs.poisonedByref = TError /\
  validateAttributes false Inputs.poisonedByref Inputs.library
  = Some (mutateAttrs (setByref false) Inputs.poisonedByref,
          appendLog Inputs.library
                    [Diagnose (invalid_decl_attribute "byref")]) /\
  getType Inputs.poisonedInfix = TError /\
  validateAttributes true Inputs.poisonedInfix Inputs.library
  = Some (mutateAttrs (setInfix InfixInvalid) Inputs.poisonedInfix,
          appendLog Inputs.library [Diagnose invalid_infix_left_input]).
Proof. repeat split. Qed.

Lemma error_type_has_no_argument_count_witness :
  getType Inputs.poisonedByref = TError /\
  exists VD' evs,
    validateAttributes false Inputs.poisonedByref Inputs.library
      = Some (VD', appendLog Inputs.library evs) /\
    getType VD' = TError /\
    Forall nonArityEvent evs /\
    (isOperator Inputs.poisonedByref = false ->
     getAttrs Inputs.poisonedByref = noAttrs ->
     evs = [] /\ VD' = Inputs.poisonedByref).
Proof.
  split; [reflexivity|].
  apply (error_type_has_no_argument_count
           false Inputs.poisonedByref Inputs.library).
  reflexivity.
Defined.

(** C5: with no infix [+] in the translation unit and one in each of two
    imported modules, the binary [+] ends with the attribute of the second
    module, not of the first. *)
Theorem infix_taken_from_later_module :
  isOperator Inputs.floatPlus = true /\
  numArguments (getType Inputs.floatPlus) = 2 /\
  isInfix (getAttrs Inputs.floatPlus) = false /\
  exists VD' tc',
    validateAttributes true Inputs.floatPlus Inputs.twoModules
      = Some (VD', tc') /\
    Infix (getAttrs VD') = InfixValid AssocLeft 200 /\
    diagnosticsOf (Log tc') = [].
Proof.
  repeat split. eexists _, _. repeat split; reflexivity.
Qed.

(** C4, as stated, fails: when the first side of a SameType requirement
    does not resolve, the second side is not validated, and is left as
    written although it would not resolve either. *)
Lemma second_side_not_validated :
  (Sample.validateType (mkTypeLoc (TIdentifier "Missing")) true 1).1.1 = true /\
  exists gp' tc',
    checkGenericParams Sample.collaborators true
                       (Some Inputs.unresolvedSameType) Inputs.library
    = Some (Some gp', tc') /\
    gp_requirements gp' = [SameType TError (TIdentifier "Missing")] /\
    Log tc'
    = [AddGenericParameter "T" 0;
       AddRequirement (SameType (TIdentifier "Missing")
                                (TIdentifier "Missing"));
       AssignArchetypes; ArchetypeGetNew 0;
       ValidateType (TIdentifier "Missing") true true].
Proof.
  split; [reflexivity|]. eexists _, _.
  split; [vm_compute; reflexivity|]. split; reflexivity.
Qed.

(** C1: the type slot of an element whose payload type does not resolve is
    still empty after both passes over its oneof, and so is the type slot
    of a subscript whose index pattern does not type-check after both
    passes over its struct. *)
Theorem failed_member_keeps_empty_type_slot :
  (exists OOD1 ED1 tc1 OOD2 ED2 tc2,
     typeCheckDecl Sample.collaborators Inputs.maybeDecl true Inputs.library
     = Some (DOneOf OOD1 [DOneOfElement ED1], tc1) /\
     typeCheckDecl Sample.collaborators (DOneOf OOD1 [DOneOfElement ED1])
                   false tc1
     = Some (DOneOf OOD2 [DOneOfElement ED2], tc2) /\
     getType (ooe_base ED2) = TNull) /\
  (exists SD1 Sub1 Ctor1 tc1 SD2 Sub2 Ctor2 tc2,
     typeCheckDecl Sample.collaborators Inputs.vecDecl true
                   (Sample.start Sample.emptyLibrary Inputs.vecVars)
     = Some (DStruct SD1 [DSubscript Sub1; Ctor1], tc1) /\
     typeCheckDecl Sample.collaborators (DStruct SD1 [DSubscript Sub1; Ctor1])
                   false tc1
     = Some (DStruct SD2 [DSubscript Sub2; Ctor2], tc2) /\
     getType (sub_base Sub2) = TNull).
Proof.
  split.
  - eexists _, _, _, _, _, _.
    split; [vm_compute; reflexivity|]. split; [vm_compute; reflexivity|].
    reflexivity.
  - eexists _, _, _, _, _, _, _, _.
    split; [vm_compute; reflexivity|]. split; [vm_compute; reflexivity|].
    reflexivity.
Qed.

(** C6, as stated, fails: a second first-pass visit of a protocol puts a
    new archetype into the underlying-type slot of its associated type
    and repeats the diagnostic of its inheritance clause. *)
Lemma protocol_revisit_not_idempotent :
  exists PD1 T1 tc1 PD2 T2 tc2,
    visit Sample.collaborators true false Inputs.containerDecl Inputs.library
    = Some (DProtocol PD1 [DTypeAlias T1], tc1) /\
    visit Sample.collaborators true false (DProtocol PD1 [DTypeAlias T1]) tc1
    = Some (DProtocol PD2 [DTypeAlias T2], tc2) /\
    tl_type (tad_underlying T1) = TArchetype 0 "Element" [] None /\
    tl_type (tad_underlying T2) = TArchetype 1 "Element" [] None /\
    diagnosticsOf (Log tc1) = [nonprotocol_inherit (TStruct "A")] /\
    diagnosticsOf (Log tc2)
    = [nonprotocol_inherit (TStruct "A"); nonprotocol_inherit (TStruct "A")].
Proof.
  eexists _, _, _, _, _, _.
  split; [vm_compute; reflexivity|]. split; [vm_compute; reflexivity|].
  repeat split.
Qed.

Lemma protocol_revisit_replaces_archetypes_witness :
  (forall id name conformsTo index fp x,
   exists x',
     validateType Sample.collaborators
                  (mkTypeLoc (TArchetype id name conformsTo index)) fp x
     = (false, mkTypeLoc (TArchetype id name conformsTo index), x')) /\
  exists D1 tc1 D2 tc2,
    visit Sample.collaborators true false Inputs.containerDecl Inputs.library
    = Some (D1, tc1) /\
    visit Sample.collaborators true false D1 tc1 = Some (D2, tc2) /\
    visit Sample.collaborators true true D1 tc1 = Some (D1, tc1) /\
    exists PD1 members1 PD2 members2,
      D1 = DProtocol PD1 members1 /\ D2 = DProtocol PD2 members2 /\
      length members2 = length members1 /\
      forall i TAD1,
        members1 !! i = Some (DTypeAlias TAD1) ->
        exists TAD2 id1 id2 conf1 conf2,
          members2 !! i = Some (DTypeAlias TAD2) /\
          tl_type (tad_underlying TAD1)
          = TArchetype id1 (getName (tad_base TAD1)) conf1
                       (associatedIndex (getName (tad_base TAD1))) /\
          tl_type (tad_underlying TAD2)
          = TArchetype id2 (getName (tad_base TAD1)) conf2
                       (associatedIndex (getName (tad_base TAD1))) /\
          (id1 < id2)%nat.
Proof.
  assert (Hval : forall id name conformsTo index fp x,
             exists x',
               validateType Sample.collaborators
                            (mkTypeLoc (TArchetype id name conformsTo index))
                            fp x
               = (false, mkTypeLoc (TArchetype id name conformsTo index), x')).
  { intros id name conformsTo index fp x. by exists (S x). }
  split; [exact Hval|].
  destruct (visit Sample.collaborators true false Inputs.containerDecl
                  Inputs.library) as [[D1 tc1]|] eqn:E1;
    [|vm_compute in E1; discriminate].
  destruct (visit Sample.collaborators true false D1 tc1)
    as [[D2 tc2]|] eqn:E2.
  - exists D1, tc1, D2, tc2. split; [reflexivity|]. split; [exact E2|].
    exact (protocol_revisit_replaces_archetypes
             Sample.collaborators true Hval _ _ _ _ _ _ _ E1 E2).
  - exfalso. vm_compute in E1. injection E1 as <- <-.
    vm_compute in E2. discriminate.
Defined.



(** Scenario S1 of the specification: in [<T requires T : P>] the parameter
    [T] ends with an archetype whose conformance list is [P]. *)
Example conformance_on_generic_parameter :
  exists gp' tc' T,
    checkGenericParams Sample.collaborators true (Some Inputs.boxParams)
                       Inputs.library
    = Some (Some gp', tc') /\
    gp_params gp' = [T] /\
    tl_type (tad_underlying T) = TArchetype 0 "T" [TProtocol "P"] (Some 0%nat).
Proof.
  eexists _, _, _. split; [vm_compute; reflexivity|]. split; reflexivity.
Qed.

(* ===================================================================== *)
(** * Further properties of the checker *)
(* ===================================================================== *)

(** ** What a pass logs *)

Section RunProperties.

Context {X : Type} (C : Collaborators X).
Implicit Types (tc : TypeChecker X) (P : Event -> Prop).

#[export] Instance runs_refl P : Reflexive (@runs X P).
Proof.
  intros tc. split; [reflexivity|]. exists [].
  rewrite app_nil_r, Nat.sub_diag. by repeat split.
Qed.

#[export] Instance runs_trans P : Transitive (@runs X P).
Proof.
  intros tc1 tc2 tc3 (T1 & e1 & L1 & F1 & I1 & N1)
    (T2 & e2 & L2 & F2 & I2 & N2).
  split; [congruence|]. exists (e1 ++ e2).
  split; [by rewrite L2, L1, app_assoc|].
  split; [by apply Forall_app|].
  split; [|lia].
  unfold archetypeIds in *. rewrite omap_app, I1, I2.
  replace (NextArchetype tc3 - NextArchetype tc1)%nat
    with ((NextArchetype tc2 - NextArchetype tc1)
          + (NextArchetype tc3 - NextArchetype tc2))%nat by lia.
  rewrite seq_app. do 2 f_equal. lia.
Qed.

Lemma runs_quiet P tc tc' evs :
  TU tc' = TU tc -> NextArchetype tc' = NextArchetype tc ->
  Log tc' = Log tc ++ evs -> Forall P evs -> archetypeIds evs = [] ->
  runs P tc tc'.
Proof.
  intros HT HN HL HF HI. split; [assumption|]. exists evs.
  rewrite HN, Nat.sub_diag, HI. by repeat split.
Qed.

Lemma runs_after P tc tc' evs :
  after tc evs tc' -> Forall P evs -> archetypeIds evs = [] -> runs P tc tc'.
Proof. intros (HT & _ & HN & HL). by apply runs_quiet. Qed.

Lemma runs_emit P e :
  P e -> archetypeIds [e] = [] -> preserves X (runs P) (emit e).
Proof.
  intros HP HI tc a tc' [= _ <-].
  apply (runs_quiet _ _ _ [e]); try done. by apply Forall_singleton.
Qed.

Lemma runs_callValidateType P tl (fp : bool) :
  (forall failed, P (ValidateType (tl_type tl) fp failed)) ->
  preserves X (runs P) (callValidateType C tl fp).
Proof.
  intros HP tc a tc' H.
  destruct (callValidateType_run C fp tl tc) as (f & tl' & tc1 & E & A).
  rewrite E in H. injection H as _ <-.
  eapply runs_after; [exact A | by apply Forall_singleton | done].
Qed.

Lemma runs_callTypeCheckPattern P Pat (fp : bool) :
  (forall failed, P (TypeCheckPattern Pat fp failed)) ->
  preserves X (runs P) (callTypeCheckPattern C Pat fp).
Proof.
  intros HP tc a tc' H.
  destruct (callTypeCheckPattern_run C Pat fp tc)
    as (f & P' & tc1 & E & T & N & L).
  rewrite E in H. injection H as _ <-.
  eapply runs_quiet; [done | done | exact L | by apply Forall_singleton | done].
Qed.

Lemma runs_callTypeCheckExpression P E DestTy :
  (forall failed, P (TypeCheckExpression E DestTy failed)) ->
  preserves X (runs P) (callTypeCheckExpression C E DestTy).
Proof.
  intros HP tc a tc' H.
  destruct (callTypeCheckExpression_run C E DestTy tc)
    as (f & E' & tc1 & Eq & A).
  rewrite Eq in H. injection H as _ <-.
  eapply runs_after; [exact A | by apply Forall_singleton | done].
Qed.

Lemma runs_callCoerceToType P Pat t (fp : bool) :
  (forall failed, P (CoerceToType Pat t fp failed)) ->
  preserves X (runs P) (callCoerceToType C Pat t fp).
Proof.
  intros HP tc a tc' H.
  destruct (callCoerceToType_run C Pat t fp tc)
    as (f & P' & tc1 & E & T & N & L).
  rewrite E in H. injection H as _ <-.
  eapply runs_quiet; [done | done | exact L | by apply Forall_singleton | done].
Qed.

Lemma runs_callConvertToMaterializable P E :
  P (ConvertToMaterializable E) ->
  preserves X (runs P) (callConvertToMaterializable C E).
Proof.
  intros HP tc a tc' H.
  destruct (callConvertToMaterializable_run C E tc) as (r & tc1 & Eq & A).
  rewrite Eq in H. injection H as _ <-.
  eapply runs_after; [exact A | by apply Forall_singleton | done].
Qed.

Lemma runs_callSemaFuncExpr P body (fp : bool) :
  P (SemaFuncExpr body fp) ->
  preserves X (runs P) (callSemaFuncExpr C body fp).
Proof.
  intros HP tc a tc' H.
  destruct (callSemaFuncExpr_run C body fp tc) as (b & tc1 & E & T & N & L).
  rewrite E in H. injection H as _ <-.
  eapply runs_quiet; [done | done | exact L | by apply Forall_singleton | done].
Qed.

Lemma runs_callConformsToProtocol P T Proto :
  P (ConformsToProtocol T Proto) ->
  preserves X (runs P) (callConformsToProtocol C T Proto).
Proof.
  intros HP tc a tc' [= _ <-].
  eapply (runs_quiet _ _ _ [_]); try done. by apply Forall_singleton.
Qed.

Lemma runs_archetypeGetNew P name conf idx :
  (forall id, P (ArchetypeGetNew id)) ->
  preserves X (runs P) (archetypeGetNew name conf idx).
Proof.
  intros HP tc a tc' [= _ <-]. split; [done|].
  exists [ArchetypeGetNew (NextArchetype tc)]. cbn.
  replace (S (NextArchetype tc) - NextArchetype tc)%nat with 1%nat by lia.
  split; [done|]. split; [by apply Forall_singleton|]. split; [done | lia].
Qed.

Lemma runs_lookupVar P v : preserves X (runs P) (lookupVar v).
Proof.
  intros tc a tc'. unfold lookupVar. destruct (Vars tc !! v); [|discriminate].
  intros [= _ <-]. reflexivity.
Qed.

Lemma runs_storeVar P v V : preserves X (runs P) (storeVar v V).
Proof.
  intros tc a tc' [= _ <-]. apply (runs_quiet _ _ _ []); cbn; try done.
  by rewrite app_nil_r.
Qed.

Lemma runs_validateAttributes P (isFuncDecl : bool) VD :
  (forall e, attributeEvent e -> P e) ->
  preserves X (runs P) (validateAttributes isFuncDecl VD).
Proof.
  intros HP tc a tc' H.
  destruct (validateAttributes_frame _ _ _ _ _ H) as (evs & -> & F).
  apply (runs_quiet _ _ _ evs); try done.
  - eapply Forall_impl; [exact F | exact HP].
  - clear H. induction F as [|e evs He _ IH]; [done|].
    destruct e; try done.
Qed.

End RunProperties.

Lemma attributeEvent_pass (fp sp : bool) e :
  attributeEvent e -> passEvent fp sp e.
Proof.
  destruct e as [d| | | | | | | | | | | |]; try done.
  intros H _. by destruct d.
Qed.

Create HintDb runs.

#[export] Hint Resolve runs_lookupVar runs_storeVar : runs.

(** Closes a goal [preserves (runs P) m] for a computation [m] made of calls
    whose events satisfy [P]. *)
Ltac runs_auto :=
  repeat first
    [ solve [eauto with runs]
    | apply runs_callValidateType; intros; done
    | apply runs_callTypeCheckPattern; intros; done
    | apply runs_callTypeCheckExpression; intros; done
    | apply runs_callCoerceToType; intros; done
    | apply runs_callConvertToMaterializable; done
    | apply runs_callSemaFuncExpr; done
    | apply runs_callConformsToProtocol; done
    | apply runs_archetypeGetNew; intros; done
    | apply runs_emit; [done | done]
    | apply runs_validateAttributes; apply attributeEvent_pass
    | apply preserves_forEach; [apply _ | apply _ | intros]
    | apply preserves_forEach_; [apply _ | apply _ | intros]
    | preserves_step ].

Section PassDiscipline.

Context {X : Type} (C : Collaborators X).
Implicit Types (tc : TypeChecker X) (D : Decl) (fp sp : bool).

Lemma runs_checkInherited fp inh :
  preserves X (runs (passEvent fp false)) (checkInherited C fp inh).
Proof. unfold checkInherited, checkInheritedOne, diagnose. runs_auto. Qed.

Lemma runs_checkExplicitConformance sp T inh :
  preserves X (runs (passEvent false sp)) (checkExplicitConformance C T inh).
Proof. unfold checkExplicitConformance. runs_auto. Qed.

Lemma runs_addGenericParameters fp Index params B :
  preserves X (runs (passEvent fp false))
            (addGenericParameters C fp Index params B).
Proof.
  revert Index B.
  induction params as [|p params IH]; intros Index B;
    cbn [addGenericParameters].
  - runs_auto.
  - pose proof runs_checkInherited. runs_auto.
Qed.

Lemma runs_scanRequirements1 fp reqs B :
  preserves X (runs (passEvent fp false))
            (scanRequirements (addRequirement1 C fp) reqs B).
Proof.
  revert B. induction reqs as [|r reqs IH]; intros B; cbn [scanRequirements].
  - runs_auto.
  - unfold addRequirement1, diagnose. runs_auto.
Qed.

Lemma runs_scanRequirements2 fp reqs B :
  preserves X (runs (passEvent fp false))
            (scanRequirements (addRequirement2 C fp) reqs B).
Proof.
  revert B. induction reqs as [|r reqs IH]; intros B; cbn [scanRequirements].
  - runs_auto.
  - unfold addRequirement2, diagnose. runs_auto.
Qed.

Lemma runs_assignArchetypes fp B :
  preserves X (runs (passEvent fp false))
            (ArchetypeBuilder.assignArchetypes B).
Proof.
  induction B as [|pa B IH]; cbn [ArchetypeBuilder.assignArchetypes];
    runs_auto.
Qed.

Lemma runs_checkGenericParams fp ogp :
  preserves X (runs (passEvent fp false)) (checkGenericParams C fp ogp).
Proof.
  unfold checkGenericParams.
  pose proof runs_addGenericParameters. pose proof runs_scanRequirements1.
  pose proof runs_scanRequirements2. pose proof runs_assignArchetypes.
  runs_auto.
Qed.

Lemma runs_visitBoundVars fp sp P :
  preserves X (runs (passEvent fp sp)) (visitBoundVars P).
Proof.
  revert P. fix IH 1. intros P.
  destruct P as [sub ty|fields ty|decl ty|ty|sub ann ty]; cbn [visitBoundVars].
  - apply IH.
  - induction fields as [|f fields IHf]; cbn [forEach_]; runs_auto.
  - unfold diagnose. runs_auto.
  - runs_auto.
  - apply IH.
Qed.

(** The flags a checker is built with: never both. *)
Ltac by_pass Hp :=
  match type of Hp with
  | ?fp && ?sp = false =>
      destruct fp, sp; try discriminate Hp; cbn [negb andb orb]
  end.

Lemma runs_visitPatternBindingDecl fp sp PBD :
  fp && sp = false ->
  preserves X (runs (passEvent fp sp)) (visitPatternBindingDecl C fp sp PBD).
Proof.
  intros Hp.
  unfold visitPatternBindingDecl, recheckInit, checkInitialized,
    checkPatternOnly, diagnose.
  pose proof runs_visitBoundVars. by_pass Hp; runs_auto.
Qed.

Lemma runs_visitSubscriptDecl fp sp SD :
  fp && sp = false ->
  preserves X (runs (passEvent fp sp)) (visitSubscriptDecl C fp sp SD).
Proof.
  intros Hp. unfold visitSubscriptDecl, diagnose. by_pass Hp; runs_auto.
Qed.

Lemma runs_visitTypeAliasDecl fp sp TAD :
  fp && sp = false ->
  preserves X (runs (passEvent fp sp)) (visitTypeAliasDecl C fp sp TAD).
Proof.
  intros Hp. unfold visitTypeAliasDecl.
  pose proof runs_checkInherited. pose proof runs_checkExplicitConformance.
  by_pass Hp; runs_auto.
Qed.

Lemma runs_visitFuncDecl fp sp FD :
  fp && sp = false ->
  preserves X (runs (passEvent fp sp)) (visitFuncDecl C fp sp FD).
Proof.
  intros Hp. unfold visitFuncDecl, setThisPattern.
  pose proof runs_checkGenericParams. by_pass Hp; runs_auto.
Qed.

Lemma runs_visitOneOfElementDecl fp sp ED :
  fp && sp = false ->
  preserves X (runs (passEvent fp sp)) (visitOneOfElementDecl C fp sp ED).
Proof.
  intros Hp. unfold visitOneOfElementDecl, diagnose. by_pass Hp; runs_auto.
Qed.

Lemma runs_visitConstructorDecl fp sp CD :
  fp && sp = false ->
  preserves X (runs (passEvent fp sp)) (visitConstructorDecl C fp sp CD).
Proof.
  intros Hp. unfold visitConstructorDecl, diagnose.
  pose proof runs_checkGenericParams. by_pass Hp; runs_auto.
Qed.

Lemma runs_visitDestructorDecl fp sp DD :
  fp && sp = false ->
  preserves X (runs (passEvent fp sp)) (visitDestructorDecl sp DD).
Proof.
  intros Hp. unfold visitDestructorDecl, diagnose. by_pass Hp; runs_auto.
Qed.

Lemma runs_checkNominalHeader fp sp N :
  fp && sp = false ->
  preserves X (runs (passEvent fp sp)) (checkNominalHeader C fp sp N).
Proof.
  intros Hp. unfold checkNominalHeader.
  pose proof runs_checkInherited. pose proof runs_checkGenericParams.
  by_pass Hp; runs_auto.
Qed.

Lemma runs_checkNominalConformance fp sp N :
  fp && sp = false ->
  preserves X (runs (passEvent fp sp)) (checkNominalConformance C fp N).
Proof.
  intros Hp. unfold checkNominalConformance.
  pose proof runs_checkExplicitConformance. by_pass Hp; runs_auto.
Qed.

Lemma runs_impliedConstructor fp sp N ms :
  preserves X (runs (passEvent fp sp)) (impliedConstructor N ms).
Proof. unfold impliedConstructor. runs_auto. Qed.

Lemma runs_assignAssociatedArchetype fp m :
  preserves X (runs (passEvent fp false)) (assignAssociatedArchetype C fp m).
Proof.
  unfold assignAssociatedArchetype. pose proof runs_checkInherited. runs_auto.
Qed.

Lemma runs_checkExtensionHeader fp sp ED :
  fp && sp = false ->
  preserves X (runs (passEvent fp sp)) (checkExtensionHeader C fp sp ED).
Proof.
  intros Hp. unfold checkExtensionHeader, diagnose.
  pose proof runs_checkInherited. by_pass Hp; runs_auto.
Qed.

Lemma runs_visitDecl fp sp (f : Decl -> M X Decl) D :
  fp && sp = false ->
  (forall d, preserves X (runs (passEvent fp sp)) (f d)) ->
  preserves X (runs (passEvent fp sp)) (visitDecl C fp sp f D).
Proof.
  intros Hp Hf.
  pose proof (fun PBD => runs_visitPatternBindingDecl fp sp PBD Hp).
  pose proof (fun SD => runs_visitSubscriptDecl fp sp SD Hp).
  pose proof (fun TAD => runs_visitTypeAliasDecl fp sp TAD Hp).
  pose proof (fun FD => runs_visitFuncDecl fp sp FD Hp).
  pose proof (fun ED => runs_visitOneOfElementDecl fp sp ED Hp).
  pose proof (fun CD => runs_visitConstructorDecl fp sp CD Hp).
  pose proof (fun DD => runs_visitDestructorDecl fp sp DD Hp).
  pose proof (fun N => runs_checkNominalHeader fp sp N Hp).
  pose proof (fun N => runs_checkNominalConformance fp sp N Hp).
  pose proof (fun ED => runs_checkExtensionHeader fp sp ED Hp).
  pose proof (runs_impliedConstructor fp sp).
  destruct D; cbn [visitDecl]; try solve [runs_auto].
  - (* a protocol *)
    pose proof runs_checkInherited. pose proof runs_assignAssociatedArchetype.
    by_pass Hp; runs_auto.
  - (* an extension *)
    pose proof runs_checkExplicitConformance. by_pass Hp; runs_auto.
Qed.

Lemma runs_visit fp sp D :
  fp && sp = false ->
  preserves X (runs (passEvent fp sp)) (visit C fp sp D).
Proof.
  intros Hp. unfold visit. generalize (S (depth D)). intros n. revert D.
  induction n as [|n IH]; intros D; cbn [visitN].
  - apply preserves_abort.
  - by apply runs_visitDecl.
Qed.

Lemma runs_typeCheckDecl D (isFirstPass : bool) tc D' tc' :
  typeCheckDecl C D isFirstPass tc = Some (D', tc') ->
  exists sp, runs (passEvent isFirstPass sp) tc tc' /\
             (isFirstPass = true -> sp = false) /\
             (sp = true ->
              isModuleContext <$> declContext (Vars tc) D = Some true).
Proof.
  unfold typeCheckDecl. intros H.
  apply bind_Some in H as (tc0 & tc1 & [= <- <-] & H).
  destruct (declContext (Vars tc) D) as [dc|]; [|discriminate].
  exists (negb isFirstPass && isModuleContext dc).
  split; [|split].
  - eapply runs_visit; [|exact H]. by destruct isFirstPass.
  - by intros ->.
  - intros E. apply andb_true_iff in E as [_ E]. simpl. by rewrite E.
Qed.

End PassDiscipline.

Section PassTheorems.

Context {X : Type} (C : Collaborators X).
Implicit Types (tc : TypeChecker X) (D : Decl).

(** X1. Every call that takes a pass flag is made with the flag
    [typeCheckDecl] was given. This includes the two calls that pass a
    literal [false] (lines 224 and 242): they sit in a branch taken outside
    the first pass only. *)
Theorem pass_flag_reaches_every_call :
  forall D (isFirstPass : bool) tc D' tc',
    typeCheckDecl C D isFirstPass tc = Some (D', tc') ->
    exists evs,
      Log tc' = Log tc ++ evs /\ Forall (carriesFlag isFirstPass) evs.
Proof.
  intros D fp tc D' tc' H.
  destruct (runs_typeCheckDecl C _ _ _ _ _ H)
    as (sp & (_ & evs & L & F & _) & _ & _).
  exists evs. split; [exact L|].
  eapply Forall_impl; [exact F|].
  intros [] He; try exact I; cbn in He |- *; tauto.
Qed.

(** X2. In the first pass no declaration, however deeply nested, has an
    initializer type-checked, converted or coerced to, or a conformance
    checked. *)
Theorem first_pass_defers_initializers_and_conformances :
  forall D tc D' tc',
    typeCheckDecl C D true tc = Some (D', tc') ->
    exists evs,
      Log tc' = Log tc ++ evs /\ Forall (fun e => ~ isSecondLook e) evs.
Proof.
  intros D tc D' tc' H.
  destruct (runs_typeCheckDecl C _ _ _ _ _ H)
    as (sp & (_ & evs & L & F & _) & _ & _).
  exists evs. split; [exact L|].
  eapply Forall_impl; [exact F|].
  intros [] He; cbn in He |- *; try tauto; try discriminate.
  destruct He; discriminate.
Qed.

(** X3. The second pass over a declaration at module scope resolves no type,
    analyses no function body and makes no archetype, for the declaration
    and for everything nested in it; what it diagnoses concerns pattern
    bindings and the variables they bind. *)
Theorem second_pass_resolves_nothing :
  forall D dc tc D' tc',
    declContext (Vars tc) D = Some dc ->
    isModuleContext dc = true ->
    typeCheckDecl C D false tc = Some (D', tc') ->
    NextArchetype tc' = NextArchetype tc /\
    exists evs,
      Log tc' = Log tc ++ evs /\
      Forall (fun e => ~ isResolution e) evs /\
      Forall isBindingDiag (diagnosticsOf evs).
Proof.
  intros D dc tc D' tc' Hdc Hmod H.
  unfold typeCheckDecl in H.
  apply bind_Some in H as (tc0 & tc1 & [= <- <-] & H).
  rewrite Hdc, Hmod in H. cbn [negb andb] in H.
  apply (runs_visit C false true D eq_refl) in H
    as (_ & evs & L & F & I & N).
  assert (Forall (fun e => ~ isResolution e) evs) as Hres.
  { eapply Forall_impl; [exact F|].
    intros [] He; cbn in He |- *; try tauto; try discriminate.
    all: destruct He; discriminate. }
  split.
  - assert (archetypeIds evs = []) as Hnone.
    { clear -Hres. induction Hres as [|e evs He _ IH]; [done|].
      destruct e; try exact IH. by destruct He. }
    rewrite Hnone in I. symmetry in I. apply length_zero_iff_nil in I.
    rewrite length_seq in I. lia.
  - exists evs. split; [exact L|]. split; [exact Hres|].
    clear -F. induction F as [|e evs He _ IH]; [constructor|].
    destruct e; try exact IH. cbn. constructor; [by apply He | exact IH].
Qed.

End PassTheorems.

(* ===================================================================== *)
(** ** Attribute validation, rule by rule *)
(* ===================================================================== *)

Ltac yields_case :=
  lazymatch goal with
  | |- yields _ _ abort => apply yields_abort
  | |- yields _ _ (if ?b then _ else _) => destruct b
  | |- yields _ _ (match ?x with _ => _ end) => destruct x
  end.

Section AttributeRules.

Context {X : Type}.
Implicit Types (tc : TypeChecker X) (VD : ValueDecl) (n : Z).

Lemma attributeStep_refl n VD : attributeStep n VD VD.
Proof.
  split; [by destruct VD|]. split; [by repeat split | by left].
Qed.

Lemma attributeStep_trans n VD1 VD2 VD3 :
  attributeStep n VD1 VD2 -> attributeStep n VD2 VD3 -> attributeStep n VD1 VD3.
Proof.
  intros (E1 & (P1 & A1 & C1 & B1 & U1) & I1)
    (E2 & (P2 & A2 & C2 & B2 & U2) & I2).
  split; [by rewrite E2, E1|].
  split; [repeat split; auto|].
  rewrite E1 in I2. unfold infixKeptOrInherited in *. cbn in I2.
  destruct I2 as [I2 | (N2 & O2 & Hn & T2)].
  - destruct I1 as [I1 | I1]; [left; congruence | by right].
  - destruct I1 as [I1 | I1]; [|by right].
    right. unfold isInfix in *. rewrite <- I1. done.
Qed.

Lemma attributeStep_set n VD (f : DeclAttributes -> DeclAttributes) :
  Infix (f (getAttrs VD)) = Infix (getAttrs VD) ->
  attributesCleared (getAttrs VD) (f (getAttrs VD)) ->
  attributeStep n VD (mutateAttrs f VD).
Proof. intros HI HC. split; [done|]. split; [exact HC | by left]. Qed.

Lemma attributeStep_infix n VD i :
  isInfix (getAttrs VD) = false -> isOperator VD = true -> n <> 1 ->
  isTranslationUnit (getDeclContext VD) = true ->
  attributeStep n VD (mutateAttrs (setInfix i) VD).
Proof.
  intros. split; [done|]. split; [by repeat split | by right].
Qed.

Lemma inheritFromDecls_infix vars decls VD :
  exists i, inheritFromDecls vars decls VD = mutateAttrs (setInfix i) VD.
Proof.
  induction decls as [|D decls IH]; simpl.
  - exists (Infix (getAttrs VD)). by destruct VD as [? ? []].
  - destruct (asValueDecl vars D); [|exact IH].
    destruct (sameNameInfix _ _); [by eexists | exact IH].
Qed.

Lemma inheritFromFound_infix found VD :
  exists i, inheritFromFound found VD = mutateAttrs (setInfix i) VD.
Proof.
  induction found as [|E found IH]; simpl.
  - exists (Infix (getAttrs VD)). by destruct VD as [? ? []].
  - destruct (sameNameInfix _ _); [by eexists|].
    destruct (isInfix _); [|exact IH].
    exists (Infix (getAttrs VD)). by destruct VD as [? ? []].
Qed.

Lemma inheritFromModules_infix mods VD :
  yields X (fun VD' => exists i, VD' = mutateAttrs (setInfix i) VD)
         (inheritFromModules mods VD).
Proof.
  revert VD. induction mods as [|[Mod|] mods IH]; intros VD; simpl.
  - apply yields_ret. exists (Infix (getAttrs VD)). by destruct VD as [? ? []].
  - apply yields_bind. intros _ tc VD' tc' H.
    destruct (inheritFromFound_infix (lookupValue Mod (getName VD)) VD)
      as (i & E).
    rewrite E in H. apply IH in H as (j & ->). by exists j.
  - apply IH.
Qed.

Lemma attributeStep_checkAssignment (isFuncDecl : bool) n VD :
  yields X (attributeStep n VD) (checkAssignment isFuncDecl n VD).
Proof.
  unfold checkAssignment.
  repeat first
    [ apply yields_ret; first [apply attributeStep_refl
                              | apply attributeStep_set; [done|by repeat split]]
    | apply yields_bind; intros
    | yields_case ].
Qed.

Lemma attributeStep_checkConversion (isFuncDecl : bool) n VD :
  yields X (attributeStep n VD) (checkConversion isFuncDecl VD).
Proof.
  unfold checkConversion.
  repeat first
    [ apply yields_ret; first [apply attributeStep_refl
                              | apply attributeStep_set; [done|by repeat split]]
    | apply yields_bind; intros
    | yields_case ].
Qed.

Lemma attributeStep_checkByref n VD :
  yields X (attributeStep n VD) (checkByref VD).
Proof.
  unfold checkByref.
  repeat first
    [ apply yields_ret; first [apply attributeStep_refl
                              | apply attributeStep_set; [done|by repeat split]]
    | apply yields_bind; intros
    | yields_case ].
Qed.

Lemma attributeStep_checkAutoClosure n VD :
  yields X (attributeStep n VD) (checkAutoClosure VD).
Proof.
  unfold checkAutoClosure.
  repeat first
    [ apply yields_ret; first [apply attributeStep_refl
                              | apply attributeStep_set; [done|by repeat split]]
    | apply yields_bind; intros
    | yields_case ].
Qed.

Lemma attributeStep_inheritInfix n VD :
  yields X (attributeStep n VD) (inheritInfix n VD).
Proof.
  unfold inheritInfix.
  destruct (isOperator VD && negb (isInfix (getAttrs VD)) && negb (n =? 1))
    eqn:G; [|apply yields_ret, attributeStep_refl].
  apply andb_true_iff in G as [G Hn]. apply andb_true_iff in G as [Hop Hin].
  apply negb_true_iff in Hin. apply negb_true_iff, Z.eqb_neq in Hn.
  eapply (yields_bind_with
            (fun VD' => VD' = VD \/
                        (isTranslationUnit (getDeclContext VD) = true /\
                         exists i, VD' = mutateAttrs (setInfix i) VD))).
  - destruct (isTranslationUnit (getDeclContext VD)) eqn:HTU;
      [|apply yields_ret; by left].
    intros tc VD' tc' H. apply bind_Some in H as (tc0 & tc1 & [= <- <-] & H).
    destruct (inheritFromDecls_infix (Vars tc) (tu_decls (TU tc)) VD)
      as (i & E).
    rewrite E in H. right. split; [done|].
    destruct (negb _) in H.
    + apply inheritFromModules_infix in H as (j & ->). by exists j.
    + injection H as <- _. by exists i.
  - intros VD' HVD'.
    assert (attributeStep n VD VD') as Hstep.
    { destruct HVD' as [-> | (HTU & i & ->)];
        [apply attributeStep_refl | by apply attributeStep_infix]. }
    destruct (negb _); [apply yields_bind; intros|]; by apply yields_ret.
Qed.

Lemma attributeStep_remaining (isFuncDecl : bool) n VD :
  yields X (attributeStep n VD) (validateRemainingAttributes isFuncDecl n VD).
Proof.
  unfold validateRemainingAttributes.
  eapply yields_bind_with; [apply attributeStep_checkAssignment|].
  intros VD1 H1.
  eapply yields_bind_with; [apply (attributeStep_checkConversion _ n)|].
  intros VD2 H2.
  eapply yields_bind_with; [apply attributeStep_inheritInfix|].
  intros VD3 H3.
  eapply yields_bind_with; [apply (attributeStep_checkByref n)|].
  intros VD4 H4.
  intros tc VD5 tc' H5. apply (attributeStep_checkAutoClosure n) in H5.
  eauto using attributeStep_trans.
Qed.

Lemma validateAttributes_step (isFuncDecl : bool) VD :
  yields X
    (fun VD' =>
       VD' = setAttrs (getAttrs VD') VD /\
       attributesCleared (getAttrs VD) (getAttrs VD') /\
       (Infix (getAttrs VD') = Infix (getAttrs VD) \/
        Infix (getAttrs VD') = InfixInvalid \/
        (isInfix (getAttrs VD) = false /\ isOperator VD = true /\
         numArguments (getType VD) <> 1 /\
         isTranslationUnit (getDeclContext VD) = true)))
    (validateAttributes isFuncDecl VD).
Proof.
  unfold validateAttributes.
  repeat first
    [ apply yields_ret;
      first [ split; [by destruct VD as [? ? []]|];
              split; [by repeat split | by left]
            | split; [done|]; split; [by repeat split | tauto] ]
    | lazymatch goal with
      | |- yields _ _ (bind _ _) => apply yields_bind; intros
      | |- yields _ _ (if ?b then _ else _) => destruct b
      end ].
  intros tc VD' tc' H.
  apply attributeStep_remaining in H as (E & HC & [HI | HI]).
  - split; [exact E|]. split; [exact HC | by left].
  - split; [exact E|]. split; [exact HC | by right; right].
Qed.

(** X4. Whatever [validateAttributes] does, it changes nothing of the
    declaration but its attributes, it sets no attribute flag, and the
    [Infix] data is either kept, reset to the invalid value, or inherited by
    an operator that had none; the type checker itself only has diagnostics
    and module lookups added to its log. *)
Theorem validateAttributes_only_clears_attributes :
  forall (isFuncDecl : bool) VD tc VD' tc',
    validateAttributes isFuncDecl VD tc = Some (VD', tc') ->
    VD' = setAttrs (getAttrs VD') VD /\
    attributesCleared (getAttrs VD) (getAttrs VD') /\
    (Infix (getAttrs VD') = Infix (getAttrs VD) \/
     Infix (getAttrs VD') = InfixInvalid \/
     (isInfix (getAttrs VD) = false /\ isOperator VD = true /\
      numArguments (getType VD) <> 1 /\
      isTranslationUnit (getDeclContext VD) = true)) /\
    exists evs, tc' = appendLog tc evs /\ Forall attributeEvent evs.
Proof.
  intros isFuncDecl VD tc VD' tc' H.
  destruct (validateAttributes_step _ _ _ _ _ H) as (E & HC & HI).
  split; [exact E|]. split; [exact HC|]. split; [exact HI|].
  exact (validateAttributes_frame _ _ _ _ _ H).
Qed.

(** X5. A declaration that is not an operator and carries [infix] or
    [postfix] draws one diagnostic, loses that one attribute and keeps every
    other; [infix] is looked at first, so with both only [infix] goes. *)
Theorem fixity_on_non_operator :
  forall (isFuncDecl : bool) VD tc,
    isOperator VD = false ->
    isInfix (getAttrs VD) = true \/ Postfix (getAttrs VD) = true ->
    exists d VD',
      validateAttributes isFuncDecl VD tc
      = Some (VD', appendLog tc [Diagnose d]) /\
      (isInfix (getAttrs VD) = true ->
       d = infix_not_an_operator /\
       VD' = mutateAttrs (setInfix InfixInvalid) VD) /\
      (isInfix (getAttrs VD) = false ->
       d = postfix_not_an_operator /\
       VD' = mutateAttrs (setPostfix false) VD).
Proof.
  intros isFuncDecl VD tc Hop Hfix. unfold validateAttributes.
  rewrite Hop. cbn [andb negb].
  destruct (isInfix (getAttrs VD)) eqn:Hin; cbn [andb].
  - exists infix_not_an_operator, (mutateAttrs (setInfix InfixInvalid) VD).
    split; [reflexivity|]. split; [done | discriminate].
  - destruct Hfix as [? | Hpost]; [discriminate|]. rewrite Hpost. cbn [andb].
    exists postfix_not_an_operator, (mutateAttrs (setPostfix false) VD).
    split; [reflexivity|]. split; [discriminate | done].
Qed.

(** X6. An operator function that gets past the shape checks (it has one
    or two arguments, or no known count, and is not a one-argument [&],
    which is diagnosed [custom_operator_addressof] instead) and that
    carries [infix] without having two arguments draws exactly
    [invalid_infix_left_input] and has [Infix] reset; otherwise, one that
    carries [postfix] without having one argument draws exactly
    [invalid_postfix_input] and loses [Postfix]. Every other attribute is
    kept and no later rule runs. *)
Theorem fixity_of_wrong_arity :
  forall VD tc,
    isOperator VD = true ->
    numArguments (getType VD) <> 0 -> numArguments (getType VD) <= 2 ->
    (numArguments (getType VD) = 1 -> getName VD <> "&") ->
    (isInfix (getAttrs VD) = true /\ numArguments (getType VD) <> 2) \/
    (Postfix (getAttrs VD) = true /\ numArguments (getType VD) <> 1) ->
    exists d VD',
      validateAttributes true VD tc = Some (VD', appendLog tc [Diagnose d]) /\
      (isInfix (getAttrs VD) = true -> numArguments (getType VD) <> 2 ->
       d = invalid_infix_left_input /\
       VD' = mutateAttrs (setInfix InfixInvalid) VD) /\
      (isInfix (getAttrs VD) = false \/ numArguments (getType VD) = 2 ->
       d = invalid_postfix_input /\
       VD' = mutateAttrs (setPostfix false) VD).
Proof.
  intros VD tc Hop H0 H2 Hamp Hfix. unfold validateAttributes.
  rewrite Hop. cbn [andb negb].
  replace (numArguments (getType VD) =? 0) with false
    by (symmetry; by apply Z.eqb_neq).
  replace (numArguments (getType VD) >? 2) with false
    by (symmetry; rewrite Z.gtb_ltb; apply Z.ltb_ge; lia).
  cbn [orb].
  assert ((numArguments (getType VD) =? 1) && String.eqb (getName VD) "&"
          = false) as ->.
  { destruct (numArguments (getType VD) =? 1) eqn:E1; [|done].
    apply Z.eqb_eq in E1. cbn [andb]. by apply String.eqb_neq, Hamp. }
  destruct (isInfix (getAttrs VD)) eqn:Hin; cbn [andb].
  - destruct (numArguments (getType VD) =? 2) eqn:E2; cbn [negb].
    + apply Z.eqb_eq in E2.
      destruct Hfix as [[_ ?] | [Hpost H1]]; [lia|]. rewrite Hpost.
      replace (numArguments (getType VD) =? 1) with false
        by (symmetry; by apply Z.eqb_neq).
      cbn [andb negb].
      exists invalid_postfix_input, (mutateAttrs (setPostfix false) VD).
      split; [reflexivity|]. split; [intros _ ?; lia | done].
    + apply Z.eqb_neq in E2.
      exists invalid_infix_left_input,
             (mutateAttrs (setInfix InfixInvalid) VD).
      split; [reflexivity|]. split; [done|].
      intros [? | ?]; [discriminate | lia].
  - destruct Hfix as [[? _] | [Hpost H1]]; [discriminate|]. rewrite Hpost.
    replace (numArguments (getType VD) =? 1) with false
      by (symmetry; by apply Z.eqb_neq).
    cbn [andb negb].
    exists invalid_postfix_input, (mutateAttrs (setPostfix false) VD).
    split; [reflexivity|]. split; [discriminate | done].
Qed.

Lemma setAttrs_fields VD VD' :
  VD' = setAttrs (getAttrs VD') VD ->
  getType VD' = getType VD /\ isOperator VD' = isOperator VD /\
  isInstanceMember VD' = isInstanceMember VD /\ getName VD' = getName VD.
Proof. intros ->. by repeat split. Qed.

Lemma legal_checkAssignment (isFuncDecl : bool) n VD :
  yields X
    (fun VD' =>
       Assignment (getAttrs VD') = true ->
       isFuncDecl = true /\ isOperator VD = true /\
       exists ParamType,
         firstParameterType (getType VD) = Some ParamType /\
         isLValueType ParamType = true)
    (checkAssignment isFuncDecl n VD).
Proof.
  unfold checkAssignment, firstParameterType.
  destruct (Assignment (getAttrs VD)) eqn:HA;
    [|apply yields_ret; congruence].
  destruct (negb isFuncDecl || negb (isOperator VD)) eqn:Hf;
    [apply yields_bind; intros; apply yields_ret; discriminate|].
  apply orb_false_iff in Hf as [Hf Hop].
  apply negb_false_iff in Hf, Hop.
  destruct (n <? 1);
    [apply yields_bind; intros; apply yields_ret; discriminate|].
  destruct (asAnyFunctionType (getType VD)) as [[input result]|];
    [|apply yields_abort].
  intros tc VD' tc' H. apply bind_Some in H as (ParamType & tc1 & HP & H).
  assert (match asTupleType input with
          | Some (elt :: _) => Some (getEltType elt)
          | Some [] => None
          | None => Some input
          end = Some ParamType) as Hfirst.
  { destruct (asTupleType input) as [[|elt fs]|]; [discriminate| |];
      by injection HP as <- _. }
  destruct (isLValueType ParamType) eqn:HL; cbn [negb] in H.
  - intros _. split; [done|]. split; [done|]. by exists ParamType.
  - apply bind_Some in H as (u & tc2 & _ & [= <- _]). discriminate.
Qed.

Lemma legal_checkConversion (isFuncDecl : bool) VD :
  yields X
    (fun VD' =>
       Conversion (getAttrs VD') = true ->
       isFuncDecl = true /\ isInstanceMember VD = true /\
       (getType VD = TError \/
        exists InputTy result,
          asBoundMethodType (getType VD) = Some (InputTy, result) /\
          acceptsEmptyParamList InputTy = true))
    (checkConversion isFuncDecl VD).
Proof.
  unfold checkConversion, asBoundMethodType, acceptsEmptyParamList.
  destruct (Conversion (getAttrs VD)) eqn:HC;
    [|apply yields_ret; congruence].
  destruct (negb isFuncDecl || negb (isInstanceMember VD)) eqn:Hf;
    [apply yields_bind; intros; apply yields_ret; discriminate|].
  apply orb_false_iff in Hf as [Hf Him].
  apply negb_false_iff in Hf, Him.
  destruct (isErrorType (getType VD)) eqn:HE; cbn [negb].
  - apply yields_ret. intros _. split; [done|]. split; [done|]. left.
    by destruct (getType VD).
  - destruct (asAnyFunctionType (getType VD)) as [[input result]|];
      [|apply yields_abort].
    destruct (asAnyFunctionType result) as [[InputTy result']|];
      [|apply yields_abort].
    destruct (match asTupleType InputTy with
              | Some fields => forallb hasInit fields
              | None => false
              end) eqn:Hacc; cbn [negb].
    + apply yields_ret. intros _. split; [done|]. split; [done|]. right.
      by exists InputTy, result'.
    + apply yields_bind; intros; apply yields_ret; discriminate.
Qed.

Lemma cleared_checkByref VD :
  yields X (fun VD' => Byref (getAttrs VD') = false) (checkByref VD).
Proof.
  unfold checkByref. destruct (Byref (getAttrs VD)) eqn:HB.
  - apply yields_bind; intros. by apply yields_ret.
  - by apply yields_ret.
Qed.

Lemma cleared_checkAutoClosure VD :
  yields X (fun VD' => AutoClosure (getAttrs VD') = false)
         (checkAutoClosure VD).
Proof.
  unfold checkAutoClosure. destruct (AutoClosure (getAttrs VD)) eqn:HB.
  - apply yields_bind; intros. by apply yields_ret.
  - by apply yields_ret.
Qed.

(** X7. A declaration that gets past the shape checks leaves
    [validateAttributes] with attributes that are legal on it: no [byref]
    and no [auto_closure]; [assignment] only on an operator function whose
    first parameter is an lvalue; [conversion] only on an instance-member
    function whose type is [ErrorType] or whose bound method can be called
    with no argument. *)
Theorem validated_attributes_are_legal :
  forall (isFuncDecl : bool) VD tc VD' tc' evs,
    validateAttributes isFuncDecl VD tc = Some (VD', tc') ->
    Log tc' = Log tc ++ evs ->
    Forall (fun d => ~ isShapeDiag d) (diagnosticsOf evs) ->
    Byref (getAttrs VD') = false /\ AutoClosure (getAttrs VD') = false /\
    (Assignment (getAttrs VD') = true ->
     isFuncDecl = true /\ isOperator VD = true /\
     exists ParamType,
       firstParameterType (getType VD) = Some ParamType /\
       isLValueType ParamType = true) /\
    (Conversion (getAttrs VD') = true ->
     isFuncDecl = true /\ isInstanceMember VD = true /\
     (getType VD = TError \/
      exists InputTy result,
        asBoundMethodType (getType VD) = Some (InputTy, result) /\
        acceptsEmptyParamList InputTy = true)).
Proof.
  intros isFuncDecl VD tc VD' tc' evs H HL HF.
  unfold validateAttributes in H. cbv zeta in H.
  repeat lazymatch type of H with
    | (if ?b then _ else _) _ = Some _ =>
        destruct b;
        [ cbv beta iota delta [bind diagnose emit ret] in H;
          injection H as <- <-; cbn in HL; apply app_inv_head in HL;
          subst evs; cbn in HF; inversion HF as [|? ? Hd _];
          exfalso; apply Hd; exact I
        | ]
    end.
  clear HL HF evs. set (n := numArguments (getType VD)) in H.
  unfold validateRemainingAttributes in H.
  apply bind_Some in H as (VD1 & tc1 & H1 & H).
  apply bind_Some in H as (VD2 & tc2 & H2 & H).
  apply bind_Some in H as (VD3 & tc3 & H3 & H).
  apply bind_Some in H as (VD4 & tc4 & H4 & H5).
  pose proof (attributeStep_checkAssignment _ _ _ _ _ _ H1) as (E1 & _ & _).
  pose proof (attributeStep_checkConversion _ n _ _ _ _ H2)
    as (E2 & (_ & A2 & _) & _).
  pose proof (attributeStep_inheritInfix _ _ _ _ _ H3)
    as (E3 & (_ & A3 & C3 & _) & _).
  pose proof (attributeStep_checkByref n _ _ _ _ H4)
    as (E4 & (_ & A4 & C4 & _) & _).
  pose proof (attributeStep_checkAutoClosure n _ _ _ _ H5)
    as (E5 & (_ & A5 & C5 & B5 & _) & _).
  apply setAttrs_fields in E1 as (T1 & O1 & M1 & _).
  split; [|split; [|split]].
  - apply cleared_checkByref in H4.
    destruct (Byref (getAttrs VD')); [|done]. rewrite <- H4. symmetry.
    by apply B5.
  - by apply cleared_checkAutoClosure in H5.
  - intros HA. apply (legal_checkAssignment _ _ _ _ _ _ H1). auto.
  - intros HC. rewrite <- T1, <- M1.
    apply (legal_checkConversion _ _ _ _ _ H2). auto.
Qed.

Lemma total_bind_with {A B} (P : A -> Prop) (m : M X A) (k : A -> M X B) :
  total X m -> yields X P m -> (forall a, P a -> total X (k a)) ->
  total X (bind m k).
Proof.
  intros Hm HP Hk tc. destruct (Hm tc) as (a & tc1 & E).
  destruct (Hk a (HP _ _ _ E) tc1) as (b & tc2 & E2).
  exists b, tc2. unfold bind. by rewrite E.
Qed.

Lemma numArguments_positive t :
  1 <= numArguments t ->
  exists input result elt fields,
    asAnyFunctionType t = Some (input, result) /\
    asTupleType input = Some (elt :: fields).
Proof.
  unfold numArguments.
  destruct (asAnyFunctionType t) as [[input result]|]; [|lia].
  destruct (asTupleType input) as [[|elt fields]|] eqn:ET; cbn; [lia| |lia].
  intros _. by exists input, result, elt, fields.
Qed.

Lemma total_checkAssignment (isFuncDecl : bool) VD :
  total X (checkAssignment isFuncDecl (numArguments (getType VD)) VD).
Proof.
  unfold checkAssignment.
  destruct (Assignment (getAttrs VD)); [|apply total_ret].
  destruct (negb isFuncDecl || negb (isOperator VD));
    [repeat total_step|].
  destruct (numArguments (getType VD) <? 1) eqn:Hn; [repeat total_step|].
  apply Z.ltb_ge in Hn.
  destruct (numArguments_positive _ Hn)
    as (input & result & elt & fs & -> & ->).
  repeat total_step.
Qed.

Lemma total_checkConversion (isFuncDecl : bool) VD :
  (Conversion (getAttrs VD) = true -> isFuncDecl = true ->
   isInstanceMember VD = true ->
   getType VD = TError \/ exists m, asBoundMethodType (getType VD) = Some m) ->
  total X (checkConversion isFuncDecl VD).
Proof.
  intros Hc. unfold checkConversion.
  destruct (Conversion (getAttrs VD)); [|apply total_ret].
  destruct (negb isFuncDecl || negb (isInstanceMember VD)) eqn:Hf;
    [repeat total_step|].
  apply orb_false_iff in Hf as [Hf Him].
  apply negb_false_iff in Hf, Him.
  destruct (isErrorType (getType VD)) eqn:HE; cbn [negb]; [apply total_ret|].
  destruct (Hc eq_refl Hf Him) as [Herr | (m & Hm)].
  - by rewrite Herr in HE.
  - unfold asBoundMethodType in Hm.
    destruct (asAnyFunctionType (getType VD)) as [[input result]|];
      [|discriminate].
    destruct (asAnyFunctionType result) as [[InputTy result']|];
      [|discriminate].
    repeat total_step.
Qed.

Lemma total_inheritInfix n VD : total X (inheritInfix n VD).
Proof.
  unfold inheritInfix.
  repeat first [apply total_inheritFromModules | total_step].
Qed.

(** X8. [validateAttributes] runs to its end on every declaration whose
    [conversion] attribute, if it has one and is an instance-member
    function, sits on a type that is [ErrorType] or a function returning a
    function: the casts of the assignment rule are behind the test that
    there is at least one argument, and cannot fail. *)
Theorem validateAttributes_returns :
  forall (isFuncDecl : bool) VD tc,
    (Conversion (getAttrs VD) = true -> isFuncDecl = true ->
     isInstanceMember VD = true ->
     getType VD = TError \/
     exists m, asBoundMethodType (getType VD) = Some m) ->
    exists VD' tc', validateAttributes isFuncDecl VD tc = Some (VD', tc').
Proof.
  intros isFuncDecl VD tc Hc. revert tc.
  change (total X (validateAttributes isFuncDecl VD)).
  unfold validateAttributes. cbv zeta.
  repeat lazymatch goal with
    | |- total _ (if ?b then _ else _) =>
        destruct b; [solve [repeat total_step]|]
    end.
  unfold validateRemainingAttributes.
  eapply total_bind_with;
    [apply total_checkAssignment | apply attributeStep_checkAssignment|].
  intros VD1 (E1 & (_ & _ & C1 & _) & _).
  apply setAttrs_fields in E1 as (T1 & _ & M1 & _).
  apply total_bind.
  { apply total_checkConversion. rewrite T1, M1. auto. }
  intros VD2. apply total_bind; [apply total_inheritInfix|].
  intros VD3. unfold checkByref, checkAutoClosure. repeat total_step.
Qed.

(** *** Where an operator takes its [infix] from *)

Lemma inheritFromDecls_first vars before D Existing rest VD :
  Forall (fun D0 => forall E0, asValueDecl vars D0 = Some E0 ->
                               sameNameInfix VD E0 = false) before ->
  asValueDecl vars D = Some Existing -> sameNameInfix VD Existing = true ->
  inheritFromDecls vars (before ++ D :: rest) VD
  = mutateAttrs (setInfix (Infix (getAttrs Existing))) VD.
Proof.
  intros Hbefore HD Hsame.
  induction Hbefore as [|D0 before H0 _ IH]; simpl.
  - by rewrite HD, Hsame.
  - destruct (asValueDecl vars D0) as [E0|]; [|exact IH].
    by rewrite (H0 E0 eq_refl).
Qed.

Lemma inheritFromDecls_none vars decls VD :
  Forall (fun D0 => forall E0, asValueDecl vars D0 = Some E0 ->
                               sameNameInfix VD E0 = false) decls ->
  inheritFromDecls vars decls VD = VD.
Proof.
  intros Hnone. induction Hnone as [|D0 decls H0 _ IH]; simpl; [done|].
  destruct (asValueDecl vars D0) as [E0|]; [|exact IH].
  by rewrite (H0 E0 eq_refl).
Qed.

(** X9. A binary operator function declared in the translation unit without
    attributes takes the [Infix] data of the first value declaration of the
    translation unit, in source order, that has its name and is infix; no
    imported module is then looked up and nothing is diagnosed. *)
Theorem infix_inherited_from_translation_unit :
  forall VD tc before D Existing rest,
    isOperator VD = true -> getAttrs VD = noAttrs ->
    numArguments (getType VD) = 2 ->
    isTranslationUnit (getDeclContext VD) = true ->
    tu_decls (TU tc) = before ++ D :: rest ->
    Forall (fun D0 => forall E0, asValueDecl (Vars tc) D0 = Some E0 ->
                                 sameNameInfix VD E0 = false) before ->
    asValueDecl (Vars tc) D = Some Existing ->
    sameNameInfix VD Existing = true ->
    validateAttributes true VD tc
    = Some (mutateAttrs (setInfix (Infix (getAttrs Existing))) VD, tc).
Proof.
  intros VD tc before D Existing rest Hop Hattrs Hn HTU Hdecls Hbefore HD Hsame.
  assert (exists a p, Infix (getAttrs Existing) = InfixValid a p)
    as (a & p & HI).
  { apply andb_true_iff in Hsame as [_ H]. unfold isInfix in H.
    destruct (Infix _); [discriminate | eauto]. }
  unfold validateAttributes, validateRemainingAttributes, checkAssignment,
    checkConversion, inheritInfix, checkByref, checkAutoClosure.
  unfold bind, ret, getTC.
  repeat (progress (rewrite ?Hop, ?Hattrs, ?Hn, ?HTU; cbn -[inheritFromDecls])).
  rewrite Hdecls, (inheritFromDecls_first _ _ _ _ _ _ Hbefore HD Hsame), HI.
  repeat (progress (rewrite ?Hattrs; cbn)). reflexivity.
Qed.

Lemma inheritFromFound_isInfix found VD :
  isInfix (getAttrs (inheritFromFound found VD)) = true <->
  isInfix (getAttrs VD) = true \/
  exists Existing, Existing ∈ found /\ sameNameInfix VD Existing = true.
Proof.
  induction found as [|E found IH]; simpl.
  - split; [by left|]. intros [? | (E & HE & _)]; [done|].
    by apply elem_of_nil in HE.
  - destruct (sameNameInfix VD E) eqn:Hsame.
    + split.
      * intros _. right. exists E. split; [apply list_elem_of_here | done].
      * intros _. by apply andb_true_iff in Hsame as [_ Hsame].
    + destruct (isInfix (getAttrs VD)) eqn:Hin.
      * split; [by left | by rewrite Hin].
      * rewrite IH. split.
        -- intros [? | (E' & HE' & HS')]; [discriminate|].
           right. exists E'. split; [by apply list_elem_of_further | done].
        -- intros [? | (E' & HE' & HS')]; [discriminate|].
           right. exists E'. split; [|done].
           apply elem_of_cons in HE' as [-> | HE']; [congruence | done].
Qed.

Lemma sameNameInfix_name VD VD' Existing :
  getName VD' = getName VD ->
  sameNameInfix VD' Existing = sameNameInfix VD Existing.
Proof. unfold sameNameInfix. by intros ->. Qed.

Lemma inheritFromModules_isInfix mods VD tc :
  exists VD',
    inheritFromModules mods VD tc
    = Some (VD', appendLog tc (moduleLookups (getName VD) mods)) /\
    (exists i, VD' = mutateAttrs (setInfix i) VD) /\
    (isInfix (getAttrs VD') = true <->
     isInfix (getAttrs VD) = true \/
     exists Mod Existing,
       Some Mod ∈ mods /\ Existing ∈ lookupValue Mod (getName VD) /\
       sameNameInfix VD Existing = true).
Proof.
  revert VD tc. induction mods as [|[Mod|] mods IH]; intros VD tc.
  - exists VD. split; [by rewrite appendLog_nil|].
    split; [exists (Infix (getAttrs VD)); by destruct VD as [? ? []]|].
    split; [by left|]. intros [? | (Mod & E & HM & _)]; [done|].
    by apply elem_of_nil in HM.
  - cbn [inheritFromModules].
    destruct (inheritFromFound_infix (lookupValue Mod (getName VD)) VD)
      as (i & Ei).
    pose proof (inheritFromFound_isInfix (lookupValue Mod (getName VD)) VD)
      as Hfound.
    set (VD1 := inheritFromFound (lookupValue Mod (getName VD)) VD) in *.
    assert (getName VD1 = getName VD) as Hname by by rewrite Ei.
    destruct (IH VD1 (appendLog tc [LookupValue (getName VD)]))
      as (VD' & E & (j & Ej) & Hiff).
    exists VD'. split; [|split].
    + unfold bind.
      change (emit (LookupValue (getName VD)) tc)
        with (Some (tt, appendLog tc [LookupValue (getName VD)])).
      cbv iota. rewrite E, Hname, appendLog_app. reflexivity.
    + exists j. by rewrite Ej, Ei.
    + rewrite Hiff, Hfound, Hname. split.
      * intros [[? | (E0 & HE0 & HS0)] | (Mod' & E' & HM' & HE' & HS')].
        -- by left.
        -- right. exists Mod, E0. split; [apply list_elem_of_here | done].
        -- right. exists Mod', E'. split; [by apply list_elem_of_further|].
           split; [done|]. by rewrite <- (sameNameInfix_name VD VD1).
      * intros [? | (Mod' & E' & HM' & HE' & HS')]; [by left; left|].
        apply elem_of_cons in HM' as [[= <-] | HM'].
        -- left. right. by exists E'.
        -- right. exists Mod', E'. split; [done|]. split; [done|].
           by rewrite (sameNameInfix_name VD VD1).
  - cbn [inheritFromModules].
    destruct (IH VD tc) as (VD' & E & Hi & Hiff).
    exists VD'. split; [exact E|]. split; [exact Hi|].
    rewrite Hiff. split.
    + intros [? | (Mod' & E' & HM' & HE')]; [by left|].
      right. exists Mod', E'. split; [by apply list_elem_of_further | done].
    + intros [? | (Mod' & E' & HM' & HE')]; [by left|].
      right. exists Mod', E'. split; [|done].
      apply elem_of_cons in HM' as [? | HM']; [discriminate | done].
Qed.

(** X10. When no declaration of the translation unit gives a binary operator
    function its [infix], a lookup is made in every imported module that is
    there, whether or not an earlier one had a hit; the operator ends up
    infix exactly when some module holds an infix declaration of its name,
    and [binops_infix_left] is diagnosed exactly when none does. *)
Theorem infix_lookup_consults_every_module :
  forall VD tc,
    isOperator VD = true -> getAttrs VD = noAttrs ->
    numArguments (getType VD) = 2 ->
    isTranslationUnit (getDeclContext VD) = true ->
    Forall (fun D0 => forall E0, asValueDecl (Vars tc) D0 = Some E0 ->
                                 sameNameInfix VD E0 = false)
           (tu_decls (TU tc)) ->
    exists VD',
      validateAttributes true VD tc
      = Some (VD',
              appendLog tc
                (moduleLookups (getName VD) (tu_importedModules (TU tc))
                 ++ (if isInfix (getAttrs VD') then []
                     else [Diagnose binops_infix_left]))) /\
      (exists i, VD' = mutateAttrs (setInfix i) VD) /\
      (isInfix (getAttrs VD') = true <->
       exists Mod Existing,
         Some Mod ∈ tu_importedModules (TU tc) /\
         Existing ∈ lookupValue Mod (getName VD) /\
         sameNameInfix VD Existing = true).
Proof.
  intros VD tc Hop Hattrs Hn HTU Hnone.
  destruct (inheritFromModules_isInfix (tu_importedModules (TU tc)) VD tc)
    as (VD' & E & (i & ->) & Hiff).
  exists (mutateAttrs (setInfix i) VD).
  split; [|split; [by exists i|]].
  - unfold validateAttributes, validateRemainingAttributes, checkAssignment,
      checkConversion, inheritInfix, checkByref, checkAutoClosure.
    unfold bind, ret, getTC, diagnose, emit.
    repeat (progress (rewrite ?Hop, ?Hattrs, ?Hn, ?HTU;
                      cbn -[inheritFromDecls inheritFromModules])).
    rewrite (inheritFromDecls_none _ _ _ Hnone), Hattrs.
    cbn -[inheritFromModules]. rewrite E.
    destruct i as [|a p]; cbn; repeat (progress (rewrite ?Hattrs; cbn));
      unfold appendLog; cbn; by rewrite <- ?app_assoc, ?app_nil_r.
  - rewrite Hiff, Hattrs. split; [|by right].
    intros [? | ?]; [discriminate | done].
Qed.

(** X11. An operator function that is not declared directly in the
    translation unit (a member, say) inherits nothing: without attributes
    and with two arguments it draws [binops_infix_left] and no declaration
    or module is looked at. *)
Theorem operator_outside_translation_unit_inherits_nothing :
  forall VD tc,
    isOperator VD = true -> getAttrs VD = noAttrs ->
    numArguments (getType VD) = 2 ->
    isTranslationUnit (getDeclContext VD) = false ->
    validateAttributes true VD tc
    = Some (VD, appendLog tc [Diagnose binops_infix_left]).
Proof.
  intros VD tc Hop Hattrs Hn HTU.
  unfold validateAttributes, validateRemainingAttributes, checkAssignment,
    checkConversion, inheritInfix, checkByref, checkAutoClosure.
  unfold bind, ret, getTC, diagnose, emit.
  repeat (progress (rewrite ?Hop, ?Hattrs, ?Hn, ?HTU; cbn)).
  reflexivity.
Qed.

End AttributeRules.

(* ===================================================================== *)
(** ** Inheritance clauses *)
(* ===================================================================== *)

Section InheritanceProperties.

Context {X : Type} (C : Collaborators X).
Implicit Types (tc : TypeChecker X).

Lemma checkInheritedOne_checks (fp : bool) tl tc :
  exists tl' (failed : bool) evs tc',
    checkInheritedOne C fp tl tc = Some (tl', tc') /\
    after tc evs tc' /\
    List.filter isValidateType evs = [ValidateType (tl_type tl) fp failed] /\
    (failed = true -> tl' = mkTypeLoc TError) /\
    diagnosticsOf evs = option_list (inheritDiag tl').
Proof.
  unfold checkInheritedOne.
  destruct (callValidateType_run C fp tl tc) as (failed & tl1 & tc1 & E & A).
  unfold bind. rewrite E. cbn iota beta.
  destruct failed.
  - exists (mkTypeLoc TError), true. eexists _, tc1.
    split; [reflexivity|]. split; [exact A|]. by repeat split.
  - unfold inheritDiag.
    destruct (negb (isExistentialType (tl_type tl1))
              && negb (isErrorType (tl_type tl1))) eqn:Hd.
    + destruct (emit_run (Diagnose (nonprotocol_inherit (tl_type tl1))) tc1)
        as (tc2 & E2 & A2).
      exists tl1, false. eexists _, tc2. unfold diagnose. rewrite E2, Hd.
      split; [reflexivity|]. split; [exact (after_trans _ _ _ _ _ A A2)|].
      by repeat split.
    + exists tl1, false. eexists _, tc1. rewrite Hd.
      split; [reflexivity|]. split; [exact A|]. by repeat split.
Qed.

Lemma checkInherited_checks :
  forall (fp : bool) Inherited tc,
    exists Inherited' (failed : list bool) evs tc',
      checkInherited C fp Inherited tc = Some (Inherited', tc') /\
      after tc evs tc' /\
      length Inherited' = length Inherited /\
      List.filter isValidateType evs
      = zip_with (fun tl f => ValidateType (tl_type tl) fp f)
                 Inherited failed /\
      length failed = length Inherited /\
      (forall i, failed !! i = Some true ->
                 Inherited' !! i = Some (mkTypeLoc TError)) /\
      diagnosticsOf evs = omap inheritDiag Inherited'.
Proof.
  intros fp Inherited. unfold checkInherited.
  induction Inherited as [|tl Inherited IH]; intros tc; cbn [forEach].
  - exists [], [], [], tc. split; [reflexivity|].
    split; [apply after_refl|]. by repeat split.
  - destruct (checkInheritedOne_checks fp tl tc)
      as (tl' & f & e1 & tc1 & E1 & A1 & V1 & P1 & D1).
    destruct (IH tc1)
      as (inh' & fs & e2 & tc2 & E2 & A2 & L2 & V2 & LF & P2 & D2).
    exists (tl' :: inh'), (f :: fs), (e1 ++ e2), tc2.
    unfold bind. rewrite E1. cbn iota beta.
    rewrite E2.
    split; [reflexivity|]. split; [exact (after_trans _ _ _ _ _ A1 A2)|].
    split; [cbn; by rewrite L2|].
    split; [by rewrite List.filter_app, V1, V2|].
    split; [cbn; by rewrite LF|].
    split.
    + intros [|i] Hi; cbn in *; [injection Hi as ->; by rewrite P1 | auto].
    + unfold diagnosticsOf in *. rewrite omap_app, D1, D2. cbn.
      by destruct (inheritDiag tl').
Qed.

(** X12. [checkInherited] validates every entry of the clause once, in
    order, a failure not stopping it; an entry whose validation fails is
    left as [ErrorType]; and the diagnostics are one [nonprotocol_inherit]
    for each entry that ends up neither a protocol (or composition) nor
    [ErrorType], so that a failed entry is not diagnosed here. *)
Theorem checkInherited_poisons_and_goes_on :
  forall (fp : bool) Inherited tc,
    exists Inherited' (failed : list bool) evs tc',
      checkInherited C fp Inherited tc = Some (Inherited', tc') /\
      after tc evs tc' /\
      length Inherited' = length Inherited /\
      List.filter isValidateType evs
      = zip_with (fun tl f => ValidateType (tl_type tl) fp f)
                 Inherited failed /\
      length failed = length Inherited /\
      (forall i, failed !! i = Some true ->
                 Inherited' !! i = Some (mkTypeLoc TError)) /\
      diagnosticsOf evs = omap inheritDiag Inherited'.
Proof. exact checkInherited_checks. Qed.

Lemma forEach_conformsToProtocol T protos tc :
  exists tc',
    forEach_ (callConformsToProtocol C T) protos tc = Some (tt, tc') /\
    after tc (map (ConformsToProtocol T) protos) tc'.
Proof.
  revert tc. induction protos as [|p protos IH]; intros tc; cbn [forEach_].
  - exists tc. split; [reflexivity | apply after_refl].
  - unfold bind, callConformsToProtocol at 1. cbn iota beta.
    destruct (IH (withExt tc (conformsToProtocol C T p (Ext tc))
                         (ConformsToProtocol T p))) as (tc' & E & A).
    exists tc'. split; [exact E|].
    refine (after_trans _ [_] _ _ _ _ A). by repeat split.
Qed.

Lemma checkExplicitConformance_run T Inherited tc :
  exists tc',
    checkExplicitConformance C T Inherited tc = Some (tt, tc') /\
    after tc (conformanceCalls T Inherited) tc'.
Proof.
  unfold checkExplicitConformance, conformanceCalls. revert tc.
  induction Inherited as [|tl Inherited IH]; intros tc; cbn [forEach_ map concat].
  - exists tc. split; [reflexivity | apply after_refl].
  - assert (exists tc1,
              match existentialProtocols (tl_type tl) with
              | Some InheritedProtos =>
                  forEach_ (callConformsToProtocol C T) InheritedProtos
              | None => ret tt
              end tc = Some (tt, tc1) /\
              after tc (map (ConformsToProtocol T)
                            (default [] (existentialProtocols (tl_type tl))))
                    tc1) as (tc1 & E1 & A1).
    { destruct (existentialProtocols (tl_type tl)) as [protos|]; cbn.
      - apply forEach_conformsToProtocol.
      - exists tc. split; [reflexivity | apply after_refl]. }
    destruct (IH tc1) as (tc2 & E2 & A2).
    exists tc2. unfold bind. rewrite E1. cbn iota beta.
    split; [exact E2 | exact (after_trans _ _ _ _ _ A1 A2)].
Qed.

(** X13. [checkExplicitConformance] asks for one conformance per protocol
    the clause names, in the order of the clause (a composition gives one
    call per protocol); an entry that is not a protocol or composition,
    [ErrorType] included, is passed over; nothing is diagnosed and no
    variable or archetype is touched. *)
Theorem checkExplicitConformance_calls :
  forall T Inherited tc,
    exists tc',
      checkExplicitConformance C T Inherited tc = Some (tt, tc') /\
      after tc (conformanceCalls T Inherited) tc'.
Proof. exact checkExplicitConformance_run. Qed.

(** X14. Outside the second pass a type alias has its underlying type
    validated and is left with the type the validator answered; then,
    unless it is declared in a protocol (whose visit has done it already),
    its inheritance clause is checked and it is left with the clause as
    [checkInherited] answered it; outside the first pass the conformances
    are then asked for that clause, so an entry that failed is passed over.
    The second pass asks for the conformances of the clause as it stands
    and does nothing else. *)
Theorem typealias_conformance_follows_inheritance_check :
  forall (fp : bool) TAD tc,
    (exists tc'',
       visitTypeAliasDecl C false true TAD tc = Some (TAD, tc'') /\
       after tc (conformanceCalls (tad_declaredType TAD) (tad_inherited TAD))
             tc'') /\
    exists (failed : bool) Underlying x Inherited tc1 tc',
      validateType C (tad_underlying TAD) fp (Ext tc)
      = (failed, Underlying, x) /\
      (if isProtocolContext (getDeclContext (tad_base TAD))
       then Inherited = tad_inherited TAD /\
            tc1 = withExt tc x
                    (ValidateType (tl_type (tad_underlying TAD)) fp failed)
       else checkInherited C fp (tad_inherited TAD)
              (withExt tc x
                 (ValidateType (tl_type (tad_underlying TAD)) fp failed))
            = Some (Inherited, tc1)) /\
      (if fp then tc' = tc1
       else checkExplicitConformance C (tad_declaredType TAD) Inherited tc1
            = Some (tt, tc')) /\
      Log tc'
      = Log tc1
        ++ (if fp then []
            else conformanceCalls (tad_declaredType TAD) Inherited) /\
      visitTypeAliasDecl C fp false TAD tc
      = Some (setTadInherited Inherited (setUnderlying Underlying TAD), tc').
Proof.
  intros fp TAD tc. split.
  - unfold visitTypeAliasDecl. cbn [negb].
    destruct (checkExplicitConformance_run (tad_declaredType TAD)
                (tad_inherited TAD) tc) as (tc2 & E & A).
    exists tc2. unfold bind, ret at 1. cbn iota beta. rewrite E.
    split; [reflexivity | exact A].
  - destruct (validateType C (tad_underlying TAD) fp (Ext tc))
      as [[failed U] x] eqn:E1.
    set (tc0 := withExt tc x
                  (ValidateType (tl_type (tad_underlying TAD)) fp failed)).
    assert (exists Inherited tc1,
              (if isProtocolContext (getDeclContext (tad_base TAD))
               then Inherited = tad_inherited TAD /\ tc1 = tc0
               else checkInherited C fp (tad_inherited TAD) tc0
                    = Some (Inherited, tc1)) /\
              (if negb (isProtocolContext
                          (getDeclContext
                             (tad_base (setUnderlying U TAD))))
               then
                 inh <- checkInherited C fp
                          (tad_inherited (setUnderlying U TAD)) ;;
                 ret (setTadInherited inh (setUnderlying U TAD))
               else ret (setUnderlying U TAD)) tc0
              = Some (setTadInherited Inherited (setUnderlying U TAD), tc1))
      as (Inherited & tc1 & H2 & E2).
    { cbn [setUnderlying tad_base tad_inherited].
      destruct (isProtocolContext (getDeclContext (tad_base TAD)));
        cbn [negb].
      - exists (tad_inherited TAD), tc0. split; [done|]. by destruct TAD.
      - destruct (checkInherited_run C fp (tad_inherited TAD) tc0)
          as (inh & evs & tc1 & E & _).
        exists inh, tc1. split; [exact E|]. unfold bind. by rewrite E. }
    assert (exists tc',
              (if fp then tc' = tc1
               else checkExplicitConformance C (tad_declaredType TAD)
                      Inherited tc1 = Some (tt, tc')) /\
              Log tc'
              = Log tc1
                ++ (if fp then []
                    else conformanceCalls (tad_declaredType TAD) Inherited) /\
              (if negb fp
               then checkExplicitConformance C (tad_declaredType TAD)
                                             Inherited
               else ret tt) tc1 = Some (tt, tc'))
      as (tc' & H3 & L3 & E3).
    { destruct fp; cbn [negb].
      - exists tc1. split; [done|]. by rewrite app_nil_r.
      - destruct (checkExplicitConformance_run (tad_declaredType TAD)
                    Inherited tc1) as (tc' & E & (_ & _ & _ & L)).
        by exists tc'. }
    exists failed, U, x, Inherited, tc1, tc'.
    split; [reflexivity|]. split; [exact H2|]. split; [exact H3|].
    split; [exact L3|].
    unfold visitTypeAliasDecl. cbn [negb].
    unfold bind at 1 2, callValidateType. rewrite E1.
    cbv iota beta zeta. cbn [snd]. fold tc0. rewrite E2.
    unfold bind. cbn [setTadInherited setUnderlying tad_declaredType
                      tad_inherited]. by rewrite E3.
Qed.

End InheritanceProperties.

(* ===================================================================== *)
(** ** Bound variables *)
(* ===================================================================== *)

Section BoundVariableProperties.

Context {X : Type}.
Implicit Types (tc : TypeChecker X) (m : gmap nat VarDecl).

Lemma materialized_idemp t : materialized (materialized t) = materialized t.
Proof.
  unfold materialized. destruct (isMaterializable t) eqn:E; [by rewrite E|].
  by destruct (isMaterializable TError).
Qed.

Lemma sameVariable_refl V : sameVariable V V.
Proof. by repeat split. Qed.

Lemma sameVariable_trans V1 V2 V3 :
  sameVariable V1 V2 -> sameVariable V2 V3 -> sameVariable V1 V3.
Proof.
  intros (? & ? & ? & ? & ?) (? & ? & ? & ? & ?). repeat split; congruence.
Qed.

Lemma visited_nil m : visited [] m m.
Proof.
  intros v. destruct (m !! v) as [V|] eqn:E; [|done].
  exists V. split; [done|]. split; [apply sameVariable_refl|].
  split; [|done]. intros H. by apply elem_of_nil in H.
Qed.

Lemma visited_app vs1 vs2 m1 m2 m3 :
  visited vs1 m1 m2 -> visited vs2 m2 m3 -> visited (vs1 ++ vs2) m1 m3.
Proof.
  intros H12 H23 v. specialize (H12 v). specialize (H23 v).
  destruct (m1 !! v) as [V1|].
  - destruct H12 as (V2 & E2 & S12 & In1 & Out1). rewrite E2 in H23.
    destruct H23 as (V3 & E3 & S23 & In2 & Out2).
    exists V3. split; [exact E3|].
    split; [exact (sameVariable_trans _ _ _ S12 S23)|]. split.
    + intros Hin. apply elem_of_app in Hin.
      destruct (decide (v ∈ vs2)) as [H2|H2].
      * rewrite (In2 H2). destruct (decide (v ∈ vs1)) as [H1|H1].
        -- by rewrite (In1 H1), materialized_idemp.
        -- by rewrite (Out1 H1).
      * rewrite (Out2 H2). destruct Hin as [H1|?]; [by apply In1 | done].
    + intros Hout. rewrite elem_of_app in Hout.
      rewrite Out2, Out1; tauto.
  - by rewrite H12 in H23.
Qed.

Lemma visitBoundVars_named decl ty tc tc' :
  visitBoundVars (NamedPattern decl ty) tc = Some (tt, tc') ->
  visited [decl] (Vars tc) (Vars tc').
Proof.
  cbn [visitBoundVars]. intros H.
  apply bind_Some in H as (V & tc0 & HV & H).
  unfold lookupVar in HV.
  destruct (Vars tc !! decl) as [V0|] eqn:Hdecl; [|discriminate].
  injection HV as -> <-.
  apply bind_Some in H as (VD1 & tc1 & H1 & H).
  apply bind_Some in H as (VD2 & tc2 & H2 & H3).
  assert (getType VD1 = materialized (getType (var_base V)) /\
          VD1 = setType (getType VD1) (var_base V) /\
          forall v, v <> decl -> Vars tc1 !! v = Vars tc !! v)
    as (T1 & E1 & F1).
  { unfold materialized.
    destruct (isMaterializable (getType (var_base V))); cbn [negb] in H1.
    - injection H1 as <- <-. split; [done|]. split; [|done].
      by destruct (var_base V).
    - apply bind_Some in H1 as (u & tc3 & [= _ <-] & H1).
      apply bind_Some in H1 as (u' & tc4 & [= _ <-] & [= <- <-]).
      split; [done|]. split; [done|]. intros v Hv. cbn.
      by rewrite lookup_insert_ne. }
  pose proof (validateAttributes_step _ _ _ _ _ H2) as (E2 & _ & _).
  destruct (validateAttributes_frame _ _ _ _ _ H2) as (evs & -> & _).
  injection H3 as <-. intros v. cbn.
  destruct (decide (v = decl)) as [->|Hne].
  - unfold VarId in *. rewrite Hdecl, lookup_insert_eq.
    eexists. split; [reflexivity|].
    rewrite E2, E1. split; [by repeat split|]. split.
    + intros _. cbn. exact T1.
    + intros Hout. exfalso. apply Hout, list_elem_of_singleton. done.
  - unfold VarId in *. rewrite lookup_insert_ne by done. rewrite (F1 v Hne).
    destruct (Vars tc !! v) as [V0|]; [|done].
    exists V0. split; [done|]. split; [apply sameVariable_refl|].
    split; [|done]. intros Hin. by apply list_elem_of_singleton in Hin.
Qed.

Lemma visitBoundVars_visited P tc tc' :
  visitBoundVars P tc = Some (tt, tc') ->
  visited (boundVars P) (Vars tc) (Vars tc').
Proof.
  revert P tc tc'. fix IH 1. intros P tc tc'.
  destruct P as [sub ty|fields ty|decl ty|ty|sub ann ty];
    cbn [visitBoundVars boundVars].
  - apply IH.
  - revert tc. induction fields as [|f fields IHf]; intros tc;
      cbn [forEach_ map concat].
    + intros [= <-]. apply visited_nil.
    + intros H. apply bind_Some in H as ([] & tc1 & H1 & H).
      eapply visited_app; [exact (IH _ _ _ H1) | exact (IHf _ H)].
  - apply (visitBoundVars_named decl ty).
  - intros [= <-]. apply visited_nil.
  - apply IH.
Qed.

(** X15. After [visitBoundVars], every variable the pattern binds has the
    type it had if that type is materializable and [ErrorType] otherwise,
    also when the pattern binds it more than once; apart from type and
    attributes the variable is as before, a variable the pattern does not
    bind is untouched, and no variable is added or removed. *)
Theorem bound_variables_are_materialized :
  forall P tc tc',
    visitBoundVars P tc = Some (tt, tc') ->
    (forall v V,
       Vars tc !! v = Some V ->
       exists V',
         Vars tc' !! v = Some V' /\ sameVariable V V' /\
         (v ∈ boundVars P ->
          getType (var_base V') = materialized (getType (var_base V))) /\
         (v ∉ boundVars P -> V' = V)) /\
    (forall v, Vars tc !! v = None -> Vars tc' !! v = None).
Proof.
  intros P tc tc' H. apply visitBoundVars_visited in H.
  split; intros v; specialize (H v).
  - intros V HV. by rewrite HV in H.
  - intros HV. by rewrite HV in H.
Qed.

End BoundVariableProperties.

(* ===================================================================== *)
(** ** The visit methods, one by one *)
(* ===================================================================== *)

Section VisitMethodProperties.

Context {X : Type} (C : Collaborators X).
Implicit Types (tc : TypeChecker X) (fp : bool).

(** X16. The second pass over a binding that was not delayed looks at the
    initializer only, and only if there is one and the pattern came out of
    the first pass with a type: the pattern is not checked again and no
    bound variable is visited. The initializer is checked against the type
    of the pattern; when the expression checker says it failed the binding
    is left as it is and the failure is diagnosed, and otherwise the
    initializer is replaced by the expression the checker answered. *)
Theorem second_pass_rechecks_initializer_only :
  forall fp PBD tc,
    DelayCheckingPattern (TU tc) PBD = false ->
    match pbd_init PBD with
    | Some Init =>
        if patternHasType (pbd_pattern PBD) then
          exists (failed : bool) Init' x,
            typeCheckExpression C Init (patternType (pbd_pattern PBD)) (Ext tc)
            = (failed, Init', x) /\
            visitPatternBindingDecl C fp true PBD tc
            = Some (if failed then PBD else setInit Init' PBD,
                    appendLog
                      (withExt tc x
                         (TypeCheckExpression
                            Init (patternType (pbd_pattern PBD)) failed))
                      (if failed
                       then [Diagnose (while_converting_var_init
                                         (patternType (pbd_pattern PBD)))]
                       else []))
        else visitPatternBindingDecl C fp true PBD tc = Some (PBD, tc)
    | None => visitPatternBindingDecl C fp true PBD tc = Some (PBD, tc)
    end.
Proof.
  intros fp PBD tc Hdelay.
  assert (visitPatternBindingDecl C fp true PBD tc = recheckInit C PBD tc)
    as ->.
  { unfold visitPatternBindingDecl, bind at 1, getTC. by rewrite Hdelay. }
  unfold recheckInit.
  destruct (pbd_init PBD) as [Init|]; [|reflexivity].
  destruct (patternHasType (pbd_pattern PBD)) eqn:HT; [|reflexivity].
  unfold bind at 1, callTypeCheckExpression.
  destruct (typeCheckExpression C Init (patternType (pbd_pattern PBD))
                                (Ext tc)) as [[failed Init'] x] eqn:E.
  exists failed, Init', x. split; [reflexivity|].
  unfold patternHasType in HT. destruct failed; cbn [fst snd].
  - rewrite HT. reflexivity.
  - by rewrite appendLog_nil.
Qed.

(** X17. Outside the second pass a subscript always has its element type
    validated and its index pattern checked, in this order and whatever the
    validator answers; being outside a type is diagnosed first and changes
    nothing else. The subscript is left with the element type the validator
    answered and the index pattern the pattern checker answered, and its
    type is set, to the type of that pattern -> that element type, exactly
    when the pattern checker did not say the pattern failed. In the second
    pass nothing happens. *)
Theorem subscript_type_is_indices_to_element :
  forall fp SD tc,
    visitSubscriptDecl C fp true SD tc = Some (SD, tc) /\
    exists (failedElement failedIndices : bool) ElementTy Indices x1 vs x2,
      validateType C (sub_elementTy SD) fp (Ext tc)
      = (failedElement, ElementTy, x1) /\
      typeCheckPattern C (sub_indices SD) fp (Vars tc) x1
      = (failedIndices, Indices, vs, x2) /\
      visitSubscriptDecl C fp false SD tc
      = Some (mkSubscriptDecl
                (if failedIndices then sub_base SD
                 else setType (TFunction (patternType Indices)
                                         (tl_type ElementTy))
                              (sub_base SD))
                ElementTy Indices,
              withVarsExt
                (withExt
                   (appendLog tc
                      (if isTypeContext (getDeclContext (sub_base SD))
                       then [] else [Diagnose subscript_not_member]))
                   x1
                   (ValidateType (tl_type (sub_elementTy SD)) fp
                                 failedElement))
                vs x2 (TypeCheckPattern (sub_indices SD) fp failedIndices)).
Proof.
  intros fp SD tc. split; [reflexivity|].
  unfold visitSubscriptDecl.
  set (pre := if isTypeContext (getDeclContext (sub_base SD)) then []
              else [Diagnose subscript_not_member]).
  assert ((if negb (isTypeContext (getDeclContext (sub_base SD)))
           then diagnose subscript_not_member else ret tt) tc
          = Some (tt, appendLog tc pre)) as E0.
  { unfold pre. destruct (isTypeContext _); cbn [negb]; [|reflexivity].
    by rewrite appendLog_nil. }
  destruct (validateType C (sub_elementTy SD) fp (Ext tc))
    as [[failedElement ElementTy] x1] eqn:E1.
  destruct (typeCheckPattern C (sub_indices SD) fp (Vars tc) x1)
    as [[[failedIndices Indices] vs] x2] eqn:E2.
  exists failedElement, failedIndices, ElementTy, Indices, x1, vs, x2.
  split; [reflexivity|]. split; [exact E2|].
  unfold bind at 1. rewrite E0. cbv iota beta.
  unfold bind at 1, callValidateType. cbn [appendLog Ext]. rewrite E1.
  cbv iota beta zeta. cbn [snd].
  unfold bind at 1, callTypeCheckPattern. cbn [withExt Vars Ext appendLog].
  rewrite E2. cbv iota beta. by destruct failedIndices.
Qed.

(** X18. Outside the second pass a destructor always ends with the type this
    -> () and its implicit [this] with the type of [this]; being anywhere
    but directly in a class (in an extension, say) is diagnosed and changes
    nothing else. In the second pass nothing happens. *)
Theorem destructor_type_is_this_to_unit :
  forall DD tc,
    visitDestructorDecl (X:=X) true DD tc = Some (DD, tc) /\
    exists DD' evs,
      visitDestructorDecl false DD tc
      = Some (DD',
              appendLog tc
                ((if isClassContext (getDeclContext (dtor_base DD)) then []
                  else [Diagnose destructor_not_member]) ++ evs)) /\
      Forall attributeEvent evs /\
      getType (dtor_base DD') = TFunction (dtor_thisType DD) emptyTuple /\
      getType (dtor_implicitThis DD') = dtor_thisType DD.
Proof.
  intros DD tc. split; [reflexivity|].
  unfold visitDestructorDecl.
  set (pre := if isClassContext (getDeclContext (dtor_base DD)) then []
              else [Diagnose destructor_not_member]).
  assert ((if negb (isClassContext (getDeclContext (dtor_base DD)))
           then diagnose destructor_not_member else ret tt) tc
          = Some (tt, appendLog tc pre)) as E0.
  { unfold pre. destruct (isClassContext _); cbn [negb]; [|reflexivity].
    by rewrite appendLog_nil. }
  destruct (validateAttributes_nonfunc_run
              (setType (TFunction (dtor_thisType DD) emptyTuple) (dtor_base DD))
              (appendLog tc pre))
    as (VD' & evs & E1 & F1 & T1).
  unfold bind. rewrite E0. cbn iota beta zeta. rewrite E1. cbn iota beta.
  eexists _, evs. rewrite appendLog_app.
  split; [reflexivity|]. split; [exact F1|]. split; [exact T1 | reflexivity].
Qed.

(** X19. Whenever the check of a function outside the second pass completes,
    the generic parameters were checked first, the body was analysed next
    and the attributes validated last. The body that is analysed is the
    declared one, with the pattern of [this] given the type of [this] when
    the function has one and the pattern had none; the function is left
    with the checked parameters and with the body the analysis answered,
    and its type is the type of that body, whatever that is. *)
Theorem function_type_is_body_type :
  forall fp FD tc FD' tc',
    visitFuncDecl C fp false FD tc = Some (FD', tc') ->
    exists body GenericParams tc1 body' vs x base,
      (isNull (fd_thisType FD) = true -> body = fd_body FD) /\
      (isNull (fd_thisType FD) = false ->
       exists sub ann ty rest,
         getParamPatterns (fd_body FD) = TypedPattern sub ann ty :: rest /\
         body = mkFuncExpr
                  (TypedPattern sub ann
                     (if isNull ty then fd_thisType FD else ty) :: rest)
                  (fe_type (fd_body FD))) /\
      checkGenericParams C fp (fd_genericParams FD) tc
      = Some (GenericParams, tc1) /\
      semaFuncExpr C body fp (Vars tc1) (Ext tc1) = (body', vs, x) /\
      validateAttributes true (setType (fe_type body') (fd_base FD))
                         (withVarsExt tc1 vs x (SemaFuncExpr body fp))
      = Some (base, tc') /\
      FD' = mkFuncDecl base body' GenericParams (fd_thisType FD) /\
      getType base = fe_type body'.
Proof.
  intros fp FD tc FD' tc' H. unfold visitFuncDecl in H. cbn iota zeta in H.
  apply bind_Some in H as (body & tc0 & H0 & H).
  apply bind_Some in H as (gp & tc1 & H1 & H).
  apply bind_Some in H as (body' & tc2 & H2 & H).
  apply bind_Some in H as (base & tc3 & H3 & [= <- <-]).
  assert (tc0 = tc /\
          (isNull (fd_thisType FD) = true -> body = fd_body FD) /\
          (isNull (fd_thisType FD) = false ->
           exists sub ann ty rest,
             getParamPatterns (fd_body FD) = TypedPattern sub ann ty :: rest /\
             body = mkFuncExpr
                      (TypedPattern sub ann
                         (if isNull ty then fd_thisType FD else ty) :: rest)
                      (fe_type (fd_body FD)))) as (-> & Hnull & Hthis).
  { destruct (isNull (fd_thisType FD)); cbn [negb] in H0.
    - injection H0 as <- <-. by repeat split.
    - unfold setThisPattern in H0.
      destruct (getParamPatterns (fd_body FD)) as [|[| | | |sub ann ty] rest]
        eqn:HP; try discriminate.
      destruct (isNull ty) eqn:Hty; cbn [negb] in H0; injection H0 as <- <-.
      + split; [done|]. split; [done|]. intros _. exists sub, ann, ty, rest.
        split; [done|]. by rewrite Hty.
      + split; [done|]. split; [done|]. intros _. exists sub, ann, ty, rest.
        split; [done|]. rewrite Hty, <- HP. by destruct (fd_body FD). }
  unfold callSemaFuncExpr in H2.
  destruct (semaFuncExpr C body fp (Vars tc1) (Ext tc1))
    as [[b vs] x] eqn:E2.
  injection H2 as Hb Htc. subst body' tc2.
  exists body, gp, tc1, b, vs, x, base.
  split; [exact Hnull|]. split; [exact Hthis|]. split; [exact H1|].
  split; [exact E2|]. split; [exact H3|]. split; [reflexivity|].
  exact (validateAttributes_type _ _ _ _ _ H3).
Qed.

(** X20. Outside the second pass an element that does not sit directly in a
    oneof (the implied constructor of a struct) is left alone; an element of
    a oneof without an argument type gets the type of the oneof without any
    call; and otherwise the argument type is validated and the element is
    left with the argument type the validator answered: when the validator
    says it failed the type of the element is left as it was, and when not
    the element gets the type that argument -> oneof, also when the
    argument is then diagnosed as not materializable. *)
Theorem oneof_element_type :
  forall fp ED tc,
    match asOneOfContext (getDeclContext (ooe_base ED)) with
    | None => visitOneOfElementDecl C fp false ED tc = Some (ED, tc)
    | Some ElemTy =>
        if isNull (tl_type (ooe_argumentTy ED)) then
          visitOneOfElementDecl C fp false ED tc
          = Some (mkOneOfElementDecl (setType ElemTy (ooe_base ED))
                                     (ooe_argumentTy ED), tc)
        else
          exists (failed : bool) ArgumentTy x,
            validateType C (ooe_argumentTy ED) fp (Ext tc)
            = (failed, ArgumentTy, x) /\
            visitOneOfElementDecl C fp false ED tc
            = Some (mkOneOfElementDecl
                      (if failed then ooe_base ED
                       else setType (TFunction (tl_type ArgumentTy) ElemTy)
                                    (ooe_base ED))
                      ArgumentTy,
                    appendLog
                      (withExt tc x
                         (ValidateType (tl_type (ooe_argumentTy ED)) fp
                                       failed))
                      (if failed || isMaterializable (tl_type ArgumentTy)
                       then []
                       else [Diagnose oneof_element_not_materializable]))
    end.
Proof.
  intros fp ED tc. unfold visitOneOfElementDecl.
  destruct (asOneOfContext (getDeclContext (ooe_base ED))) as [ElemTy|];
    [|reflexivity].
  destruct (isNull (tl_type (ooe_argumentTy ED))); [reflexivity|].
  unfold bind at 1, callValidateType.
  destruct (validateType C (ooe_argumentTy ED) fp (Ext tc))
    as [[failed ArgumentTy] x] eqn:E.
  exists failed, ArgumentTy, x. split; [reflexivity|].
  destruct failed; cbn [orb].
  - by rewrite appendLog_nil.
  - destruct (isMaterializable (tl_type ArgumentTy)); cbn [negb].
    + by rewrite appendLog_nil.
    + reflexivity.
Qed.

(** *** Kinds *)

Lemma kinds_forEach (f : Decl -> M X Decl) (l : list Decl) :
  (forall d, yields X (fun d' => getKind d' = getKind d) (f d)) ->
  yields X (fun l' => map getKind l' = map getKind l) (forEach f l).
Proof.
  intros Hf. induction l as [|d l IH]; cbn [forEach].
  - by apply yields_ret.
  - eapply yields_bind_with; [apply Hf|]. intros d' Hd.
    eapply yields_bind_with; [apply IH|]. intros l' Hl.
    apply yields_ret. cbn. by rewrite Hd, Hl.
Qed.

Lemma kinds_assignAssociatedArchetype fp m :
  yields X (fun m' => getKind m' = getKind m)
         (assignAssociatedArchetype C fp m).
Proof.
  unfold assignAssociatedArchetype.
  destruct m; try by apply yields_ret.
  apply yields_bind; intros. apply yields_bind; intros. by apply yields_ret.
Qed.

Lemma kinds_impliedConstructor SD ms :
  yields X (fun ms' => map getKind ms' = map getKind ms /\
                       exists ElementCtor,
                         last ms = Some (DOneOfElement ElementCtor))
         (impliedConstructor (X:=X) SD ms).
Proof.
  unfold impliedConstructor. apply yields_bind; intros tc0.
  destruct (collectTupleElts (Vars tc0) ms); [|apply yields_abort].
  destruct (last ms) as [[]|] eqn:Hlast; try apply yields_abort.
  apply yields_ret.
  destruct (replace_last ms _
              (DOneOfElement
                 (mkOneOfElementDecl
                    (setType (TFunction (TTuple l)
                                        (ntd_declaredTypeInContext SD))
                             (ooe_base ed))
                    (mkTypeLoc (TTuple l)))) Hlast) as (front & Hms & ->).
  split; [|by eexists]. rewrite Hms. by rewrite !map_app.
Qed.

Lemma kinds_visitDecl fp sp (f : Decl -> M X Decl) D :
  (forall d, yields X (fun d' => getKind d' = getKind d) (f d)) ->
  yields X (fun D' => getKind D' = getKind D /\
                      map getKind (getMembers D')
                      = map getKind (getMembers D))
         (visitDecl C fp sp f D).
Proof.
  intros Hf. pose proof (kinds_forEach f) as Hmembers.
  destruct D; cbn [visitDecl];
    try (by apply yields_ret); try apply yields_abort;
    try (apply yields_bind; intros; by apply yields_ret).
  - (* oneof *)
    apply yields_bind; intros.
    eapply yields_bind_with; [by apply Hmembers|]. intros ms' Hms.
    apply yields_bind; intros. by apply yields_ret.
  - (* struct *)
    apply yields_bind; intros.
    eapply yields_bind_with; [by apply Hmembers|]. intros ms1 Hms1.
    eapply (yields_bind_with
              (fun ms' => map getKind ms' = map getKind members)).
    { destruct (negb sp); [|by apply yields_ret].
      intros tc ms' tc' H. apply kinds_impliedConstructor in H as [H _].
      congruence. }
    intros ms' Hms. apply yields_bind; intros. by apply yields_ret.
  - (* class *)
    apply yields_bind; intros.
    eapply yields_bind_with; [by apply Hmembers|]. intros ms' Hms.
    apply yields_bind; intros. by apply yields_ret.
  - (* protocol *)
    destruct sp; [by apply yields_ret|].
    apply yields_bind; intros.
    eapply yields_bind_with;
      [apply kinds_forEach, kinds_assignAssociatedArchetype|].
    intros ms1 Hms1.
    eapply yields_bind_with; [by apply Hmembers|]. intros ms' Hms.
    apply yields_ret. split; [done|]. cbn. congruence.
  - (* extension *)
    apply yields_bind; intros.
    eapply yields_bind_with; [by apply Hmembers|]. intros ms' Hms.
    apply yields_bind; intros. by apply yields_ret.
Qed.

Lemma kinds_visitN fp sp n D :
  yields X (fun D' => getKind D' = getKind D /\
                      map getKind (getMembers D')
                      = map getKind (getMembers D))
         (visitN C fp sp n D).
Proof.
  revert D. induction n as [|n IH]; intros D; cbn [visitN].
  - apply yields_abort.
  - apply kinds_visitDecl. intros d tc d' tc' H. by apply IH in H as [H _].
Qed.

Lemma last_kind (l l' : list Decl) D' :
  map getKind l' = map getKind l -> last l' = Some D' ->
  exists D, last l = Some D /\ getKind D = getKind D'.
Proof.
  revert l'. induction l as [|d l IH]; intros [|d' l'] Hmap Hlast;
    try discriminate.
  injection Hmap as Hd Hmap.
  destruct l as [|d2 l], l' as [|d2' l']; try discriminate.
  - injection Hlast as <-. by exists d.
  - apply (IH (d2' :: l') Hmap Hlast).
Qed.

(** X21. Outside the second pass the visit of a struct completes only if the
    last member of the struct is an [OneOfElementDecl], the implied
    constructor: the cast at line 316 stops the checker on any other member
    list, the empty one included. *)
Theorem struct_visit_needs_implied_constructor :
  forall fp SD members tc D' tc',
    visit C fp false (DStruct SD members) tc = Some (D', tc') ->
    exists ElementCtor, last members = Some (DOneOfElement ElementCtor).
Proof.
  intros fp SD members tc D' tc' H. rewrite visit_unfold in H.
  cbn [visitDecl negb] in H.
  apply bind_Some in H as (SD1 & tc1 & _ & H).
  apply bind_Some in H as (ms1 & tc2 & Hms1 & H).
  apply bind_Some in H as (ms2 & tc3 & Hms2 & _).
  apply kinds_forEach in Hms1;
    [|intros d tc0 d' tc0' Hd; by apply kinds_visitN in Hd as [Hd _]].
  apply kinds_impliedConstructor in Hms2 as (_ & E & Hlast).
  destruct (last_kind _ _ _ Hms1 Hlast) as (D & HD & HK).
  destruct D; try discriminate. by eexists.
Qed.

(** *** Declarations with members *)

Lemma conformance_run fp T Inherited tc u tc' :
  (if negb fp then checkExplicitConformance C T Inherited else ret tt) tc
  = Some (u, tc') ->
  Log tc' = Log tc ++ (if fp then [] else conformanceCalls T Inherited).
Proof.
  destruct fp; cbn [negb].
  - intros [= _ <-]. by rewrite app_nil_r.
  - destruct (checkExplicitConformance_run C T Inherited tc)
      as (tc2 & E & (_ & _ & _ & L)).
    rewrite E. by intros [= _ <-].
Qed.

Lemma impliedConstructor_state N ms tc ms' tc' :
  impliedConstructor N ms tc = Some (ms', tc') -> tc' = tc.
Proof.
  unfold impliedConstructor. intros H.
  apply bind_Some in H as (tc0 & tc1 & [= <- <-] & H).
  destruct (collectTupleElts _ _); [|discriminate].
  destruct (last ms) as [[]|]; try discriminate. by injection H as _ <-.
Qed.

(** X22. Whenever the check of a oneof, struct or class outside the second
    pass completes, it went in this order, each step starting where the one
    before it ended: the inheritance clause is checked, then the generic
    parameters, then the members are visited one after the other, and,
    outside the first pass, the conformances are asked for the protocols of
    the clause as the first step answered it. The declaration is left with
    that clause, those parameters and the visited members; in a struct the
    last member is then replaced by the implied constructor. *)
Theorem nominal_type_is_checked_in_order :
  forall fp N members D tc D' tc',
    D = DOneOf N members \/ D = DStruct N members \/ D = DClass N members ->
    visit C fp false D tc = Some (D', tc') ->
    exists Inherited tc1 GenericParams tc2 members1 tc3 N',
      checkInherited C fp (ntd_inherited N) tc = Some (Inherited, tc1) /\
      checkGenericParams C fp (ntd_genericParams N) tc1
      = Some (GenericParams, tc2) /\
      forEach (visit C fp false) members tc2 = Some (members1, tc3) /\
      (if fp then tc' = tc3
       else checkExplicitConformance C (ntd_declaredType N) Inherited tc3
            = Some (tt, tc')) /\
      Log tc'
      = Log tc3
        ++ (if fp then []
            else conformanceCalls (ntd_declaredType N) Inherited) /\
      N' = setNtdGenericParams GenericParams (setNtdInherited Inherited N) /\
      (D = DOneOf N members -> D' = DOneOf N' members1) /\
      (D = DClass N members -> D' = DClass N' members1) /\
      (D = DStruct N members ->
       exists members',
         impliedConstructor N' members1 tc3 = Some (members', tc3) /\
         D' = DStruct N' members').
Proof.
  intros fp N members D tc D' tc' HD H. rewrite visit_unfold in H.
  assert (exists N' tc2 members1 tc3 members',
            checkNominalHeader C fp false N tc = Some (N', tc2) /\
            forEach (visit C fp false) members tc2 = Some (members1, tc3) /\
            checkNominalConformance C fp N' tc3 = Some (tt, tc') /\
            (D = DOneOf N members -> D' = DOneOf N' members1) /\
            (D = DClass N members -> D' = DClass N' members1) /\
            (D = DStruct N members ->
             impliedConstructor N' members1 tc3 = Some (members', tc3) /\
             D' = DStruct N' members'))
    as (N' & tc2 & members1 & tc3 & members' & HN & Hms & Hc & H1 & H2 & H3).
  { destruct HD as [-> | [-> | ->]]; cbn [visitDecl negb] in H.
    - apply bind_Some in H as (N' & tc2 & HN & H).
      apply bind_Some in H as (ms' & tc3 & Hms & H).
      apply bind_Some in H as ([] & tc4 & Hc & [= <- <-]).
      exists N', tc2, ms', tc3, ms'. by repeat split.
    - apply bind_Some in H as (N' & tc2 & HN & H).
      apply bind_Some in H as (ms1 & tc3 & Hms & H).
      apply bind_Some in H as (ms' & tc3' & Hi & H).
      pose proof (impliedConstructor_state _ _ _ _ _ Hi) as ->.
      apply bind_Some in H as ([] & tc4 & Hc & [= <- <-]).
      exists N', tc2, ms1, tc3, ms'. by repeat split.
    - apply bind_Some in H as (N' & tc2 & HN & H).
      apply bind_Some in H as (ms' & tc3 & Hms & H).
      apply bind_Some in H as ([] & tc4 & Hc & [= <- <-]).
      exists N', tc2, ms', tc3, ms'. by repeat split. }
  unfold checkNominalHeader in HN. cbn [negb] in HN.
  apply bind_Some in HN as (inh & tc1 & Hinh & HN).
  apply bind_Some in HN as (gp & tc2' & Hgp & [= <- <-]).
  unfold checkNominalConformance in Hc.
  cbn [setNtdGenericParams setNtdInherited ntd_declaredType ntd_inherited]
    in Hc.
  pose proof (conformance_run _ _ _ _ _ _ Hc) as L.
  eexists inh, tc1, gp, tc2', members1, tc3, _.
  split; [exact Hinh|]. split; [exact Hgp|]. split; [exact Hms|].
  split. { destruct fp; cbn [negb] in Hc; [by injection Hc as <- | exact Hc]. }
  split; [exact L|]. split; [reflexivity|].
  split; [exact H1|]. split; [exact H2|].
  intros HS. exists members'. by apply H3.
Qed.

(** X23. Whenever the check of an extension outside the second pass
    completes, the extended type was validated first and the type the
    validator answered was diagnosed if it is none of a oneof, struct,
    class, unbound generic or error type (so that a type that failed to
    resolve is not diagnosed again); then, diagnosed or not, the
    inheritance clause was checked and the members visited, each step
    starting where the one before it ended, and outside the first pass the
    conformances of the answered type were asked for the clause as checked.
    The extension is left with that type, that clause and the visited
    members. *)
Theorem extension_is_checked_in_order :
  forall fp ED members tc D' tc',
    visit C fp false (DExtension ED members) tc = Some (D', tc') ->
    exists (failed : bool) ExtendedTy x Inherited tc1 members' tc2,
      validateType C (ext_extendedTy ED) fp (Ext tc)
      = (failed, ExtendedTy, x) /\
      checkInherited C fp (ext_inherited ED)
        (appendLog
           (withExt tc x
              (ValidateType (tl_type (ext_extendedTy ED)) fp failed))
           (if isNominalOrError (tl_type ExtendedTy) then []
            else [Diagnose
                    (non_nominal_extension
                       (isProtocolType (tl_type ExtendedTy))
                       (tl_type ExtendedTy))]))
      = Some (Inherited, tc1) /\
      forEach (visit C fp false) members tc1 = Some (members', tc2) /\
      (if fp then tc' = tc2
       else checkExplicitConformance C (tl_type ExtendedTy) Inherited tc2
            = Some (tt, tc')) /\
      Log tc'
      = Log tc2
        ++ (if fp then []
            else conformanceCalls (tl_type ExtendedTy) Inherited) /\
      D' = DExtension (mkExtensionDecl (ext_context ED) ExtendedTy Inherited)
                      members'.
Proof.
  intros fp ED members tc D' tc' H. rewrite visit_unfold in H.
  cbn [visitDecl] in H.
  apply bind_Some in H as (ED' & tc1 & HE & H).
  apply bind_Some in H as (ms' & tc2 & Hms & H).
  apply bind_Some in H as ([] & tc3 & Hc & [= <- <-]).
  unfold checkExtensionHeader in HE. cbn [negb] in HE.
  apply bind_Some in HE as ([failed T] & tc01 & H1 & HE).
  apply bind_Some in HE as ([] & tc02 & Hd & HE).
  apply bind_Some in HE as (inh & tc03 & Hi & [= <- <-]).
  cbn [snd ext_extendedTy ext_inherited] in *.
  unfold callValidateType in H1.
  destruct (validateType C (ext_extendedTy ED) fp (Ext tc))
    as [[f0 T0] x] eqn:E1.
  injection H1 as -> -> <-.
  assert (tc02
          = appendLog
              (withExt tc x
                 (ValidateType (tl_type (ext_extendedTy ED)) fp failed))
              (if isNominalOrError (tl_type T) then []
               else [Diagnose
                       (non_nominal_extension (isProtocolType (tl_type T))
                                              (tl_type T))])) as ->.
  { destruct (isNominalOrError (tl_type T)); cbn [negb] in Hd.
    - cbv [ret] in Hd. injection Hd as <-. by rewrite appendLog_nil.
    - cbv [diagnose emit] in Hd. by injection Hd as <-. }
  pose proof (conformance_run _ _ _ _ _ _ Hc) as L.
  exists failed, T, x, inh, tc03, ms', tc2.
  split; [reflexivity|]. split; [exact Hi|]. split; [exact Hms|].
  split. { destruct fp; cbn [negb] in Hc; [by injection Hc as <- | exact Hc]. }
  split; [exact L | reflexivity].
Qed.

End VisitMethodProperties.

(* ===================================================================== *)
(** ** Associated types *)
(* ===================================================================== *)

Section AssociatedTypeProperties.

Context {X : Type} (C : Collaborators X) (IsFirstPass : bool).
Implicit Types (tc : TypeChecker X).

(** The contract of the validator, as far as it is needed here: validating
    a location that already holds an archetype succeeds and leaves the
    location alone. *)
Hypothesis validateType_resolved :
  forall id name conformsTo index fp x,
  exists x',
    validateType C (mkTypeLoc (TArchetype id name conformsTo index)) fp x
    = (false, mkTypeLoc (TArchetype id name conformsTo index), x').

Lemma assignAssociatedArchetype_clause m tc m' tc' :
  assignAssociatedArchetype C IsFirstPass m tc = Some (m', tc') ->
  holdsClauseArchetype m m'.
Proof.
  intros H. destruct m; cbn [assignAssociatedArchetype] in H; try done.
  apply bind_Some in H as (inh & tc1 & Hinh & H).
  apply bind_Some in H as (U & tc2 & HU & [= <- <-]).
  injection HU as <- <-. cbn.
  destruct (checkInherited_checks C IsFirstPass (tad_inherited tad) tc)
    as (inh0 & fs & evs & tc0 & E & _ & Hlen & _).
  rewrite E in Hinh. injection Hinh as <- _.
  eexists _, _. split; [reflexivity|]. by repeat split.
Qed.

Lemma visit_associated_type TAD id name conf index tc D' tc' :
  isProtocolContext (getDeclContext (tad_base TAD)) = true ->
  tl_type (tad_underlying TAD) = TArchetype id name conf index ->
  visit C IsFirstPass false (DTypeAlias TAD) tc = Some (D', tc') ->
  D' = DTypeAlias TAD.
Proof.
  intros Hctx HU H. rewrite visit_unfold in H. cbn [visitDecl] in H.
  apply bind_Some in H as (TAD' & tc1 & H & [= <- _]). f_equal.
  unfold visitTypeAliasDecl in H. cbn [negb] in H.
  apply bind_Some in H as (T1 & tc2 & H1 & H).
  apply bind_Some in H as (? & ? & _ & [= <- _]).
  apply bind_Some in H1 as ([failed tl] & tc3 & Hval & H1).
  unfold callValidateType in Hval.
  destruct TAD as [base [U] inh decl]. cbn in HU, Hctx. subst U.
  destruct (validateType_resolved id name conf index IsFirstPass (Ext tc))
    as (x' & Ex).
  cbn [tad_underlying] in Hval. rewrite Ex in Hval.
  injection Hval as <- <- _. cbn [snd setUnderlying tad_base] in H1.
  rewrite Hctx in H1. cbn [negb] in H1. by injection H1 as <- _.
Qed.

(** X24. Whenever the visit of a protocol outside the second pass completes,
    each type alias among its members that is declared in the protocol holds
    an archetype of its own name, with index 0 if the name is [This] and
    none otherwise, whose conformances are the types of its own inheritance
    clause as the visit leaves it, entry by entry: an entry that failed
    validation is there as [ErrorType], and an entry that was diagnosed as
    not a protocol is there too. *)
Theorem associated_type_conforms_to_its_clause :
  forall PD members tc D' tc',
    visit C IsFirstPass false (DProtocol PD members) tc = Some (D', tc') ->
    exists PD' members',
      D' = DProtocol PD' members' /\
      forall i TAD,
        members !! i = Some (DTypeAlias TAD) ->
        isProtocolContext (getDeclContext (tad_base TAD)) = true ->
        exists TAD' id,
          members' !! i = Some (DTypeAlias TAD') /\
          tad_base TAD' = tad_base TAD /\
          length (tad_inherited TAD') = length (tad_inherited TAD) /\
          tl_type (tad_underlying TAD')
          = TArchetype id (getName (tad_base TAD))
                       (map tl_type (tad_inherited TAD'))
                       (associatedIndex (getName (tad_base TAD))).
Proof.
  intros PD members tc D' tc' H. rewrite visit_unfold in H.
  cbn [visitDecl] in H.
  apply bind_Some in H as (inh & tc1 & _ & H).
  apply bind_Some in H as (msA & tc2 & HA & H).
  apply bind_Some in H as (ms1 & tc3 & Hv & [= <- _]).
  eexists _, ms1. split; [reflexivity|].
  intros i TAD Hi Hctx.
  assert (Forall2 holdsClauseArchetype members msA) as FA.
  { clear -HA. revert tc1 msA tc2 HA.
    induction members as [|m ms IH]; intros tc1 msA tc2 HA.
    - injection HA as <- _. constructor.
    - cbn [forEach] in HA.
      apply bind_Some in HA as (m1 & tc' & Hm & HA).
      apply bind_Some in HA as (ms1 & tc'' & Hms & [= <- _]).
      constructor; [by eapply assignAssociatedArchetype_clause | by eapply IH]. }
  destruct (Forall2_lookup_l _ _ _ _ _ FA Hi) as (mA & HmA & HcA).
  cbn in HcA. destruct HcA as (TA & id & -> & Hb & Hl & Hu).
  assert (exists tcA tcB D1,
            visit C IsFirstPass false (DTypeAlias TA) tcA = Some (D1, tcB) /\
            ms1 !! i = Some D1) as (tcA & tcB & D1 & Hvisit & H1).
  { clear -Hv HmA. revert i tc2 ms1 tc3 Hv HmA.
    induction msA as [|a msA IH]; intros i tc2 ms1 tc3 Hv HmA;
      [by destruct i|].
    cbn [forEach] in Hv.
    apply bind_Some in Hv as (a1 & tc' & Ha & Hv).
    apply bind_Some in Hv as (rest & tc'' & Hrest & [= <- _]).
    destruct i as [|i]; cbn in HmA |- *.
    - injection HmA as ->. by exists tc2, tc', a1.
    - by eapply IH. }
  rewrite <- Hb in Hctx.
  rewrite (visit_associated_type _ _ _ _ _ _ _ _ Hctx Hu Hvisit) in H1.
  by exists TA, id.
Qed.

End AssociatedTypeProperties.

(* ===================================================================== *)
(** ** Requirements and the builder *)
(* ===================================================================== *)

Section RequirementProperties.

Context {X : Type} (C : Collaborators X).
Implicit Types (tc : TypeChecker X) (fp : bool).

Lemma added_app e1 e2 :
  addedRequirements (e1 ++ e2) = addedRequirements e1 ++ addedRequirements e2.
Proof. apply omap_app. Qed.

Lemma added_none (P : Event -> Prop) evs :
  (forall r, ~ P (AddRequirement r)) -> Forall P evs ->
  addedRequirements evs = [].
Proof.
  intros HP F. induction F as [|e evs He _ IH]; [done|].
  destruct e; try exact IH. by destruct (HP _ He).
Qed.

Lemma FirstScan_clean fp reqs evs reqs' :
  Scan (FirstScan fp) reqs evs reqs' ->
  Forall (fun e => ~ isFailure e) evs ->
  reqs' = reqs /\ addedRequirements evs = reqs.
Proof.
  induction 1 as [|Req e1 Req' reqs e2 reqs' Hstep _ IH]; intros F; [done|].
  apply Forall_app in F as [F1 F2]. destruct (IH F2) as [-> Hadd].
  rewrite added_app, Hadd.
  destruct Hstep; cbn; try done.
  - inversion F1 as [|? ? Hf _]. by destruct Hf.
  - inversion F1 as [|? ? _ F1']. inversion F1' as [|? ? Hf _]. by destruct Hf.
Qed.

Lemma SecondScan_clean fp reqs evs reqs' :
  Scan (SecondScan fp) reqs evs reqs' ->
  Forall (fun e => ~ isFailure e) evs ->
  reqs' = reqs /\ addedRequirements evs = reqs.
Proof.
  induction 1 as [|Req e1 Req' reqs e2 reqs' Hstep _ IH]; intros F; [done|].
  apply Forall_app in F as [F1 F2]. destruct (IH F2) as [-> Hadd].
  rewrite added_app, Hadd.
  destruct Hstep; cbn; try done.
  - inversion F1 as [|? ? Hf _]. by destruct Hf.
  - inversion F1 as [|? ? Hf _]. by destruct Hf.
  - inversion F1 as [|? ? _ F1']. inversion F1' as [|? ? Hf _]. by destruct Hf.
Qed.

(** X25. When no validation fails and nothing is diagnosed, every
    requirement of the clause is handed to the builder twice, once by each
    scan, in the order of the clause, and the clause is left as it was. *)
Theorem requirements_reach_the_builder_twice :
  forall fp gp tc gp' tc' evs,
    checkGenericParams C fp (Some gp) tc = Some (Some gp', tc') ->
    Log tc' = Log tc ++ evs ->
    Forall (fun e => ~ isFailure e) evs ->
    addedRequirements evs = gp_requirements gp ++ gp_requirements gp /\
    gp_requirements gp' = gp_requirements gp.
Proof.
  intros fp gp tc gp' tc' evs H HL HF.
  destruct (checkGenericParams_run C fp gp tc)
    as (params1 & reqs1 & reqs2 & tc1 & intake & scan1 & alloc & scan2
        & E & _ & Fi & S1 & Fa & S2 & L & _).
  rewrite E in H. injection H as <- <-.
  rewrite L in HL. apply app_inv_head in HL. subst evs.
  apply Forall_app in HF as [_ HF]. apply Forall_app in HF as [HF1 HF].
  apply Forall_cons in HF as [_ HF]. apply Forall_app in HF as [_ HF2].
  destruct (FirstScan_clean _ _ _ _ S1 HF1) as [-> A1].
  destruct (SecondScan_clean _ _ _ _ S2 HF2) as [-> A2].
  split; [|done].
  rewrite added_app, added_app. cbn. rewrite added_app, A1, A2.
  assert (addedRequirements intake = []) as ->
    by (apply (added_none intakeEvent); [by intros r [] | exact Fi]).
  assert (addedRequirements alloc = []) as ->
    by (apply (added_none isArchetypeGetNew); [by intros r [] | exact Fa]).
  done.
Qed.

End RequirementProperties.

(* ===================================================================== *)
(** ** The properties above, on concrete declarations *)
(* ===================================================================== *)

Lemma pass_flag_reaches_every_call_witness :
  exists D' tc',
    typeCheckDecl Sample.collaborators Inputs.pointDecl true
                  Inputs.pointChecker = Some (D', tc') /\
    exists evs,
      Log tc' = Log Inputs.pointChecker ++ evs /\
      Forall (carriesFlag true) evs.
Proof.
  destruct (typeCheckDecl Sample.collaborators Inputs.pointDecl true
                          Inputs.pointChecker)
    as [[D' tc']|] eqn:E; [|vm_compute in E; discriminate].
  exists D', tc'. split; [reflexivity|].
  exact (pass_flag_reaches_every_call Sample.collaborators _ _ _ _ _ E).
Defined.

Lemma first_pass_defers_initializers_and_conformances_witness :
  exists D' tc',
    typeCheckDecl Sample.collaborators
                  (DPatternBinding Inputs.topLevelBinding) true
                  (Inputs.bindingChecker TU_Library) = Some (D', tc') /\
    exists evs,
      Log tc' = Log (Inputs.bindingChecker TU_Library) ++ evs /\
      Forall (fun e => ~ isSecondLook e) evs.
Proof.
  destruct (typeCheckDecl Sample.collaborators
              (DPatternBinding Inputs.topLevelBinding) true
              (Inputs.bindingChecker TU_Library))
    as [[D' tc']|] eqn:E; [|vm_compute in E; discriminate].
  exists D', tc'. split; [reflexivity|].
  exact (first_pass_defers_initializers_and_conformances
           Sample.collaborators _ _ _ _ E).
Defined.

Lemma second_pass_resolves_nothing_witness :
  declContext (Vars (Inputs.bindingChecker TU_Main))
              (DPatternBinding Inputs.topLevelBinding)
  = Some DC_TranslationUnit /\
  isModuleContext DC_TranslationUnit = true /\
  exists D' tc',
    typeCheckDecl Sample.collaborators
                  (DPatternBinding Inputs.topLevelBinding) false
                  (Inputs.bindingChecker TU_Main) = Some (D', tc') /\
    NextArchetype tc' = NextArchetype (Inputs.bindingChecker TU_Main) /\
    exists evs,
      Log tc' = Log (Inputs.bindingChecker TU_Main) ++ evs /\
      Forall (fun e => ~ isResolution e) evs /\
      Forall isBindingDiag (diagnosticsOf evs).
Proof.
  split; [reflexivity|]. split; [reflexivity|].
  destruct (typeCheckDecl Sample.collaborators
              (DPatternBinding Inputs.topLevelBinding) false
              (Inputs.bindingChecker TU_Main))
    as [[D' tc']|] eqn:E; [|vm_compute in E; discriminate].
  exists D', tc'. split; [reflexivity|].
  exact (second_pass_resolves_nothing Sample.collaborators
           (DPatternBinding Inputs.topLevelBinding) DC_TranslationUnit
           (Inputs.bindingChecker TU_Main) D' tc' eq_refl eq_refl E).
Defined.

Lemma validateAttributes_only_clears_attributes_witness :
  exists VD' tc',
    validateAttributes false Inputs.poisonedByref Inputs.library
    = Some (VD', tc') /\
    VD' = setAttrs (getAttrs VD') Inputs.poisonedByref /\
    attributesCleared (getAttrs Inputs.poisonedByref) (getAttrs VD') /\
    (Infix (getAttrs VD') = Infix (getAttrs Inputs.poisonedByref) \/
     Infix (getAttrs VD') = InfixInvalid \/
     (isInfix (getAttrs Inputs.poisonedByref) = false /\
      isOperator Inputs.poisonedByref = true /\
      numArguments (getType Inputs.poisonedByref) <> 1 /\
      isTranslationUnit (getDeclContext Inputs.poisonedByref) = true)) /\
    exists evs, tc' = appendLog Inputs.library evs /\
                Forall attributeEvent evs.
Proof.
  destruct (validateAttributes false Inputs.poisonedByref Inputs.library)
    as [[VD' tc']|] eqn:E; [|vm_compute in E; discriminate].
  exists VD', tc'. split; [reflexivity|].
  exact (validateAttributes_only_clears_attributes _ _ _ _ _ E).
Defined.

Lemma fixity_on_non_operator_witness :
  isOperator Inputs.infixFunction = false /\
  exists d VD',
    validateAttributes true Inputs.infixFunction Inputs.library
    = Some (VD', appendLog Inputs.library [Diagnose d]) /\
    (isInfix (getAttrs Inputs.infixFunction) = true ->
     d = infix_not_an_operator /\
     VD' = mutateAttrs (setInfix InfixInvalid) Inputs.infixFunction) /\
    (isInfix (getAttrs Inputs.infixFunction) = false ->
     d = postfix_not_an_operator /\
     VD' = mutateAttrs (setPostfix false) Inputs.infixFunction).
Proof.
  split; [reflexivity|].
  exact (fixity_on_non_operator true Inputs.infixFunction Inputs.library
           eq_refl (or_introl eq_refl)).
Defined.

Lemma fixity_of_wrong_arity_witness :
  isOperator Inputs.infixNegate = true /\
  numArguments (getType Inputs.infixNegate) = 1 /\
  exists d VD',
    validateAttributes true Inputs.infixNegate Inputs.library
    = Some (VD', appendLog Inputs.library [Diagnose d]) /\
    (isInfix (getAttrs Inputs.infixNegate) = true ->
     numArguments (getType Inputs.infixNegate) <> 2 ->
     d = invalid_infix_left_input /\
     VD' = mutateAttrs (setInfix InfixInvalid) Inputs.infixNegate) /\
    (isInfix (getAttrs Inputs.infixNegate) = false \/
     numArguments (getType Inputs.infixNegate) = 2 ->
     d = invalid_postfix_input /\
     VD' = mutateAttrs (setPostfix false) Inputs.infixNegate).
Proof.
  split; [reflexivity|]. split; [reflexivity|].
  apply (fixity_of_wrong_arity Inputs.infixNegate Inputs.library).
  - reflexivity.
  - discriminate.
  - discriminate.
  - intros _ H. discriminate H.
  - left. split; [reflexivity | discriminate].
Defined.

Lemma validated_attributes_are_legal_witness :
  validateAttributes true Inputs.conversionMethod Inputs.library
  = Some (Inputs.conversionMethod, Inputs.library) /\
  Byref (getAttrs Inputs.conversionMethod) = false /\
  AutoClosure (getAttrs Inputs.conversionMethod) = false /\
  (Assignment (getAttrs Inputs.conversionMethod) = true ->
   true = true /\ isOperator Inputs.conversionMethod = true /\
   exists ParamType,
     firstParameterType (getType Inputs.conversionMethod) = Some ParamType /\
     isLValueType ParamType = true) /\
  (Conversion (getAttrs Inputs.conversionMethod) = true ->
   true = true /\ isInstanceMember Inputs.conversionMethod = true /\
   (getType Inputs.conversionMethod = TError \/
    exists InputTy result,
      asBoundMethodType (getType Inputs.conversionMethod)
      = Some (InputTy, result) /\
      acceptsEmptyParamList InputTy = true)).
Proof.
  assert (validateAttributes true Inputs.conversionMethod Inputs.library
          = Some (Inputs.conversionMethod, Inputs.library)) as E
    by reflexivity.
  split; [exact E|].
  refine (validated_attributes_are_legal true _ _ _ _ [] E eq_refl _).
  constructor.
Defined.

Lemma validateAttributes_returns_witness :
  Conversion (getAttrs Inputs.conversionMethod) = true /\
  exists VD' tc',
    validateAttributes true Inputs.conversionMethod Inputs.library
    = Some (VD', tc').
Proof.
  split; [reflexivity|].
  apply (validateAttributes_returns true Inputs.conversionMethod
                                    Inputs.library).
  intros _ _ _. right. eexists. reflexivity.
Defined.

Lemma infix_inherited_from_translation_unit_witness :
  tu_decls (TU Inputs.unitWithPlus)
  = [Inputs.floatPlusDecl] ++ Inputs.intPlusDecl 100
                              :: [Inputs.intPlusDecl 200] /\
  validateAttributes true Inputs.floatPlus Inputs.unitWithPlus
  = Some (mutateAttrs (setInfix (Infix (getAttrs (Inputs.intPlus 100))))
                      Inputs.floatPlus,
          Inputs.unitWithPlus).
Proof.
  split; [reflexivity|].
  apply (infix_inherited_from_translation_unit
           Inputs.floatPlus Inputs.unitWithPlus [Inputs.floatPlusDecl]
           (Inputs.intPlusDecl 100) (Inputs.intPlus 100)
           [Inputs.intPlusDecl 200]); try reflexivity.
  constructor; [|constructor]. intros E0 [= <-]. reflexivity.
Defined.

Lemma infix_lookup_consults_every_module_witness :
  exists VD',
    validateAttributes true Inputs.floatPlus Inputs.twoModules
    = Some (VD',
            appendLog Inputs.twoModules
              (moduleLookups (getName Inputs.floatPlus)
                             (tu_importedModules (TU Inputs.twoModules))
               ++ (if isInfix (getAttrs VD') then []
                   else [Diagnose binops_infix_left]))) /\
    (exists i, VD' = mutateAttrs (setInfix i) Inputs.floatPlus) /\
    (isInfix (getAttrs VD') = true <->
     exists Mod Existing,
       Some Mod ∈ tu_importedModules (TU Inputs.twoModules) /\
       Existing ∈ lookupValue Mod (getName Inputs.floatPlus) /\
       sameNameInfix Inputs.floatPlus Existing = true).
Proof.
  apply (infix_lookup_consults_every_module
           Inputs.floatPlus Inputs.twoModules); try reflexivity.
  constructor; [|constructor]. intros E0 [= <-]. reflexivity.
Defined.

Lemma operator_outside_translation_unit_inherits_nothing_witness :
  isTranslationUnit (getDeclContext Inputs.memberPlus) = false /\
  validateAttributes true Inputs.memberPlus Inputs.twoModules
  = Some (Inputs.memberPlus,
          appendLog Inputs.twoModules [Diagnose binops_infix_left]).
Proof.
  split; [reflexivity|].
  exact (operator_outside_translation_unit_inherits_nothing
           Inputs.memberPlus Inputs.twoModules
           eq_refl eq_refl eq_refl eq_refl).
Defined.

Lemma bound_variables_are_materialized_witness :
  exists tc',
    visitBoundVars (NamedPattern 0%nat (TLValue Inputs.Int))
                   (Sample.start Sample.emptyLibrary Inputs.referenceVars)
    = Some (tt, tc') /\
    (forall v V,
       Vars (Sample.start Sample.emptyLibrary Inputs.referenceVars) !! v
       = Some V ->
       exists V',
         Vars tc' !! v = Some V' /\ sameVariable V V' /\
         (v ∈ boundVars (NamedPattern 0%nat (TLValue Inputs.Int)) ->
          getType (var_base V') = materialized (getType (var_base V))) /\
         (v ∉ boundVars (NamedPattern 0%nat (TLValue Inputs.Int)) ->
          V' = V)) /\
    (forall v,
       Vars (Sample.start Sample.emptyLibrary Inputs.referenceVars) !! v
       = None ->
       Vars tc' !! v = None).
Proof.
  destruct (visitBoundVars (NamedPattern 0%nat (TLValue Inputs.Int))
              (Sample.start Sample.emptyLibrary Inputs.referenceVars))
    as [[[] tc']|] eqn:E; [|vm_compute in E; discriminate].
  exists tc'. split; [reflexivity|].
  exact (bound_variables_are_materialized _ _ _ E).
Defined.

Lemma second_pass_rechecks_initializer_only_witness :
  DelayCheckingPattern (TU (Inputs.bindingChecker TU_Library))
                       Inputs.checkedBinding = false /\
  exists (failed : bool) Init' x,
    typeCheckExpression Sample.collaborators Inputs.initializer Inputs.Int
                        (Ext (Inputs.bindingChecker TU_Library))
    = (failed, Init', x) /\
    visitPatternBindingDecl Sample.collaborators false true
      Inputs.checkedBinding (Inputs.bindingChecker TU_Library)
    = Some (if failed then Inputs.checkedBinding
            else setInit Init' Inputs.checkedBinding,
            appendLog
              (withExt (Inputs.bindingChecker TU_Library) x
                 (TypeCheckExpression Inputs.initializer Inputs.Int failed))
              (if failed
               then [Diagnose (while_converting_var_init Inputs.Int)]
               else [])).
Proof.
  split; [reflexivity|].
  exact (second_pass_rechecks_initializer_only Sample.collaborators false
           Inputs.checkedBinding (Inputs.bindingChecker TU_Library) eq_refl).
Defined.

Lemma function_type_is_body_type_witness :
  exists FD' tc',
    visitFuncDecl Sample.collaborators true false Inputs.floatPlusFunc
                  Inputs.twoModules = Some (FD', tc') /\
    exists body GenericParams tc1 body' vs x base,
      (isNull (fd_thisType Inputs.floatPlusFunc) = true ->
       body = fd_body Inputs.floatPlusFunc) /\
      (isNull (fd_thisType Inputs.floatPlusFunc) = false ->
       exists sub ann ty rest,
         getParamPatterns (fd_body Inputs.floatPlusFunc)
         = TypedPattern sub ann ty :: rest /\
         body = mkFuncExpr
                  (TypedPattern sub ann
                     (if isNull ty then fd_thisType Inputs.floatPlusFunc
                      else ty) :: rest)
                  (fe_type (fd_body Inputs.floatPlusFunc))) /\
      checkGenericParams Sample.collaborators true
                         (fd_genericParams Inputs.floatPlusFunc)
                         Inputs.twoModules
      = Some (GenericParams, tc1) /\
      semaFuncExpr Sample.collaborators body true (Vars tc1) (Ext tc1)
      = (body', vs, x) /\
      validateAttributes true
        (setType (fe_type body') (fd_base Inputs.floatPlusFunc))
        (withVarsExt tc1 vs x (SemaFuncExpr body true))
      = Some (base, tc') /\
      FD' = mkFuncDecl base body' GenericParams
                       (fd_thisType Inputs.floatPlusFunc) /\
      getType base = fe_type body'.
Proof.
  destruct (visitFuncDecl Sample.collaborators true false
              Inputs.floatPlusFunc Inputs.twoModules)
    as [[FD' tc']|] eqn:E; [|vm_compute in E; discriminate].
  exists FD', tc'. split; [reflexivity|].
  exact (function_type_is_body_type Sample.collaborators _ _ _ _ _ E).
Defined.

Lemma struct_visit_needs_implied_constructor_witness :
  exists D' tc',
    visit Sample.collaborators false false Inputs.pointDecl
          Inputs.pointChecker = Some (D', tc') /\
    exists ElementCtor,
      last (getMembers Inputs.pointDecl) = Some (DOneOfElement ElementCtor).
Proof.
  destruct (visit Sample.collaborators false false Inputs.pointDecl
                  Inputs.pointChecker)
    as [[D' tc']|] eqn:E; [|vm_compute in E; discriminate].
  exists D', tc'. split; [reflexivity|].
  exact (struct_visit_needs_implied_constructor
           Sample.collaborators _ _ _ _ _ _ E).
Defined.

Lemma nominal_type_is_checked_in_order_witness :
  exists N members D' tc',
    Inputs.pointDecl = DStruct N members /\
    visit Sample.collaborators false false Inputs.pointDecl
          Inputs.pointChecker = Some (D', tc') /\
    exists Inherited tc1 GenericParams tc2 members1 tc3 N',
      checkInherited Sample.collaborators false (ntd_inherited N)
                     Inputs.pointChecker
      = Some (Inherited, tc1) /\
      checkGenericParams Sample.collaborators false (ntd_genericParams N) tc1
      = Some (GenericParams, tc2) /\
      forEach (visit Sample.collaborators false false) members tc2
      = Some (members1, tc3) /\
      (if false then tc' = tc3
       else checkExplicitConformance Sample.collaborators
              (ntd_declaredType N) Inherited tc3
            = Some (tt, tc')) /\
      Log tc'
      = Log tc3
        ++ (if false then []
            else conformanceCalls (ntd_declaredType N) Inherited) /\
      N' = setNtdGenericParams GenericParams (setNtdInherited Inherited N) /\
      (Inputs.pointDecl = DOneOf N members -> D' = DOneOf N' members1) /\
      (Inputs.pointDecl = DClass N members -> D' = DClass N' members1) /\
      (Inputs.pointDecl = DStruct N members ->
       exists members',
         impliedConstructor N' members1 tc3 = Some (members', tc3) /\
         D' = DStruct N' members').
Proof.
  destruct (visit Sample.collaborators false false Inputs.pointDecl
                  Inputs.pointChecker)
    as [[D' tc']|] eqn:E; [|vm_compute in E; discriminate].
  eexists _, _, D', tc'. split; [reflexivity|]. split; [reflexivity|].
  exact (nominal_type_is_checked_in_order Sample.collaborators false _ _ _ _
           _ _ (or_intror (or_introl eq_refl)) E).
Defined.

Lemma extension_is_checked_in_order_witness :
  exists ED members D' tc',
    Inputs.intExtension = DExtension ED members /\
    visit Sample.collaborators false false Inputs.intExtension Inputs.library
    = Some (D', tc') /\
    exists (failed : bool) ExtendedTy x Inherited tc1 members' tc2,
      validateType Sample.collaborators (ext_extendedTy ED) false
                   (Ext Inputs.library)
      = (failed, ExtendedTy, x) /\
      checkInherited Sample.collaborators false (ext_inherited ED)
        (appendLog
           (withExt Inputs.library x
              (ValidateType (tl_type (ext_extendedTy ED)) false failed))
           (if isNominalOrError (tl_type ExtendedTy) then []
            else [Diagnose
                    (non_nominal_extension
                       (isProtocolType (tl_type ExtendedTy))
                       (tl_type ExtendedTy))]))
      = Some (Inherited, tc1) /\
      forEach (visit Sample.collaborators false false) members tc1
      = Some (members', tc2) /\
      (if false then tc' = tc2
       else checkExplicitConformance Sample.collaborators
              (tl_type ExtendedTy) Inherited tc2
            = Some (tt, tc')) /\
      Log tc'
      = Log tc2
        ++ (if false then []
            else conformanceCalls (tl_type ExtendedTy) Inherited) /\
      D' = DExtension (mkExtensionDecl (ext_context ED) ExtendedTy Inherited)
                      members'.
Proof.
  destruct (visit Sample.collaborators false false Inputs.intExtension
                  Inputs.library)
    as [[D' tc']|] eqn:E; [|vm_compute in E; discriminate].
  eexists _, _, D', tc'. split; [reflexivity|]. split; [reflexivity|].
  exact (extension_is_checked_in_order Sample.collaborators false _ _ _ _ _ E).
Defined.

Lemma requirements_reach_the_builder_twice_witness :
  exists gp' tc',
    checkGenericParams Sample.collaborators true (Some Inputs.boxParams)
                       Inputs.library = Some (Some gp', tc') /\
    Forall (fun e => ~ isFailure e) (Log tc') /\
    addedRequirements (Log tc')
    = gp_requirements Inputs.boxParams ++ gp_requirements Inputs.boxParams /\
    gp_requirements gp' = gp_requirements Inputs.boxParams.
Proof.
  destruct (checkGenericParams Sample.collaborators true
              (Some Inputs.boxParams) Inputs.library)
    as [[[gp'|] tc']|] eqn:E;
    [|vm_compute in E; discriminate|vm_compute in E; discriminate].
  assert (Forall (fun e => ~ isFailure e) (Log tc')) as HF.
  { pose proof E as E'. vm_compute in E'. injection E' as _ <-.
    cbn [Log]. repeat (constructor; [intros H; (discriminate H || exact H)|]).
    constructor. }
  exists gp', tc'. split; [reflexivity|]. split; [exact HF|].
  exact (requirements_reach_the_builder_twice Sample.collaborators true _
           Inputs.library _ _ (Log tc') E eq_refl HF).
Defined.

Lemma associated_type_conforms_to_its_clause_witness :
  (forall id name conformsTo index fp x,
   exists x',
     validateType Sample.collaborators
                  (mkTypeLoc (TArchetype id name conformsTo index)) fp x
     = (false, mkTypeLoc (TArchetype id name conformsTo index), x')) /\
  exists D' tc',
    visit Sample.collaborators true false Inputs.sequenceDecl Inputs.library
    = Some (D', tc') /\
    exists PD' members',
      D' = DProtocol PD' members' /\
      forall i TAD,
        getMembers Inputs.sequenceDecl !! i = Some (DTypeAlias TAD) ->
        isProtocolContext (getDeclContext (tad_base TAD)) = true ->
        exists TAD' id,
          members' !! i = Some (DTypeAlias TAD') /\
          tad_base TAD' = tad_base TAD /\
          length (tad_inherited TAD') = length (tad_inherited TAD) /\
          tl_type (tad_underlying TAD')
          = TArchetype id (getName (tad_base TAD))
                       (map tl_type (tad_inherited TAD'))
                       (associatedIndex (getName (tad_base TAD))).
Proof.
  assert (Hval : forall id name conformsTo index fp x,
             exists x',
               validateType Sample.collaborators
                            (mkTypeLoc (TArchetype id name conformsTo index))
                            fp x
               = (false, mkTypeLoc (TArchetype id name conformsTo index), x')).
  { intros id name conformsTo index fp x. by exists (S x). }
  split; [exact Hval|].
  destruct (visit Sample.collaborators true false Inputs.sequenceDecl
                  Inputs.library)
    as [[D' tc']|] eqn:E; [|vm_compute in E; discriminate].
  exists D', tc'. split; [reflexivity|].
  exact (associated_type_conforms_to_its_clause
           Sample.collaborators true Hval _ _ _ _ _ E).
Defined.
